(** * Wire: provider parsing (wire/internal/wire/parse.go) and the generated
      guestbook injectors (samples/guestbook/wire_gen.go)

    A shallow embedding of the functions of [parse.go] that turn Go
    declarations into Wire's provider model, and of the three generated
    injector functions of the guestbook sample, followed by the properties
    proved about them.

    The Go standard library packages [go/types], [go/ast] and [go/token] are
    not part of the repository.  Their types are represented here by the
    operations the code calls on them (class [GoTypes]), so that every theorem
    holds for any behaviour of those operations; a small concrete universe of
    types ([Module Toy]) is used to run the definitions on examples. *)

From Stdlib Require Import ZArith Bool Lia Ascii String.
From stdpp Require Import base option list strings gmap.

Set Implicit Arguments.
Open Scope string_scope.

(* ================================================================== *)
(** ** Go runtime: panics *)
(* ================================================================== *)

(** A Go computation either yields a value or panics.  [OutOfFuel] is the
    outcome of a recursive function that was run with too little fuel. *)
Inductive result (A : Type) : Type :=
| Ok (a : A)
| Panic (msg : string)
| OutOfFuel.
Arguments Ok {A} a.
Arguments Panic {A} msg.
Arguments OutOfFuel {A}.

Definition rbind {A B} (m : result A) (k : A -> result B) : result B :=
  match m with
  | Ok a => k a
  | Panic msg => Panic msg
  | OutOfFuel => OutOfFuel
  end.

Notation "'let*' x ':=' c1 'in' c2" := (rbind c1 (fun x => c2))
  (at level 10, x name, c1 at level 200, c2 at level 200).
Notation "'let*' ' pat ':=' c1 'in' c2" :=
  (rbind c1 (fun x => match x with pat => c2 end))
  (at level 10, pat pattern, c1 at level 200, c2 at level 200).

(** [p != nil] for a pointer [p]. *)
Definition is_Some_bool {A} (p : option A) : bool :=
  match p with Some _ => true | None => false end.

(** [*p], [p.f] or [p.m()] for a pointer [p]: a run-time panic when [p] is
    nil. *)
Definition deref {A} (p : option A) : result A :=
  match p with
  | Some a => Ok a
  | None => Panic "nil pointer dereference"
  end.

(** [l[i]] on a slice: a run-time panic when [i] is out of range. *)
Definition index {A} (l : list A) (i : nat) : result A :=
  match l !! i with
  | Some a => Ok a
  | None => Panic "index out of range"
  end.

(** [l[i] = x] on a slice: a run-time panic when [i] is out of range. *)
Definition assign {A} (l : list A) (i : nat) (x : A) : result (list A) :=
  if decide (i < length l) then Ok (<[i := x]> l) else Panic "index out of range".

(** [for i := start; i < start+count; i++ { body }] where the body may leave
    the function early with a return value ([inl]) or fall through to the
    next iteration with an updated state ([inr]). *)
Fixpoint for_range {S R} (body : nat -> S -> result (R + S))
    (start count : nat) (s : S) : result (R + S) :=
  match count with
  | O => Ok (inr s)
  | Datatypes.S count' =>
      let* r := body start s in
      match r with
      | inl ret => Ok (inl ret)
      | inr s' => for_range body (Datatypes.S start) count' s'
      end
  end.

(* ================================================================== *)
(** ** go/token *)
(* ================================================================== *)

(** [token.Pos] is an integer offset into a file set. *)
Definition Pos := Z.
Bind Scope Z_scope with Pos.

(** [token.Position]. *)
Record Position := {
  Filename : string;
  Offset : Z;
  Line : Z;
  Column : Z
}.

(** [*token.FileSet], as far as [parse.go] uses it: [fset.Position(p)]. *)
Record FileSet := { FileSet_Position : Pos -> Position }.

(** [token.Token], the operators of unary and binary expressions.  Only
    [token.ARROW] ([<-]) is told apart by the code. *)
Inductive Token := ARROW | ADD | SUB | MUL | AND | NOT | XOR | OtherToken (name : string).

(* ================================================================== *)
(** ** errors *)
(* ================================================================== *)

(** Non-nil values of Go's [error] interface occurring in [parse.go]:
    the errors made by [errors.New] and [fmt.Errorf], and [*wireErr], an
    error with a position (fields [error] and [position], read by [Load]). *)
Inductive error :=
| errorString (s : string)
| wireErr (e : error) (position : Position).

Definition errors_New (s : string) : error := errorString s.

(* ================================================================== *)
(** ** go/ast *)
(* ================================================================== *)

(** Syntax nodes ([ast.Node]): every expression node of [go/ast], the field
    lists that type expressions contain, and the statements that can occur in
    the body of a function literal.  Fields that are themselves nodes and may
    be nil are options.  Comments are omitted. *)
#[warnings="-register-all"]
Inductive Node :=
| BadExpr (from : Pos)
| Ident (namePos : Pos) (name : string)
| Ellipsis (ellipsis : Pos) (elt : option Node)
| BasicLit (valuePos : Pos) (value : string)
| FuncLit (type_ : Node) (body : Node)
| CompositeLit (type_ : option Node) (lbrace : Pos) (elts : list Node)
| ParenExpr (lparen : Pos) (x : Node)
| SelectorExpr (x : Node) (sel : Node)
| IndexExpr (x : Node) (index_ : Node)
| SliceExpr (x : Node) (low high max : option Node)
| TypeAssertExpr (x : Node) (type_ : option Node)
| CallExpr (fun_ : Node) (args : list Node)
| StarExpr (star : Pos) (x : Node)
| UnaryExpr (opPos : Pos) (op : Token) (x : Node)
| BinaryExpr (x : Node) (op : Token) (y : Node)
| KeyValueExpr (key : Node) (value : Node)
| ArrayType (lbrack : Pos) (len : option Node) (elt : Node)
| StructType (struct : Pos) (fields : Node)
| FuncType (pos : Pos) (params : option Node) (results : option Node)
| InterfaceType (interface : Pos) (methods : Node)
| MapType (map_ : Pos) (key : Node) (value : Node)
| ChanType (begin : Pos) (value : Node)
| FieldList (pos : Pos) (list_ : list Node)
| Field (pos : Pos) (names : list Node) (type_ : option Node) (tag : option Node)
| BlockStmt (lbrace : Pos) (list_ : list Node)
| ExprStmt (x : Node)
| ReturnStmt (return_ : Pos) (results : list Node).

(** [node.Pos()].  For [FuncType], [FieldList] and [Field] the node carries
    the value of its [Pos()]. *)
Fixpoint Node_Pos (n : Node) : Pos :=
  match n with
  | BadExpr from => from
  | Ident namePos _ => namePos
  | Ellipsis p _ => p
  | BasicLit p _ => p
  | FuncLit t _ => Node_Pos t
  | CompositeLit (Some t) _ _ => Node_Pos t
  | CompositeLit None lbrace _ => lbrace
  | ParenExpr lparen _ => lparen
  | SelectorExpr x _ => Node_Pos x
  | IndexExpr x _ => Node_Pos x
  | SliceExpr x _ _ _ => Node_Pos x
  | TypeAssertExpr x _ => Node_Pos x
  | CallExpr f _ => Node_Pos f
  | StarExpr star _ => star
  | UnaryExpr opPos _ _ => opPos
  | BinaryExpr x _ _ => Node_Pos x
  | KeyValueExpr k _ => Node_Pos k
  | ArrayType lbrack _ _ => lbrack
  | StructType p _ => p
  | FuncType p _ _ => p
  | InterfaceType p _ => p
  | MapType p _ _ => p
  | ChanType p _ => p
  | FieldList p _ => p
  | Field p _ _ _ => p
  | BlockStmt p _ => p
  | ExprStmt x => Node_Pos x
  | ReturnStmt p _ => p
  end.

(** The children of a node, in the order in which [ast.Walk] visits them. *)
Definition children (n : Node) : list Node :=
  match n with
  | BadExpr _ | Ident _ _ | BasicLit _ _ => []
  | Ellipsis _ elt => option_list elt
  | FuncLit t b => [t; b]
  | CompositeLit t _ elts => option_list t ++ elts
  | ParenExpr _ x => [x]
  | SelectorExpr x sel => [x; sel]
  | IndexExpr x i => [x; i]
  | SliceExpr x low high max =>
      x :: option_list low ++ option_list high ++ option_list max
  | TypeAssertExpr x t => x :: option_list t
  | CallExpr f args => f :: args
  | StarExpr _ x => [x]
  | UnaryExpr _ _ x => [x]
  | BinaryExpr x _ y => [x; y]
  | KeyValueExpr k v => [k; v]
  | ArrayType _ len elt => option_list len ++ [elt]
  | StructType _ fields => [fields]
  | FuncType _ params results => option_list params ++ option_list results
  | InterfaceType _ methods => [methods]
  | MapType _ k v => [k; v]
  | ChanType _ v => [v]
  | FieldList _ l => l
  | Field _ names t tag => names ++ option_list t ++ option_list tag
  | BlockStmt _ l => l
  | ExprStmt x => [x]
  | ReturnStmt _ results => results
  end.

Section Inspect.
(** The callback of [ast.Inspect] is a closure; [St] is the state of the
    variables it captures.  It is called with [None] for the nil node that
    ends the visit of a node's children. *)
Context {St : Type} (f : option Node -> St -> bool * St).

(** [ast.Inspect(node, f)]: depth-first traversal.  [f(node)] is called
    first; if it returns true, the non-nil children are traversed in order,
    followed by a call [f(nil)]. *)
Fixpoint Inspect (node : Node) (s : St) {struct node} : St :=
  let '(descend, s) := f (Some node) s in
  if descend then
    let walkList := fold_left (fun s n => Inspect n s) in
    let walkOpt := fun (o : option Node) s =>
      match o with Some n => Inspect n s | None => s end in
    let s :=
      match node with
      | BadExpr _ | Ident _ _ | BasicLit _ _ => s
      | Ellipsis _ elt => walkOpt elt s
      | FuncLit t b => Inspect b (Inspect t s)
      | CompositeLit t _ elts => walkList elts (walkOpt t s)
      | ParenExpr _ x => Inspect x s
      | SelectorExpr x sel => Inspect sel (Inspect x s)
      | IndexExpr x i => Inspect i (Inspect x s)
      | SliceExpr x low high max =>
          walkOpt max (walkOpt high (walkOpt low (Inspect x s)))
      | TypeAssertExpr x t => walkOpt t (Inspect x s)
      | CallExpr fn args => walkList args (Inspect fn s)
      | StarExpr _ x => Inspect x s
      | UnaryExpr _ _ x => Inspect x s
      | BinaryExpr x _ y => Inspect y (Inspect x s)
      | KeyValueExpr k v => Inspect v (Inspect k s)
      | ArrayType _ len elt => Inspect elt (walkOpt len s)
      | StructType _ fields => Inspect fields s
      | FuncType _ params results => walkOpt results (walkOpt params s)
      | InterfaceType _ methods => Inspect methods s
      | MapType _ k v => Inspect v (Inspect k s)
      | ChanType _ v => Inspect v s
      | FieldList _ l => walkList l s
      | Field _ names t tag => walkOpt tag (walkOpt t (walkList names s))
      | BlockStmt _ l => walkList l s
      | ExprStmt x => Inspect x s
      | ReturnStmt _ results => walkList results s
      end in
    snd (f None s)
  else s.
End Inspect.

(** A value of type [*ast.CallExpr]. *)
Record CallExprT := { Fun : Node; Call_Args : list Node }.

(** [call.Pos()] *)
Definition Call_Pos (call : CallExprT) : Pos := Node_Pos (Fun call).

(* ================================================================== *)
(** ** go/types *)
(* ================================================================== *)

(** [*types.Package]. *)
Record Package := { Package_Path : string; Package_Name : string }.

(** A [*types.Var]: a variable, parameter, result or struct field. *)
Record Var (type : Type) := {
  Var_Pkg : option Package;
  Var_Name : string;
  Var_Pos : Pos;
  Var_Type : type
}.

Arguments Var_Pkg {type} _.
Arguments Var_Name {type} _.
Arguments Var_Pos {type} _.
Arguments Var_Type {type} _.

(** A [*types.Tuple] is a list of variables. *)
Abbreviation Tuple type := (list (Var type)) (only parsing).

(** A [*types.Signature]. *)
Record Signature (type : Type) := {
  Params : Tuple type;
  Results : Tuple type
}.

Arguments Params {type} _.
Arguments Results {type} _.

(** The dynamic type of a [types.Type] value, which the code inspects with
    type assertions (to [*types.Pointer], [*types.Interface], ...). *)
Inductive TypeKind (type iface : Type) :=
| KPointer (elem : type)              (* *types.Pointer, with Elem() *)
| KInterface (methodSet : iface)      (* *types.Interface *)
| KStruct (fields : list (Var type))  (* *types.Struct, NumFields()/Field(i) *)
| KSignature                          (* *types.Signature *)
| KNamed                              (* *types.Named *)
| KOther.                             (* Basic, Slice, Array, Map, Chan, ... *)
Arguments KSignature {type iface}.
Arguments KNamed {type iface}.
Arguments KOther {type iface}.
Arguments KPointer {type iface} elem.
Arguments KInterface {type iface} methodSet.
Arguments KStruct {type iface} fields.

(** The operations of package [go/types] called by [parse.go]. *)
Class GoTypes := {
  type : Type;                               (* non-nil types.Type values *)
  iface : Type;                              (* *types.Interface values *)
  Hasher : Type;                             (* typeutil.Hasher *)
  kind : type -> TypeKind type iface;        (* dynamic type of a value *)
  Identical : type -> type -> bool;          (* types.Identical *)
  Underlying : type -> type;                 (* t.Underlying() *)
  NewPointer : type -> type;                 (* types.NewPointer *)
  Implements : type -> iface -> bool;        (* types.Implements *)
  TypeString : type -> string                (* types.TypeString(t, nil) *)
}.

(** [objRef], the key of the object cache: an import path and a name. *)
Abbreviation objRef := (string * string)%type (only parsing).

Section Model.
Context {GT : GoTypes}.

(** A [types.Type] variable may also hold nil (the zero value). *)
Definition IdenticalN (x y : option type) : bool :=
  match x, y with
  | Some a, Some b => Identical a b
  | None, None => true
  | _, _ => false
  end.

Definition TypeStringN (x : option type) : string :=
  match x with
  | Some a => TypeString a
  | None => "<nil>"
  end.

Record outputSignature := {
  out : option type;
  cleanup : bool;
  err : bool
}.

(** [outputSignature{}] *)
Definition outputSignature_zero : outputSignature :=
  {| out := None; cleanup := false; err := false |}.

(** [*types.Func]: a declared function.  Its [Type()] is always a signature. *)
Record Func := {
  Func_Pkg : option Package;
  Func_Name : string;
  Func_Pos : Pos;
  Func_Type : Signature type
}.

(** [*types.TypeName]: a declared type name. *)
Record TypeName := {
  TypeName_Pkg : option Package;
  TypeName_Name : string;
  TypeName_Pos : Pos;
  TypeName_Type : type
}.

(** [types.Object]: the entities that identifiers denote.  [ObjOther] stands
    for constants, built-ins, nil and labels. *)
Inductive Object :=
| ObjVar (v : Var type)
| ObjFunc (f : Func)
| ObjTypeName (tn : TypeName)
| ObjPkgName (pkg : option Package) (name : string) (pos : Pos)
| ObjOther (pkg : option Package) (name : string) (pos : Pos).

(** [obj.Pkg()] *)
Definition Object_Pkg (obj : Object) : option Package :=
  match obj with
  | ObjVar v => Var_Pkg v
  | ObjFunc f => Func_Pkg f
  | ObjTypeName tn => TypeName_Pkg tn
  | ObjPkgName pkg _ _ => pkg
  | ObjOther pkg _ _ => pkg
  end.

(** [obj.Name()] *)
Definition Object_Name (obj : Object) : string :=
  match obj with
  | ObjVar v => Var_Name v
  | ObjFunc f => Func_Name f
  | ObjTypeName tn => TypeName_Name tn
  | ObjPkgName _ name _ => name
  | ObjOther _ name _ => name
  end.

(** [obj.Pos()] *)
Definition Object_Pos (obj : Object) : Pos :=
  match obj with
  | ObjVar v => Var_Pos v
  | ObjFunc f => Func_Pos f
  | ObjTypeName tn => TypeName_Pos tn
  | ObjPkgName _ _ pos => pos
  | ObjOther _ _ pos => pos
  end.

(** [ProviderInput] describes an incoming edge in the provider graph. *)
Record ProviderInput := { ProviderInput_Type : option type }.

(** [ProviderInput{}], the elements of a slice made by [make]. *)
Definition ProviderInput_zero : ProviderInput := {| ProviderInput_Type := None |}.

(** [Provider] records the signature of a provider: a function or a named
    struct type. *)
Record Provider := {
  Provider_Pkg : option Package;
  Provider_Name : string;
  Provider_Pos : Pos;
  Args : list ProviderInput;
  IsStruct : bool;
  Fields : list string;
  Out : list (option type);
  HasCleanup : bool;
  HasErr : bool
}.

(** [provider.Args = args] *)
Definition Provider_set_Args (p : Provider) (args : list ProviderInput) : Provider :=
  {| Provider_Pkg := Provider_Pkg p; Provider_Name := Provider_Name p;
     Provider_Pos := Provider_Pos p; Args := args; IsStruct := IsStruct p;
     Fields := Fields p; Out := Out p; HasCleanup := HasCleanup p;
     HasErr := HasErr p |}.

(** [provider.Fields = fields] *)
Definition Provider_set_Fields (p : Provider) (fields : list string) : Provider :=
  {| Provider_Pkg := Provider_Pkg p; Provider_Name := Provider_Name p;
     Provider_Pos := Provider_Pos p; Args := Args p; IsStruct := IsStruct p;
     Fields := fields; Out := Out p; HasCleanup := HasCleanup p;
     HasErr := HasErr p |}.

(** [*types.Info], the type information of a package.  [Load] goes on only
    when the packages type-check, so every expression has a recorded type. *)
Record Info := {
  TypeOf : Node -> type;
  (** [info.ObjectOf(id)] for an identifier [id]; nil if there is none. *)
  ObjectOf : Node -> option Object
}.

(** An [IfaceBinding] declares that a type should be used to satisfy inputs
    of the given interface type. *)
Record IfaceBinding := {
  Iface : type;
  Provided : type;
  IfaceBinding_Pos : Pos
}.

(** [Value] describes a value expression. *)
Record Value := {
  Value_Pos : Pos;
  Value_Out : type;
  Value_expr : Node;
  Value_info : Info
}.

(** [InjectorArgs] describes the arguments passed to an injector function. *)
Record InjectorArgs := {
  InjectorArgs_Name : string;
  InjectorArgs_Tuple : Tuple type;
  InjectorArgs_Pos : Pos
}.

(** [InjectorArg] describes a specific argument passed to an injector
    function. *)
Record InjectorArg := {
  InjectorArg_Args : option InjectorArgs;
  Index : nat
}.

(** [ProvidedType] represents a type provided from a source.  The source can
    be a [*Provider], a [*Value] or an [*InjectorArg]; each of the three
    pointers may be nil.  The zero value has none of them. *)
Record ProvidedType := {
  ProvidedType_t : option type;
  ProvidedType_p : option Provider;
  ProvidedType_v : option Value;
  ProvidedType_a : option InjectorArg
}.

(** [ProvidedType{}] *)
Definition ProvidedType_zero : ProvidedType :=
  {| ProvidedType_t := None; ProvidedType_p := None;
     ProvidedType_v := None; ProvidedType_a := None |}.

(** [typeutil.Map], a mapping from types to values in which two keys are the
    same key when they are identical types ([types.Identical]).  A [*Map] may
    be nil, which is a valid empty map. *)
Definition TypeMap (V : Type) := list (type * V).

(** [m.At(key)]: the entry for the given key; nil if there is none. *)
Definition TypeMap_At {V} (m : option (TypeMap V)) (key : type) : option V :=
  match m with
  | Some table =>
      match find (fun e => Identical key (fst e)) table with
      | Some e => Some (snd e)
      | None => None
      end
  | None => None
  end.

(** [m.Keys()] *)
Definition TypeMap_Keys {V} (m : option (TypeMap V)) : list type :=
  match m with
  | Some table => map fst table
  | None => []
  end.

(** A [ProviderSet] describes a set of providers, and a [providerSetSrc]
    captures the source for a type provided by a [ProviderSet]. *)
#[warnings="-register-all"]
Inductive ProviderSet := {
  ProviderSet_Pos : Pos;
  PkgPath : string;
  VarName : string;
  Providers : list Provider;
  Bindings : list IfaceBinding;
  Values : list Value;
  Imports : list ProviderSet;
  ProviderSet_InjectorArgs : option InjectorArgs;
  providerMap : option (TypeMap ProvidedType);
  srcMap : option (TypeMap providerSetSrc)
}
with providerSetSrc := {
  Src_Provider : option Provider;
  Src_Binding : option IfaceBinding;
  Src_Value : option Value;
  Src_Import : option ProviderSet;
  Src_InjectorArg : option InjectorArg
}.

(** The values that [oc.get] and [oc.processExpr] return in an
    [interface{}]: a [*Provider], a [*ProviderSet], an [*IfaceBinding] or a
    [*Value].  An [option Item] is [None] for an [interface{}] that holds no
    such value: the nil interface, and also the interface that Go makes of
    the nil [*Provider] or [*ProviderSet] that a failing call returns, which
    is not nil but holds a nil pointer.  The two are not told apart here;
    they come with errors, and the callers in [parse.go] do not look at the
    item then. *)
Inductive Item :=
| ItemProvider (p : Provider)
| ItemProviderSet (s : ProviderSet)
| ItemIfaceBinding (b : IfaceBinding)
| ItemValue (v : Value).

(** A value of type [*ast.Ident]. *)
Record IdentT := { NamePos : Pos; Ident_Name : string }.

(** [*ast.ValueSpec]: a variable declaration [var Names... = Values...]. *)
Record ValueSpec := {
  Names : list IdentT;
  Spec_Values : list Node
}.

(** [*packages.Package], as far as [parse.go] reads it.  [Pkg_enclosingSpec]
    stands for the syntax of the package's files: it gives, for a position,
    the innermost [*ast.ValueSpec] that encloses it in the file that contains
    it, if there is one. *)
Record PackageT := {
  Pkg_PkgPath : string;
  Pkg_TypesInfo : Info;
  Pkg_enclosingSpec : Pos -> option ValueSpec
}.

Record objCacheEntry := {
  objCacheEntry_val : option Item;
  objCacheEntry_errs : list error
}.

(** [objectCache] is a lazily evaluated mapping of objects to Wire
    structures. *)
Record objectCache := {
  oc_fset : FileSet;
  packages : gmap string PackageT;
  objects : gmap objRef objCacheEntry;
  hasher : Hasher
}.

(** [oc.objects[ref] = ent] *)
Definition objectCache_store (oc : objectCache) (ref : objRef) (ent : objCacheEntry)
    : objectCache :=
  {| oc_fset := oc_fset oc; packages := packages oc;
     objects := <[ref := ent]> (objects oc); hasher := hasher oc |}.

End Model.

(** Parts of package [wire] that [parse.go] uses and that live in other files
    of the package, and [ObjectString], the text that [fmt] prints for a
    [types.Object] with the verb [%v]. *)
Class WireEnv {GT : GoTypes} := {
  ObjectString : Object -> string;
  (** [errorType], the type of the universe's [error]. *)
  errorType : type;
  (** [cleanupType], the type [func()]. *)
  cleanupType : type;
  (** [notePosition(p, e)]: [e] annotated with the position [p]. *)
  notePosition : Position -> error -> error;
  (** [err.Error()] for a [*wireErr]. *)
  wireErr_Error : error -> Position -> string;
  (** [buildProviderMap(fset, hasher, set)]: the merged index of a set and
      the sources of its entries, or errors. *)
  buildProviderMap : FileSet -> Hasher -> ProviderSet ->
    result (option (TypeMap ProvidedType) * option (TypeMap providerSetSrc) * list error);
  (** [verifyAcyclic(providerMap, hasher)]: the cycles of a merged index. *)
  verifyAcyclic : option (TypeMap ProvidedType) -> Hasher -> result (list error)
}.

Section Parse.
Context {GT : GoTypes} {WE : WireEnv}.

(** [err.Error()], which [fmt.Errorf] uses for the verb [%v]. *)
Definition Error (e : error) : string :=
  match e with
  | errorString s => s
  | wireErr e' p => wireErr_Error e' p
  end.

(** [funcOutput] validates an injector or provider function's return
    signature.  [switch results.Len()] followed by [results.At(i)] is a match
    on the list of results. *)
Definition funcOutput (sig : Signature type) : outputSignature * option error :=
  match Results sig with
  | [] =>
      (outputSignature_zero, Some (errors_New "no return values"))
  | [r0] =>
      ({| out := Some (Var_Type r0); cleanup := false; err := false |}, None)
  | [r0; r1] =>
      let out := Var_Type r0 in
      let t := Var_Type r1 in
      if Identical t errorType then
        ({| out := Some out; cleanup := false; err := true |}, None)
      else if Identical t cleanupType then
        ({| out := Some out; cleanup := true; err := false |}, None)
      else
        (outputSignature_zero,
         Some (errorString ("second return type is " +:+ TypeString t +:+
                            "; must be error or func()")))
  | [r0; r1; r2] =>
      let t := Var_Type r1 in
      if negb (Identical t cleanupType) then
        (outputSignature_zero,
         Some (errorString ("second return type is " +:+ TypeString t +:+
                            "; must be func()")))
      else
        let t := Var_Type r2 in
        if negb (Identical t errorType) then
          (outputSignature_zero,
           Some (errorString ("third return type is " +:+ TypeString t +:+
                              "; must be error")))
        else
          ({| out := Some (Var_Type r0); cleanup := true; err := true |}, None)
  | _ =>
      (outputSignature_zero, Some (errors_New "too many return values"))
  end.

(** [injectorFuncSignature]: the parameters and the validated results of an
    injector function. *)
Definition injectorFuncSignature (sig : Signature type)
    : option (Tuple type) * outputSignature * option error :=
  let '(out, ferr) := funcOutput sig in
  match ferr with
  | Some ferr => (None, outputSignature_zero, Some ferr)
  | None => (Some (Params sig), out, None)
  end.

(** The inner loop of [processFuncProvider] and [processStructProvider]:
    [for j := 0; j < i; j++ { if types.Identical(Args[i].Type, Args[j].Type)
    { return nil, []error{mkerr(Args[j].Type)} } }]. *)
Definition findDuplicate (provider : Provider) (i : nat)
    (mkerr : option type -> error) : result (list error + unit) :=
  for_range (fun j (_ : unit) =>
      let* ai := index (Args provider) i in
      let* aj := index (Args provider) j in
      if IdenticalN (ProviderInput_Type ai) (ProviderInput_Type aj)
      then Ok (inl [mkerr (ProviderInput_Type aj)])
      else Ok (inr ()))
    0 i ().

(** [processFuncProvider] creates a provider for a function declaration. *)
Definition processFuncProvider (fset : FileSet) (fn : Func)
    : result (option Provider * list error) :=
  let sig := Func_Type fn in
  let fpos := Func_Pos fn in
  let '(providerSig, ferr) := funcOutput sig in
  match ferr with
  | Some ferr =>
      Ok (None, [notePosition (FileSet_Position fset fpos)
                   (errorString ("wrong signature for provider " +:+ Func_Name fn
                                 +:+ ": " +:+ Error ferr))])
  | None =>
      let params := Params sig in
      let provider :=
        {| Provider_Pkg := Func_Pkg fn;
           Provider_Name := Func_Name fn;
           Provider_Pos := Func_Pos fn;
           Args := replicate (length params) ProviderInput_zero;
           IsStruct := false;
           Fields := [];
           Out := [out providerSig];
           HasCleanup := cleanup providerSig;
           HasErr := err providerSig |} in
      let* r := for_range (fun i provider =>
             let* p := index params i in
             let* args := assign (Args provider) i
                      {| ProviderInput_Type := Some (Var_Type p) |} in
             let provider := Provider_set_Args provider args in
             let* dup := findDuplicate provider i (fun t =>
                      notePosition (FileSet_Position fset fpos)
                        (errorString ("provider has multiple parameters of type "
                                      +:+ TypeStringN t))) in
             match dup with
             | inl errs => Ok (inl (None, errs))
             | inr _ => Ok (inr provider)
             end)
           0 (length params) provider in
      match r with
      | inl ret => Ok ret
      | inr provider => Ok (Some provider, [])
      end
  end.

(** [processStructProvider] creates a provider for a named struct type.  It
    produces pointer and non-pointer variants via two values in [Out]. *)
Definition processStructProvider (fset : FileSet) (typeName : TypeName)
    : result (option Provider * list error) :=
  let out := TypeName_Type typeName in
  match kind (Underlying out) with
  | KStruct st =>
      let pos := TypeName_Pos typeName in
      let provider :=
        {| Provider_Pkg := TypeName_Pkg typeName;
           Provider_Name := TypeName_Name typeName;
           Provider_Pos := pos;
           Args := replicate (length st) ProviderInput_zero;
           Fields := replicate (length st) EmptyString;
           IsStruct := true;
           Out := [Some out; Some (NewPointer out)];
           HasCleanup := false;
           HasErr := false |} in
      let* r := for_range (fun i provider =>
             let* f := index st i in
             let* args := assign (Args provider) i
                      {| ProviderInput_Type := Some (Var_Type f) |} in
             let provider := Provider_set_Args provider args in
             let* fields := assign (Fields provider) i (Var_Name f) in
             let provider := Provider_set_Fields provider fields in
             let* dup := findDuplicate provider i (fun t =>
                      notePosition (FileSet_Position fset pos)
                        (errorString ("provider struct has multiple fields of type "
                                      +:+ TypeStringN t))) in
             match dup with
             | inl errs => Ok (inl (None, errs))
             | inr _ => Ok (inr provider)
             end)
           0 (length st) provider in
      match r with
      | inl ret => Ok ret
      | inr provider => Ok (Some provider, [])
      end
  | _ =>
      Ok (None, [errorString (ObjectString (ObjTypeName typeName) +:+
                              " does not name a struct")])
  end.

(** [processBind] creates an interface binding from a [wire.Bind] call. *)
Definition processBind (fset : FileSet) (info : Info) (call : CallExprT)
    : option IfaceBinding * option error :=
  match Call_Args call with
  | [arg0; arg1] =>
      let ifaceArgType := TypeOf info arg0 in
      match kind ifaceArgType with
      | KPointer iface =>
          match kind (Underlying iface) with
          | KInterface methodSet =>
              let provided := TypeOf info arg1 in
              if Identical iface provided then
                (None, Some (notePosition (FileSet_Position fset (Call_Pos call))
                               (errors_New "cannot bind interface to itself")))
              else if negb (Implements provided methodSet) then
                (None, Some (notePosition (FileSet_Position fset (Call_Pos call))
                               (errorString (TypeString provided +:+
                                             " does not implement " +:+
                                             TypeString iface))))
              else
                (Some {| IfaceBinding_Pos := Call_Pos call;
                         Iface := iface;
                         Provided := provided |}, None)
          | _ =>
              (None, Some (notePosition (FileSet_Position fset (Call_Pos call))
                             (errorString ("first argument to Bind must be a pointer to an interface type; found "
                                           +:+ TypeString ifaceArgType))))
          end
      | _ =>
          (None, Some (notePosition (FileSet_Position fset (Call_Pos call))
                         (errorString ("first argument to Bind must be a pointer to an interface type; found "
                                       +:+ TypeString ifaceArgType))))
      end
  | _ =>
      (None, Some (notePosition (FileSet_Position fset (Call_Pos call))
                     (errors_New "call to Bind takes exactly two arguments")))
  end.

(** The function literal that [processValue] passes to [ast.Inspect].  The
    state is the captured variable [ok]. *)
Definition valueInspector (info : Info) (node : option Node) (ok : bool) : bool * bool :=
  match node with
  | None
  | Some (ArrayType _ _ _) | Some (BasicLit _ _) | Some (BinaryExpr _ _ _)
  | Some (ChanType _ _) | Some (CompositeLit _ _ _) | Some (FuncType _ _ _)
  | Some (Ident _ _) | Some (IndexExpr _ _) | Some (InterfaceType _ _)
  | Some (KeyValueExpr _ _) | Some (MapType _ _ _) | Some (ParenExpr _ _)
  | Some (SelectorExpr _ _) | Some (SliceExpr _ _ _ _) | Some (StarExpr _ _)
  | Some (StructType _ _) | Some (TypeAssertExpr _ _) =>
      (* Good! *)
      (true, ok)
  | Some (UnaryExpr _ op _) =>
      match op with
      | ARROW => (false, false)
      | _ => (true, ok)
      end
  | Some (CallExpr fn _) =>
      (* Only acceptable if it's a type conversion. *)
      match kind (TypeOf info fn) with
      | KSignature => (false, false)
      | _ => (true, ok)
      end
  | Some _ => (false, false)
  end.

(** [processValue] creates a value from a [wire.Value] call. *)
Definition processValue (fset : FileSet) (info : Info) (call : CallExprT)
    : option Value * option error :=
  match Call_Args call with
  | [arg0] =>
      let ok := Inspect (valueInspector info) arg0 true in
      if negb ok then
        (None, Some (notePosition (FileSet_Position fset (Call_Pos call))
                       (errors_New "argument to Value is too complex")))
      else
        (* Result type can't be an interface type; use wire.InterfaceValue
           for that. *)
        let argType := TypeOf info arg0 in
        match kind (Underlying argType) with
        | KInterface _ =>
            (None, Some (notePosition (FileSet_Position fset (Call_Pos call))
                           (errorString ("argument to Value may not be an interface value (found "
                                         +:+ TypeString argType +:+
                                         "); use InterfaceValue instead"))))
        | _ =>
            (Some {| Value_Pos := Node_Pos arg0;
                     Value_Out := TypeOf info arg0;
                     Value_expr := arg0;
                     Value_info := info |}, None)
        end
  | _ =>
      (None, Some (notePosition (FileSet_Position fset (Call_Pos call))
                     (errors_New "call to Value takes exactly one argument")))
  end.

(** [processInterfaceValue] creates a value from a [wire.InterfaceValue]
    call. *)
Definition processInterfaceValue (fset : FileSet) (info : Info) (call : CallExprT)
    : option Value * option error :=
  match Call_Args call with
  | [arg0; arg1] =>
      let ifaceArgType := TypeOf info arg0 in
      match kind ifaceArgType with
      | KPointer iface =>
          match kind (Underlying iface) with
          | KInterface methodSet =>
              let provided := TypeOf info arg1 in
              if negb (Implements provided methodSet) then
                (None, Some (notePosition (FileSet_Position fset (Call_Pos call))
                               (errorString (TypeString provided +:+
                                             " does not implement " +:+
                                             TypeString iface))))
              else
                (Some {| Value_Pos := Node_Pos arg1;
                         Value_Out := iface;
                         Value_expr := arg1;
                         Value_info := info |}, None)
          | _ =>
              (None, Some (notePosition (FileSet_Position fset (Call_Pos call))
                             (errorString ("first argument to InterfaceValue must be a pointer to an interface type; found "
                                           +:+ TypeString ifaceArgType))))
          end
      | _ =>
          (None, Some (notePosition (FileSet_Position fset (Call_Pos call))
                         (errorString ("first argument to InterfaceValue must be a pointer to an interface type; found "
                                       +:+ TypeString ifaceArgType))))
      end
  | _ =>
      (None, Some (notePosition (FileSet_Position fset (Call_Pos call))
                     (errors_New "call to InterfaceValue takes exactly two arguments")))
  end.

(* ------------------------------------------------------------------ *)
(** *** Provider sets and provided types *)

(** [Outputs] returns a new slice containing the set of possible types the
    provider set can produce. *)
Definition Outputs (set : ProviderSet) : list type :=
  TypeMap_Keys (providerMap set).

(** [For] returns a [ProvidedType] for the given type, or the zero
    [ProvidedType]. *)
Definition For (set : ProviderSet) (t : type) : ProvidedType :=
  match TypeMap_At (providerMap set) t with
  | None => ProvidedType_zero
  | Some pt => pt
  end.

(** [IsNil] reports whether [pt] is the zero value. *)
Definition IsNil (pt : ProvidedType) : bool :=
  negb (is_Some_bool (ProvidedType_p pt)) &&
  negb (is_Some_bool (ProvidedType_v pt)) &&
  negb (is_Some_bool (ProvidedType_a pt)).

(** [ConcreteType] returns the concrete type that was provided. *)
Definition ConcreteType (pt : ProvidedType) : option type := ProvidedType_t pt.

(** [IsProvider] reports whether [pt] points to a [Provider]. *)
Definition IsProvider (pt : ProvidedType) : bool := is_Some_bool (ProvidedType_p pt).

(** [IsValue] reports whether [pt] points to a [Value]. *)
Definition IsValue (pt : ProvidedType) : bool := is_Some_bool (ProvidedType_v pt).

(** [IsArg] reports whether [pt] points to an injector argument. *)
Definition IsArg (pt : ProvidedType) : bool := is_Some_bool (ProvidedType_a pt).

(** [Provider] returns [pt] as a [Provider] pointer.  It panics if [pt] does
    not point to a [Provider]. *)
Definition ProvidedType_Provider (pt : ProvidedType) : result Provider :=
  match ProvidedType_p pt with
  | None => Panic "ProvidedType does not hold a Provider"
  | Some p => Ok p
  end.

(** [Value] returns [pt] as a [Value] pointer.  It panics if [pt] does not
    point to a [Value]. *)
Definition ProvidedType_Value (pt : ProvidedType) : result Value :=
  match ProvidedType_v pt with
  | None => Panic "ProvidedType does not hold a Value"
  | Some v => Ok v
  end.

(** [Arg] returns [pt] as an [*InjectorArg] representing an injector
    argument.  It panics if [pt] does not point to an arg. *)
Definition ProvidedType_Arg (pt : ProvidedType) : result InjectorArg :=
  match ProvidedType_a pt with
  | None => Panic "ProvidedType does not hold an Arg"
  | Some a => Ok a
  end.

(* ------------------------------------------------------------------ *)
(** *** Error lists *)

(** Modelled from the spec: [errorCollector], [mapErrors] and
    [notePositionAll] are defined in another file of the package.  The
    collector is "an explicit error-collector value ... appended to rather
    than thrown, then returned as a batch"; the two functions apply a
    function, respectively [notePosition], to every error of a list. *)
Record errorCollector := { errors : list error }.

Definition errorCollector_new : errorCollector := {| errors := [] |}.

Definition errorCollector_add (ec : errorCollector) (err : list error) : errorCollector :=
  {| errors := errors ec ++ err |}.

Definition mapErrors (errs : list error) (f : error -> error) : list error :=
  map f errs.

Definition notePositionAll (p : Position) (errs : list error) : list error :=
  mapErrors errs (fun e => notePosition p e).

(* ------------------------------------------------------------------ *)
(** *** Recognising the expressions of a provider set *)

(** [strings.LastIndex(s, substr)]: the index of the last instance of
    [substr] in [s], or none ([-1] in Go). *)
Fixpoint LastIndex_from (s substr : string) (i : nat) : option nat :=
  if String.prefix substr (String.substring i (String.length s - i) s) then Some i
  else match i with
       | O => None
       | Datatypes.S i' => LastIndex_from s substr i'
       end.

Definition LastIndex (s substr : string) : option nat :=
  if decide (String.length substr <= String.length s)
  then LastIndex_from s substr (String.length s - String.length substr)
  else None.

Definition vendorPart : string := "vendor/".

Definition isWireImport (path : string) : bool :=
  let path :=
    match LastIndex path vendorPart with
    | Some i =>
        if bool_decide (i = 0) ||
           bool_decide (String.get (i - 1) path = Some "/"%char)
        then String.substring (i + String.length vendorPart)
               (String.length path - (i + String.length vendorPart)) path
        else path
    | None => path
    end in
  bool_decide (path = "github.com/google/go-cloud/wire").

(** [astutil.Unparen] removes the parentheses around an expression. *)
Fixpoint Unparen (e : Node) : Node :=
  match e with
  | ParenExpr _ x => Unparen x
  | _ => e
  end.

(** [qualifiedIdentObject] finds the object for an identifier or a qualified
    identifier, or nil if the object could not be found.  The expression may
    be nil. *)
Definition qualifiedIdentObject (info : Info) (expr : option Node) : option Object :=
  match expr with
  | Some (Ident _ _ as id) => ObjectOf info id
  | Some (SelectorExpr x sel) =>
      match x with
      | Ident _ _ as pkgName =>
          match ObjectOf info pkgName with
          | Some (ObjPkgName _ _ _) => ObjectOf info sel
          | _ => None
          end
      | _ => None
      end
  | _ => None
  end.

(** [structArgType] attempts to interpret an expression as a simple struct
    type.  It assumes any parentheses have been stripped. *)
Definition structArgType (info : Info) (expr : Node) : option TypeName :=
  match expr with
  | CompositeLit litType _ _ =>
      match qualifiedIdentObject info litType with
      | Some (ObjTypeName tn) =>
          match kind (Underlying (TypeName_Type tn)) with
          | KStruct _ => Some tn
          | _ => None
          end
      | _ => None
      end
  | _ => None
  end.

(** [varDecl] finds the declaration that defines the given variable. *)
Definition varDecl (oc : objectCache) (obj : Var type) : result (option ValueSpec) :=
  let* objPkg := deref (Var_Pkg obj) in
  let* pkg := deref (packages oc !! Package_Path objPkg) in
  Ok (Pkg_enclosingSpec pkg (Var_Pos obj)).

(** [var i int; for i = range names { if names[i].Name == name { break } }]:
    the value of [i] after the loop. *)
Fixpoint nameIndex (names : list IdentT) (name : string) (i : nat) : nat :=
  match names with
  | [] => i
  | id :: rest =>
      if decide (Ident_Name id = name) then i
      else match rest with
           | [] => i
           | _ => nameIndex rest name (Datatypes.S i)
           end
  end.

(* ------------------------------------------------------------------ *)
(** *** Building provider sets *)

(** [oc.processExpr], [oc.get] and [oc.processNewSet] call each other.  The
    bodies of the three methods are written for an arbitrary function
    [processExpr_rec] standing for the recursive calls of [oc.processExpr];
    [processExpr] below ties the knot.  The object cache [oc] is a pointer in
    Go; here every method returns the cache it leaves behind. *)
Section Methods.
Variable processExpr_rec :
  objectCache -> Info -> string -> Node -> string ->
  result (objectCache * (option Item * list error)).

(** [pset.Providers = append(pset.Providers, item)] and the like. *)
Definition ProviderSet_append (pset : ProviderSet) (item : Item) : ProviderSet :=
  {| ProviderSet_Pos := ProviderSet_Pos pset;
     PkgPath := PkgPath pset;
     VarName := VarName pset;
     Providers :=
       match item with ItemProvider p => Providers pset ++ [p] | _ => Providers pset end;
     Bindings :=
       match item with ItemIfaceBinding b => Bindings pset ++ [b] | _ => Bindings pset end;
     Values :=
       match item with ItemValue v => Values pset ++ [v] | _ => Values pset end;
     Imports :=
       match item with ItemProviderSet i => Imports pset ++ [i] | _ => Imports pset end;
     ProviderSet_InjectorArgs := ProviderSet_InjectorArgs pset;
     providerMap := providerMap pset;
     srcMap := srcMap pset |}.

(** [pset.providerMap, pset.srcMap = pm, sm] *)
Definition ProviderSet_set_maps (pset : ProviderSet)
    (pm : option (TypeMap ProvidedType)) (sm : option (TypeMap providerSetSrc))
    : ProviderSet :=
  {| ProviderSet_Pos := ProviderSet_Pos pset;
     PkgPath := PkgPath pset;
     VarName := VarName pset;
     Providers := Providers pset;
     Bindings := Bindings pset;
     Values := Values pset;
     Imports := Imports pset;
     ProviderSet_InjectorArgs := ProviderSet_InjectorArgs pset;
     providerMap := pm;
     srcMap := sm |}.

(** The loop [for _, arg := range call.Args] of [processNewSet]; its state
    is the object cache, the set under construction and the error
    collector. *)
Fixpoint processNewSet_args (info : Info) (pkgPath : string) (args : list Node)
    (oc : objectCache) (pset : ProviderSet) (ec : errorCollector)
    : result (objectCache * ProviderSet * errorCollector) :=
  match args with
  | [] => Ok (oc, pset, ec)
  | arg :: rest =>
      let* '(oc, (item, errs)) := processExpr_rec oc info pkgPath arg EmptyString in
      if bool_decide (0 < length errs) then
        processNewSet_args info pkgPath rest oc pset (errorCollector_add ec errs)
      else
        match item with
        | Some item =>
            processNewSet_args info pkgPath rest oc (ProviderSet_append pset item) ec
        | None => Panic "unknown item type"
        end
  end.

Definition processNewSet (oc : objectCache) (info : Info) (pkgPath : string)
    (call : CallExprT) (args : option InjectorArgs) (varName : string)
    : result (objectCache * (option ProviderSet * list error)) :=
  (* Assumes that call.Fun is wire.NewSet or wire.Build. *)
  let pset :=
    {| ProviderSet_Pos := Call_Pos call;
       ProviderSet_InjectorArgs := args;
       PkgPath := pkgPath;
       VarName := varName;
       Providers := []; Bindings := []; Values := []; Imports := [];
       providerMap := None; srcMap := None |} in
  let ec := errorCollector_new in
  let* '(oc, pset, ec) := processNewSet_args info pkgPath (Call_Args call) oc pset ec in
  if bool_decide (0 < length (errors ec)) then
    Ok (oc, (None, errors ec))
  else
    let* '(pm, sm, errs) := buildProviderMap (oc_fset oc) (hasher oc) pset in
    let pset := ProviderSet_set_maps pset pm sm in
    if bool_decide (0 < length errs) then
      Ok (oc, (None, errs))
    else
      let* errs := verifyAcyclic (providerMap pset) (hasher oc) in
      if bool_decide (0 < length errs) then
        Ok (oc, (None, errs))
      else
        Ok (oc, (Some pset, [])).

(** [get] converts a Go object into a Wire structure.  It may return a
    [*Provider], an [*IfaceBinding], a [*ProviderSet], or a [*Value]. *)
Definition get (oc : objectCache) (obj : Object)
    : result (objectCache * (option Item * list error)) :=
  let* objPkg := deref (Object_Pkg obj) in
  let ref : objRef := (Package_Path objPkg, Object_Name obj) in
  match objects oc !! ref
        return result (objectCache * (option Item * list error)) with
  | Some ent => Ok (oc, (objCacheEntry_val ent, objCacheEntry_errs ent))
  | None =>
      let notProvider :=
        [errorString (ObjectString obj +:+ " is not a provider or a provider set")] in
      let* '(oc, (val, errs)) :=
        match obj return result (objectCache * (option Item * list error)) with
        | ObjVar v =>
            let* spec := varDecl oc v in
            match spec return result (objectCache * (option Item * list error)) with
            | None => Ok (oc, (None, notProvider))
            | Some spec =>
                if bool_decide (length (Spec_Values spec) = 0) then
                  Ok (oc, (None, notProvider))
                else
                  let i := nameIndex (Names spec) (Object_Name obj) 0 in
                  let pkgPath := Package_Path objPkg in
                  let* pkg := deref (packages oc !! pkgPath) in
                  let* value := index (Spec_Values spec) i in
                  processExpr_rec oc (Pkg_TypesInfo pkg) pkgPath value (Object_Name obj)
            end
        | ObjFunc fn =>
            let* '(p, errs) := processFuncProvider (oc_fset oc) fn in
            (* a nil *Provider, returned with errors, is None *)
            Ok (oc, (ItemProvider <$> p, errs))
        | _ => Ok (oc, (None, notProvider))
        end in
      (* the deferred function *)
      Ok (objectCache_store oc ref {| objCacheEntry_val := val; objCacheEntry_errs := errs |},
          (val, errs))
  end.

(** [processExpr] converts an expression into a Wire structure.  It may
    return a [*Provider], an [*IfaceBinding], a [*ProviderSet], or a
    [*Value]. *)
Definition processExpr_body (oc : objectCache) (info : Info) (pkgPath : string)
    (expr : Node) (varName : string)
    : result (objectCache * (option Item * list error)) :=
  let exprPos := FileSet_Position (oc_fset oc) (Node_Pos expr) in
  let expr := Unparen expr in
  let unknownPattern := [notePosition exprPos (errors_New "unknown pattern")] in
  match qualifiedIdentObject info (Some expr) with
  | Some obj =>
      let* '(oc, (item, errs)) := get oc obj in
      Ok (oc, (item, mapErrors errs (fun err => notePosition exprPos err)))
  | None =>
      match expr with
      | CallExpr fn args =>
          let call := {| Fun := fn; Call_Args := args |} in
          match qualifiedIdentObject info (Some fn) with
          | None => Ok (oc, (None, unknownPattern))
          | Some fnObj =>
              let* fnPkg := deref (Object_Pkg fnObj) in
              if negb (isWireImport (Package_Path fnPkg)) then
                Ok (oc, (None, unknownPattern))
              else if decide (Object_Name fnObj = "NewSet") then
                let* '(oc, (pset, errs)) := processNewSet oc info pkgPath call None varName in
                (* a nil *ProviderSet, returned with errors, is None *)
                Ok (oc, (ItemProviderSet <$> pset, notePositionAll exprPos errs))
              else if decide (Object_Name fnObj = "Bind") then
                match processBind (oc_fset oc) info call with
                | (_, Some err) => Ok (oc, (None, [notePosition exprPos err]))
                | (b, None) => Ok (oc, (ItemIfaceBinding <$> b, []))
                end
              else if decide (Object_Name fnObj = "Value") then
                match processValue (oc_fset oc) info call with
                | (_, Some err) => Ok (oc, (None, [notePosition exprPos err]))
                | (v, None) => Ok (oc, (ItemValue <$> v, []))
                end
              else if decide (Object_Name fnObj = "InterfaceValue") then
                match processInterfaceValue (oc_fset oc) info call with
                | (_, Some err) => Ok (oc, (None, [notePosition exprPos err]))
                | (v, None) => Ok (oc, (ItemValue <$> v, []))
                end
              else
                Ok (oc, (None, unknownPattern))
          end
      | _ =>
          match structArgType info expr with
          | Some tn =>
              let* '(p, errs) := processStructProvider (oc_fset oc) tn in
              if bool_decide (0 < length errs) then
                Ok (oc, (None, notePositionAll exprPos errs))
              else
                Ok (oc, (ItemProvider <$> p, []))
          | None => Ok (oc, (None, unknownPattern))
          end
      end
  end.

End Methods.

(** [oc.processExpr], run with a bound on the depth of the recursion through
    variable declarations and nested [wire.NewSet] calls. *)
Fixpoint processExpr (fuel : nat) (oc : objectCache) (info : Info) (pkgPath : string)
    (expr : Node) (varName : string)
    : result (objectCache * (option Item * list error)) :=
  match fuel with
  | O => OutOfFuel
  | Datatypes.S fuel' => processExpr_body (processExpr fuel') oc info pkgPath expr varName
  end.

End Parse.


(* ================================================================== *)
(** ** Vocabulary of the properties *)
(* ================================================================== *)

(** [contains n m]: the node [m] occurs in the syntax tree [n]. *)
Inductive contains : Node -> Node -> Prop :=
| contains_self n : contains n n
| contains_child n c m : In c (children n) -> contains c m -> contains n m.

Section Vocabulary.
Context {GT : GoTypes} {WE : WireEnv}.

(** Two of the types of a list are identical: the one at index [i] and an
    earlier one at index [j]. *)
Definition duplicateAt (ts : list type) (i j : nat) : Prop :=
  j < i /\ exists a b, ts !! i = Some a /\ ts !! j = Some b /\ Identical a b = true.

Definition hasDuplicate (ts : list type) : Prop :=
  exists i j, duplicateAt ts i j.

(** The type of input [k] of a provider. *)
Definition argType (provider : Provider) (k : nat) : option (option type) :=
  ProviderInput_Type <$> Args provider !! k.

(** The inputs recorded for a list of parameters or fields. *)
Definition inputsOf (vars : list (Var type)) : list ProviderInput :=
  map (fun v => {| ProviderInput_Type := Some (Var_Type v) |}) vars.

(** A channel receive operation [<-x]. *)
Definition isReceive (n : Node) : bool :=
  match n with
  | UnaryExpr _ ARROW _ => true
  | _ => false
  end.

(** A call whose operand has a function type. *)
Definition isFuncCall (info : Info) (n : Node) : bool :=
  match n with
  | CallExpr fn _ =>
      match kind (TypeOf info fn) with
      | KSignature => true
      | _ => false
      end
  | _ => false
  end.

(** The operand of a call is a type, as in a conversion: a function type
    expression or the name of a type, possibly in parentheses. *)
Definition isTypeOperand (info : Info) (fn : Node) : bool :=
  match Unparen fn with
  | FuncType _ _ _ => true
  | e =>
      match qualifiedIdentObject info (Some e) with
      | Some (ObjTypeName _) => true
      | _ => false
      end
  end.

(** A call of a function: the operand is a value, not a type, and its type
    is a function type proper (a signature, not a named type). *)
Definition isFuncValueCall (info : Info) (n : Node) : bool :=
  match n with
  | CallExpr fn _ =>
      match kind (TypeOf info fn) with
      | KSignature => negb (isTypeOperand info fn)
      | _ => false
      end
  | _ => false
  end.

(** A call whose operand's type is a function type or has a function type as
    its underlying type: a call of a function, also through a value of a
    named function type, or a conversion to a function type. *)
Definition isFuncTypedCall (info : Info) (n : Node) : bool :=
  match n with
  | CallExpr fn _ =>
      match kind (TypeOf info fn) with
      | KSignature => true
      | _ =>
          match kind (Underlying (TypeOf info fn)) with
          | KSignature => true
          | _ => false
          end
      end
  | _ => false
  end.

(** An expression of a kind that is not in the list of kinds that
    [processValue] allows. *)
Definition isUnlistedExpr (n : Node) : bool :=
  match n with
  | BadExpr _ | Ellipsis _ _ | FuncLit _ _ => true
  | _ => false
  end.

(** A node that is not an expression: the field lists of struct, function
    and interface type expressions, and statements. *)
Definition isNonExpr (n : Node) : bool :=
  match n with
  | FieldList _ _ | Field _ _ _ _ | BlockStmt _ _ | ExprStmt _ | ReturnStmt _ _ => true
  | _ => false
  end.

(** A node at which the function literal of [processValue] gives up. *)
Definition isRejected (info : Info) (n : Node) : bool :=
  isReceive n || isFuncCall info n || isUnlistedExpr n || isNonExpr n.

(** A literal or an identifier, possibly qualified by a package. *)
Definition isLiteralOrIdent (n : Node) : bool :=
  match n with
  | BasicLit _ _ | Ident _ _ | SelectorExpr (Ident _ _) (Ident _ _) => true
  | _ => false
  end.

(** A composite literal [T{...}] of a named type whose elements are literals
    and identifiers, with or without field names. *)
Definition isSimpleStructLit (n : Node) : bool :=
  match n with
  | CompositeLit (Some t) _ elts =>
      match t with
      | Ident _ _ | SelectorExpr (Ident _ _) (Ident _ _) => true
      | _ => false
      end &&
      forallb (fun e =>
        match e with
        | KeyValueExpr (Ident _ _) v => isLiteralOrIdent v
        | _ => isLiteralOrIdent e
        end) elts
  | _ => false
  end.

(** The outcome of [processValue] for an argument that passes the test of
    complexity. *)
Definition processValue_simple (fset : FileSet) (info : Info) (call : CallExprT)
    (arg0 : Node) : option Value * option error :=
  match kind (Underlying (TypeOf info arg0)) with
  | KInterface _ =>
      (None, Some (notePosition (FileSet_Position fset (Call_Pos call))
                     (errorString ("argument to Value may not be an interface value (found "
                                   +:+ TypeString (TypeOf info arg0) +:+
                                   "); use InterfaceValue instead"))))
  | _ =>
      (Some {| Value_Pos := Node_Pos arg0; Value_Out := TypeOf info arg0;
               Value_expr := arg0; Value_info := info |}, None)
  end.

(** The arguments of a [wire.NewSet] or [wire.Build] call processed one after
    the other: the object cache that is left and the result for each
    argument. *)
Fixpoint argResults
    (processExpr_rec : objectCache -> Info -> string -> Node -> string ->
                       result (objectCache * (option Item * list error)))
    (info : Info) (pkgPath : string) (args : list Node) (oc : objectCache)
    : result (objectCache * list (option Item * list error)) :=
  match args with
  | [] => Ok (oc, [])
  | arg :: rest =>
      let* '(oc, r) := processExpr_rec oc info pkgPath arg EmptyString in
      let* '(oc, rs) := argResults processExpr_rec info pkgPath rest oc in
      Ok (oc, r :: rs)
  end.

(** A result of [oc.get] or [oc.processExpr] is well formed when it holds
    errors or an item. *)
Definition entry_ok (item : option Item) (errs : list error) : Prop :=
  errs = [] -> item <> None.

(** The entries of the object cache are well formed.  This holds of the
    empty cache that [newObjectCache] makes. *)
Definition cache_ok (oc : objectCache) : Prop :=
  forall ref ent, objects oc !! ref = Some ent ->
    entry_ok (objCacheEntry_val ent) (objCacheEntry_errs ent).

(** A function that, like [oc.processExpr], returns well-formed results and
    keeps the object cache well formed. *)
Definition rec_ok
    (rec : objectCache -> Info -> string -> Node -> string ->
           result (objectCache * (option Item * list error))) : Prop :=
  forall oc info pkgPath expr varName oc' item errs,
    cache_ok oc ->
    rec oc info pkgPath expr varName = Ok (oc', (item, errs)) ->
    cache_ok oc' /\ entry_ok item errs.

(** The argument failed: processing it returned errors. *)
Definition failed (r : option Item * list error) : bool :=
  bool_decide (0 < length (snd r)).

End Vocabulary.

(* ================================================================== *)
(** ** The generated injectors of the guestbook sample (wire_gen.go) *)
(* ================================================================== *)

Module Guestbook.

(** The functions that the three injectors call. *)
Inductive call :=
| xrayserver_NewRequestLogger | awsSQLParams | rdsmysql_Open | appHealthChecks
| session_NewSessionWithOptions | xrayserver_NewXRayClient | xrayserver_NewExporter
| trace_AlwaysSample | server_New | awsBucket | paramstore_NewClient | awsMOTDVar
| newApplication
| sdserver_NewRequestLogger | gcp_DefaultTransport | gcp_DefaultCredentials
| gcp_CredentialsTokenSource | gcp_NewHTTPClient | cloudsql_NewCertSource
| gcp_DefaultProjectID | gcpSQLParams | cloudmysql_Open | monitoredresource_Autodetect
| sdserver_NewExporter | gcpBucket | runtimeconfigurator_Dial
| runtimeconfigurator_NewClient | gcpMOTDVar
| dialLocalSQL | localBucket | localRuntimeVar.

#[global] Instance call_eq_dec : EqDecision call.
Proof. solve_decision. Defined.

(** The values that flow through an injector: nil, the parameters, the
    package-level variables [_wire...Value], the first result of a call and
    pointers to struct literals. *)
#[warnings="-register-all"]
Inductive value :=
| nil_value
| param (name : string)
| global (name : string)
| ret (c : call) (args : list value)
| structPtr (type_ : string) (fields : list (string * value)).

(** A non-nil [error]: the error returned by a call. *)
Inductive gerror := errOf (c : call).

(** What can be observed of a run: the calls of functions, and the calls of
    the cleanup functions that they returned. *)
Inductive event :=
| Invoke (c : call)       (* the function is called *)
| Acquire (c : call)      (* the call returns a cleanup function *)
| Teardown (c : call).    (* the cleanup function returned by the call is called *)

Definition trace := list event.

(** A computation appends events to the trace and yields a value or
    panics. *)
Definition M (A : Type) : Type := trace -> trace * result A.

Definition mret {A} (a : A) : M A := fun t => (t, Ok a).

Definition mbind {A B} (m : M A) (k : A -> M B) : M B :=
  fun t =>
    match m t with
    | (t', Ok a) => k a t'
    | (t', Panic msg) => (t', Panic msg)
    | (t', OutOfFuel) => (t', OutOfFuel)
    end.

Notation "'run' x ':=' c1 'in' c2" := (mbind c1 (fun x => c2))
  (at level 10, x name, c1 at level 200, c2 at level 200).
Notation "'run' ' pat ':=' c1 'in' c2" :=
  (mbind c1 (fun x => match x with pat => c2 end))
  (at level 10, pat pattern, c1 at level 200, c2 at level 200).

Definition emit (e : event) : M unit := fun t => ((t ++ [e])%list, Ok ()).

(** A value of type [func()]: nil or a function. *)
Definition func : Type := option (M unit).

(** [f()] *)
Definition invoke (f : func) : M unit :=
  match f with
  | Some body => body
  | None => fun t => (t, Panic "nil pointer dereference")
  end.

(** [err != nil] *)
Definition notNil (err : option gerror) : bool := is_Some_bool err.

Section Injectors.
(** Whether a call of a function that can fail returns a non-nil error. *)
Variable fails : call -> bool.

(** A function with the results [(T)]. *)
Definition call_v (c : call) (args : list value) : M value :=
  run _ := emit (Invoke c) in
  mret (ret c args).

(** A function with the results [(T, error)]. *)
Definition call_ve (c : call) (args : list value) : M (value * option gerror) :=
  run _ := emit (Invoke c) in
  if fails c then mret (nil_value, Some (errOf c))
  else mret (ret c args, None).

(** A function with the results [(T, func())]; the cleanup function it
    returns undoes the call. *)
Definition call_vc (c : call) (args : list value) : M (value * func) :=
  run _ := emit (Invoke c) in
  run _ := emit (Acquire c) in
  mret (ret c args, Some (emit (Teardown c))).

(** A function with the results [(T, func(), error)]. *)
Definition call_vce (c : call) (args : list value)
    : M (value * func * option gerror) :=
  run _ := emit (Invoke c) in
  if fails c then mret (nil_value, None, Some (errOf c))
  else
    run _ := emit (Acquire c) in
    mret (ret c args, Some (emit (Teardown c)), None).

Definition _wireClientValue := global "_wireClientValue".
Definition _wireOptionsValue := global "_wireOptionsValue".
Definition _wireSessionOptionsValue := global "_wireSessionOptionsValue".
Definition _wireDefaultDriverValue := global "_wireDefaultDriverValue".
Definition _wireLoggerValue := global "_wireLoggerValue".
Definition _wireExporterValue := global "_wireExporterValue".

(** [&server.Options{...}] *)
Definition server_Options (requestLogger healthChecks traceExporter
    defaultSamplingPolicy driver : value) : value :=
  structPtr "server.Options"
    [("RequestLogger", requestLogger);
     ("HealthChecks", healthChecks);
     ("TraceExporter", traceExporter);
     ("DefaultSamplingPolicy", defaultSamplingPolicy);
     ("Driver", driver)].

Definition setupAWS (ctx flags : value) : M (value * func * option gerror) :=
  run ncsaLogger := call_v xrayserver_NewRequestLogger [] in
  let client := _wireClientValue in
  let certFetcher := structPtr "rdsmysql.CertFetcher" [("Client", client)] in
  run params := call_v awsSQLParams [flags] in
  let options := _wireOptionsValue in
  run '(db, cleanup, err) := call_vce rdsmysql_Open [ctx; certFetcher; params; options] in
  if notNil err then
    mret (nil_value, None, err)
  else
  run '(v, cleanup2) := call_vc appHealthChecks [db] in
  let sessionOptions := _wireSessionOptionsValue in
  run '(sessionSession, err) := call_ve session_NewSessionWithOptions [sessionOptions] in
  if notNil err then
    run _ := invoke cleanup2 in
    run _ := invoke cleanup in
    mret (nil_value, None, err)
  else
  run xRay := call_v xrayserver_NewXRayClient [sessionSession] in
  run '(exporter, cleanup3, err) := call_vce xrayserver_NewExporter [xRay] in
  if notNil err then
    run _ := invoke cleanup2 in
    run _ := invoke cleanup in
    mret (nil_value, None, err)
  else
  run sampler := call_v trace_AlwaysSample [] in
  let defaultDriver := _wireDefaultDriverValue in
  let serverOptions := server_Options ncsaLogger v exporter sampler defaultDriver in
  run serverServer := call_v server_New [serverOptions] in
  run '(bucket, err) := call_ve awsBucket [ctx; sessionSession; flags] in
  if notNil err then
    run _ := invoke cleanup3 in
    run _ := invoke cleanup2 in
    run _ := invoke cleanup in
    mret (nil_value, None, err)
  else
  run paramstoreClient := call_v paramstore_NewClient [sessionSession] in
  run '(variable, err) := call_ve awsMOTDVar [ctx; paramstoreClient; flags] in
  if notNil err then
    run _ := invoke cleanup3 in
    run _ := invoke cleanup2 in
    run _ := invoke cleanup in
    mret (nil_value, None, err)
  else
  run mainApplication := call_v newApplication [serverServer; db; bucket; variable] in
  mret (mainApplication,
        Some (run _ := invoke cleanup3 in
              run _ := invoke cleanup2 in
              invoke cleanup),
        None).

Definition setupGCP (ctx flags : value) : M (value * func * option gerror) :=
  run stackdriverLogger := call_v sdserver_NewRequestLogger [] in
  run roundTripper := call_v gcp_DefaultTransport [] in
  run '(credentials, err) := call_ve gcp_DefaultCredentials [ctx] in
  if notNil err then
    mret (nil_value, None, err)
  else
  run tokenSource := call_v gcp_CredentialsTokenSource [credentials] in
  run '(httpClient, err) := call_ve gcp_NewHTTPClient [roundTripper; tokenSource] in
  if notNil err then
    mret (nil_value, None, err)
  else
  run remoteCertSource := call_v cloudsql_NewCertSource [httpClient] in
  run '(projectID, err) := call_ve gcp_DefaultProjectID [credentials] in
  if notNil err then
    mret (nil_value, None, err)
  else
  run params := call_v gcpSQLParams [projectID; flags] in
  run '(db, err) := call_ve cloudmysql_Open [ctx; remoteCertSource; params] in
  if notNil err then
    mret (nil_value, None, err)
  else
  run '(v, cleanup) := call_vc appHealthChecks [db] in
  run monitoredresourceInterface := call_v monitoredresource_Autodetect [] in
  run '(exporter, err) :=
    call_ve sdserver_NewExporter [projectID; tokenSource; monitoredresourceInterface] in
  if notNil err then
    run _ := invoke cleanup in
    mret (nil_value, None, err)
  else
  run sampler := call_v trace_AlwaysSample [] in
  let defaultDriver := _wireDefaultDriverValue in
  let options := server_Options stackdriverLogger v exporter sampler defaultDriver in
  run serverServer := call_v server_New [options] in
  run '(bucket, err) := call_ve gcpBucket [ctx; flags; httpClient] in
  if notNil err then
    run _ := invoke cleanup in
    mret (nil_value, None, err)
  else
  run '(runtimeConfigManagerClient, cleanup2, err) :=
    call_vce runtimeconfigurator_Dial [ctx; tokenSource] in
  if notNil err then
    run _ := invoke cleanup in
    mret (nil_value, None, err)
  else
  run client := call_v runtimeconfigurator_NewClient [runtimeConfigManagerClient] in
  run '(variable, cleanup3, err) := call_vce gcpMOTDVar [ctx; client; projectID; flags] in
  if notNil err then
    run _ := invoke cleanup2 in
    run _ := invoke cleanup in
    mret (nil_value, None, err)
  else
  run mainApplication := call_v newApplication [serverServer; db; bucket; variable] in
  mret (mainApplication,
        Some (run _ := invoke cleanup3 in
              run _ := invoke cleanup2 in
              invoke cleanup),
        None).

Definition setupLocal (ctx flags : value) : M (value * func * option gerror) :=
  let logger := _wireLoggerValue in
  run '(db, err) := call_ve dialLocalSQL [flags] in
  if notNil err then
    mret (nil_value, None, err)
  else
  run '(v, cleanup) := call_vc appHealthChecks [db] in
  let exporter := _wireExporterValue in
  run sampler := call_v trace_AlwaysSample [] in
  let defaultDriver := _wireDefaultDriverValue in
  let options := server_Options logger v exporter sampler defaultDriver in
  run serverServer := call_v server_New [options] in
  run '(bucket, err) := call_ve localBucket [flags] in
  if notNil err then
    run _ := invoke cleanup in
    mret (nil_value, None, err)
  else
  run '(variable, cleanup2, err) := call_vce localRuntimeVar [flags] in
  if notNil err then
    run _ := invoke cleanup in
    mret (nil_value, None, err)
  else
  run mainApplication := call_v newApplication [serverServer; db; bucket; variable] in
  mret (mainApplication,
        Some (run _ := invoke cleanup2 in
              invoke cleanup),
        None).

End Injectors.

(* ------------------------------------------------------------------ *)
(** *** The resource discipline of a construction plan *)

(** A step of a construction plan: the function it calls, and whether the
    function returns a teardown callback and whether it can fail. *)
Record step := {
  step_fn : call;
  has_cleanup : bool;
  has_err : bool
}.

Definition step_v c := {| step_fn := c; has_cleanup := false; has_err := false |}.
Definition step_ve c := {| step_fn := c; has_cleanup := false; has_err := true |}.
Definition step_vc c := {| step_fn := c; has_cleanup := true; has_err := false |}.
Definition step_vce c := {| step_fn := c; has_cleanup := true; has_err := true |}.

(** The steps of the three injectors, in the order of the calls. *)
Definition plan_setupAWS : list step :=
  [ step_v xrayserver_NewRequestLogger; step_v awsSQLParams; step_vce rdsmysql_Open;
    step_vc appHealthChecks; step_ve session_NewSessionWithOptions;
    step_v xrayserver_NewXRayClient; step_vce xrayserver_NewExporter;
    step_v trace_AlwaysSample; step_v server_New; step_ve awsBucket;
    step_v paramstore_NewClient; step_ve awsMOTDVar; step_v newApplication ].

Definition plan_setupGCP : list step :=
  [ step_v sdserver_NewRequestLogger; step_v gcp_DefaultTransport;
    step_ve gcp_DefaultCredentials; step_v gcp_CredentialsTokenSource;
    step_ve gcp_NewHTTPClient; step_v cloudsql_NewCertSource;
    step_ve gcp_DefaultProjectID; step_v gcpSQLParams; step_ve cloudmysql_Open;
    step_vc appHealthChecks; step_v monitoredresource_Autodetect;
    step_ve sdserver_NewExporter; step_v trace_AlwaysSample; step_v server_New;
    step_ve gcpBucket; step_vce runtimeconfigurator_Dial;
    step_v runtimeconfigurator_NewClient; step_vce gcpMOTDVar;
    step_v newApplication ].

Definition plan_setupLocal : list step :=
  [ step_ve dialLocalSQL; step_vc appHealthChecks; step_v trace_AlwaysSample;
    step_v server_New; step_ve localBucket; step_vce localRuntimeVar;
    step_v newApplication ].

(** The steps that complete before the first step that fails, and that
    failing step if there is one. *)
Fixpoint completed (fails : call -> bool) (plan : list step) : list step * option step :=
  match plan with
  | [] => ([], None)
  | s :: rest =>
      if has_err s && fails (step_fn s) then ([], Some s)
      else let '(done, failed) := completed fails rest in (s :: done, failed)
  end.

(** The teardown callbacks registered by a list of completed steps, in the
    order of acquisition. *)
Definition registered (done : list step) : list call :=
  map step_fn (List.filter has_cleanup done).

(** What a completed step adds to the trace. *)
Definition step_events (s : step) : list event :=
  Invoke (step_fn s) :: (if has_cleanup s then [Acquire (step_fn s)] else []).

(** The resource discipline, for an injector that runs the steps of [plan]:
    - if a step fails, the run consists of the completed steps and the call
      of the failing one, followed by the teardowns registered by the
      completed steps, in the reverse order of acquisition, and the injector
      returns the error of the failing step and no cleanup function;
    - otherwise the run consists of the steps of the plan and no teardown,
      and the cleanup function that the injector returns runs all registered
      teardowns in the reverse order of acquisition. *)
Definition teardown_discipline (plan : list step)
    (injector : (call -> bool) -> M (value * func * option gerror)) : Prop :=
  forall (fails : call -> bool) (t0 : trace),
    match completed fails plan with
    | (done, Some s) =>
        injector fails t0 =
          ((t0 ++ concat (map step_events done) ++ [Invoke (step_fn s)]
               ++ map Teardown (rev (registered done)))%list,
           Ok (nil_value, None, Some (errOf (step_fn s))))
    | (_, None) =>
        exists app aggregate,
          injector fails t0 =
            ((t0 ++ concat (map step_events plan))%list,
             Ok (app, Some aggregate, None)) /\
          forall t, aggregate t =
            ((t ++ map Teardown (rev (registered plan)))%list, Ok ())
    end.

End Guestbook.


(* ================================================================== *)
(** ** A small universe of Go types, to run the definitions *)
(* ================================================================== *)

Module Toy.

(** The types of the following declarations:
<<
    type Reader interface { Read() }
    type File   struct { Name string; Size int }   // with a method Read()
    type Buffer struct { Data string }             // without methods
    type Pair   struct { A int; B int }
>>
    together with some predeclared and composite types. *)
Inductive ty :=
| Int | Str | ErrorT | ErrorI
| Func0                  (* func() *)
| FuncIntInt             (* func(int) int *)
| Reader | ReaderI       (* the named type and its underlying interface *)
| File | FileS           (* the named type and its underlying struct *)
| Buffer | BufferS
| Pair | PairS
| Ptr (elem : ty)
| Chan (elem : ty).

#[global] Instance ty_eq_dec : EqDecision ty.
Proof. solve_decision. Defined.

Definition mkVar (name : string) (t : ty) : Var ty :=
  {| Var_Pkg := None; Var_Name := name; Var_Pos := 0; Var_Type := t |}.

(** Method sets are lists of method names. *)
Definition methods (t : ty) : list string :=
  match t with
  | ErrorT | ErrorI => ["Error"]
  | Reader | ReaderI | File => ["Read"]
  | Ptr File => ["Read"]
  | _ => []
  end.

Definition toy_kind (t : ty) : TypeKind ty (list string) :=
  match t with
  | Int | Str => KOther
  | ErrorT | Reader | File | Buffer | Pair => KNamed
  | ErrorI | ReaderI => KInterface (methods t)
  | Func0 | FuncIntInt => KSignature
  | FileS => KStruct [mkVar "Name" Str; mkVar "Size" Int]
  | BufferS => KStruct [mkVar "Data" Str]
  | PairS => KStruct [mkVar "A" Int; mkVar "B" Int]
  | Ptr elem => KPointer elem
  | Chan _ => KOther
  end.

Definition toy_Underlying (t : ty) : ty :=
  match t with
  | ErrorT => ErrorI
  | Reader => ReaderI
  | File => FileS
  | Buffer => BufferS
  | Pair => PairS
  | _ => t
  end.

Fixpoint toy_TypeString (t : ty) : string :=
  match t with
  | Int => "int" | Str => "string" | ErrorT => "error"
  | ErrorI => "interface{Error() string}"
  | Func0 => "func()" | FuncIntInt => "func(int) int"
  | Reader => "Reader" | ReaderI => "interface{Read()}"
  | File => "File" | FileS => "struct{Name string; Size int}"
  | Buffer => "Buffer" | BufferS => "struct{Data string}"
  | Pair => "Pair" | PairS => "struct{A int; B int}"
  | Ptr elem => "*" +:+ toy_TypeString elem
  | Chan elem => "chan " +:+ toy_TypeString elem
  end.

#[global] Instance toy_types : GoTypes := {|
  type := ty;
  iface := list string;
  Hasher := unit;
  kind := toy_kind;
  Identical := fun a b => bool_decide (a = b);
  Underlying := toy_Underlying;
  NewPointer := Ptr;
  Implements := fun t ms => forallb (fun m => bool_decide (m ∈ methods t)) ms;
  TypeString := toy_TypeString
|}.

(** A merged index with one entry per output of a provider and per value;
    two sources for one type are an error. *)
Definition toy_buildProviderMap (fset : FileSet) (h : unit) (pset : ProviderSet)
    : result (option (TypeMap ProvidedType) * option (TypeMap providerSetSrc) * list error) :=
  let fromProviders :=
    flat_map (fun p : Provider =>
      flat_map (fun o : option ty =>
        match o with
        | Some t => [(t, {| ProvidedType_t := Some t; ProvidedType_p := Some p;
                            ProvidedType_v := None; ProvidedType_a := None |})]
        | None => []
        end) (Out p)) (Providers pset) in
  let fromValues :=
    map (fun v : Value =>
      (Value_Out v, {| ProvidedType_t := Some (Value_Out v); ProvidedType_p := None;
                       ProvidedType_v := Some v; ProvidedType_a := None |}))
      (Values pset) in
  let entries := (fromProviders ++ fromValues)%list in
  if bool_decide (NoDup (map fst entries)) then Ok (Some entries, Some [], [])
  else Ok (None, None, [errorString "multiple bindings"]).

#[global] Instance toy_env : WireEnv := {|
  ObjectString := fun obj => Object_Name obj;
  errorType := ErrorT;
  cleanupType := Func0;
  notePosition := fun p e => match e with wireErr _ _ => e | _ => wireErr e p end;
  wireErr_Error := fun e p => Filename p +:+ ": " +:+
                     match e with errorString s => s | wireErr _ _ => EmptyString end;
  buildProviderMap := toy_buildProviderMap;
  verifyAcyclic := fun _ _ => Ok []
|}.

(** A file set in which position [p] is column [p] of line 1 of [wire.go]. *)
Definition fset : FileSet :=
  {| FileSet_Position := fun p =>
       {| Filename := "wire.go"; Offset := p; Line := 1; Column := p |} |}.

Definition sig (params results : list ty) : Signature ty :=
  {| Params := map (mkVar "_") params; Results := map (mkVar "_") results |}.

Definition func (name : string) (pos : Pos) (params results : list ty) : Func :=
  {| Func_Pkg := Some {| Package_Path := "example.com/app"; Package_Name := "app" |};
     Func_Name := name; Func_Pos := pos; Func_Type := sig params results |}.

Definition typeName (name : string) (pos : Pos) (t : ty) : TypeName :=
  {| TypeName_Pkg := Some {| Package_Path := "example.com/app"; Package_Name := "app" |};
     TypeName_Name := name; TypeName_Pos := pos; TypeName_Type := t |}.

(** A package [example.com/app] that imports Wire:
<<
    func NewFile(name string, size int) File
    func NewPair(a int, b int) Pair
    func NewNothing(a int, b int)
    func OpenFile(name string) (File, func(), error)
    var ch chan Reader
    var rd Reader
    var file File
    var Set = wire.NewSet(NewFile, wire.Value(<-ch), NewPair, File{Name: `a`, Size: 1})
>> *)
Definition appPkg : Package :=
  {| Package_Path := "example.com/app"; Package_Name := "app" |}.
Definition wirePkg : Package :=
  {| Package_Path := "github.com/google/go-cloud/wire"; Package_Name := "wire" |}.

Definition NewFile : Func := func "NewFile" 100 [Str; Int] [File].
Definition NewPair : Func := func "NewPair" 200 [Int; Int] [Pair].
Definition NewNothing : Func := func "NewNothing" 300 [Int; Int] [].
Definition OpenFile : Func := func "OpenFile" 400 [Str] [File; Func0; ErrorT].

Definition wireFunc (name : string) : Object :=
  ObjFunc {| Func_Pkg := Some wirePkg; Func_Name := name; Func_Pos := 1;
             Func_Type := sig [] [Int] |}.

Definition var (name : string) (pos : Pos) (t : ty) : Object :=
  ObjVar {| Var_Pkg := Some appPkg; Var_Name := name; Var_Pos := pos; Var_Type := t |}.

(** The objects that the identifiers of the package denote. *)
Definition universe : list (string * Object) :=
  [ ("wire", ObjPkgName (Some appPkg) "wire" 5);
    ("NewSet", wireFunc "NewSet"); ("Build", wireFunc "Build");
    ("Bind", wireFunc "Bind"); ("Value", wireFunc "Value");
    ("InterfaceValue", wireFunc "InterfaceValue");
    ("NewFile", ObjFunc NewFile); ("NewPair", ObjFunc NewPair);
    ("NewNothing", ObjFunc NewNothing); ("OpenFile", ObjFunc OpenFile);
    ("File", ObjTypeName (typeName "File" 30 File));
    ("Pair", ObjTypeName (typeName "Pair" 40 Pair));
    ("Buffer", ObjTypeName (typeName "Buffer" 50 Buffer));
    ("Reader", ObjTypeName (typeName "Reader" 60 Reader));
    ("ch", var "ch" 70 (Chan Reader)); ("rd", var "rd" 80 Reader);
    ("file", var "file" 90 File); ("Set", var "Set" 500 Int);
    ("new", ObjOther None "new" 0); ("len", ObjOther None "len" 0) ].

Definition objectOfName (name : string) : option Object :=
  snd <$> List.find (fun e => bool_decide (fst e = name)) universe.

Definition typeOfObject (obj : Object) : ty :=
  match obj with
  | ObjVar v => Var_Type v
  | ObjFunc _ => FuncIntInt
  | ObjTypeName tn => TypeName_Type tn
  | ObjPkgName _ _ _ => Int
  | ObjOther _ _ _ => FuncIntInt
  end.

(** The types of the expressions of the package. *)
Fixpoint typeOf (n : Node) : ty :=
  match n with
  | Ident _ name =>
      match objectOfName name with
      | Some obj => typeOfObject obj
      | None => Int
      end
  | BasicLit _ _ => Str
  | ParenExpr _ x => typeOf x
  | SelectorExpr _ sel => typeOf sel
  | UnaryExpr _ ARROW x =>
      match typeOf x with
      | Chan elem => elem
      | t => t
      end
  | UnaryExpr _ AND x => Ptr (typeOf x)
  | CompositeLit (Some t) _ _ => typeOf t
  | CallExpr (Ident _ name) [t] =>
      if decide (name = "new") then Ptr (typeOf t) else Int
  | FuncLit _ _ => Func0
  | _ => Int
  end.

Definition info : Info :=
  {| TypeOf := typeOf;
     ObjectOf := fun id =>
       match id with
       | Ident _ name => objectOfName name
       | _ => None
       end |}.

(** [wire.name(args...)] at position [pos]. *)
Definition wireCall (pos : Pos) (name : string) (args : list Node) : CallExprT :=
  {| Fun := SelectorExpr (Ident pos "wire") (Ident (pos + 5) name);
     Call_Args := args |}.

Definition callNode (call : CallExprT) : Node := CallExpr (Fun call) (Call_Args call).

(** [<-ch] *)
Definition receive : Node := UnaryExpr 620 ARROW (Ident 622 "ch").

(** [func() {}] *)
Definition funcLit : Node :=
  FuncLit (FuncType 700 (Some (FieldList 704 [])) None) (BlockStmt 707 []).

(** [File{Name: `a`, Size: 1}] *)
Definition fileLit : Node :=
  CompositeLit (Some (Ident 640 "File")) 644
    [KeyValueExpr (Ident 645 "Name") (BasicLit 651 "`a`");
     KeyValueExpr (Ident 656 "Size") (BasicLit 662 "1")].

(** [wire.NewSet(NewFile, wire.Value(<-ch), NewPair, File{Name: `a`, Size: 1})] *)
Definition newSetCall : CallExprT :=
  wireCall 510 "NewSet"
    [Ident 600 "NewFile";
     callNode (wireCall 610 "Value" [receive]);
     Ident 630 "NewPair";
     fileLit].

Definition app : PackageT :=
  {| Pkg_PkgPath := "example.com/app";
     Pkg_TypesInfo := info;
     Pkg_enclosingSpec := fun pos =>
       if decide (pos = 500)%Z
       then Some {| Names := [{| NamePos := 500; Ident_Name := "Set" |}];
                    Spec_Values := [callNode newSetCall] |}
       else None |}.

(** The object cache that [newObjectCache] makes for the package. *)
Definition oc : objectCache :=
  {| oc_fset := fset;
     packages := {[ "example.com/app" := app ]};
     objects := ∅;
     hasher := () |}.

(** [wire.Bind(new(Reader), file)] *)
Definition bindCall : CallExprT :=
  wireCall 800 "Bind" [CallExpr (Ident 810 "new") [Ident 814 "Reader"]; Ident 823 "file"].

(** A provider set whose merged index has the single key [File], provided by
    an argument of the injector. *)
Definition fileSet : ProviderSet :=
  {| ProviderSet_Pos := 510; PkgPath := "example.com/app"; VarName := "Set";
     Providers := []; Bindings := []; Values := []; Imports := [];
     ProviderSet_InjectorArgs := None;
     providerMap :=
       Some [(File, {| ProvidedType_t := Some File; ProvidedType_p := None;
                       ProvidedType_v := None;
                       ProvidedType_a := Some {| InjectorArg_Args := None; Index := 0 |} |})];
     srcMap := None |}.

End Toy.


(* ================================================================== *)
(** ** Injector templates and the packages of a load *)
(* ================================================================== *)

(** Statements ([ast.Stmt]) as [findInjectorBuild] tells them apart:
    expression statements, empty statements, return statements, and all the
    others. *)
Inductive Stmt :=
| StmtExpr (x : Node)
| StmtEmpty (semicolon : Pos)
| StmtReturn (return_ : Pos) (results : list Node)
| StmtOther (pos : Pos).

(** [*ast.FuncDecl]: a function declaration.  [FuncDecl_Body] is nil for a
    declaration without a body, and otherwise the list of the statements of
    the body ([fn.Body.List]). *)
Record FuncDecl := {
  FuncDecl_Name : IdentT;
  FuncDecl_Body : option (list Stmt)
}.

Section InjectorTemplates.
Context {GT : GoTypes}.

(** [obj == types.Universe.Lookup("panic")].  The built-in functions are
    objects of the universe: they belong to no package, and the universe
    holds one object of each name. *)
Definition isUniversePanic (obj : option Object) : bool :=
  match obj with
  | Some (ObjOther None name _) => bool_decide (name = "panic")
  | _ => false
  end.

(** The loop [for _, stmt := range fn.Body.List] of [findInjectorBuild].  It
    leaves the function with a result ([inl]) or ends with the values of the
    variables [invalid] and [wireBuildCall] ([inr]). *)
Fixpoint findInjectorBuild_stmts (info : Info) (stmts : list Stmt)
    (numStatements : nat) (invalid : bool) (wireBuildCall : option CallExprT)
    : (option CallExprT * option error) + (bool * option CallExprT) :=
  match stmts with
  | [] => inr (invalid, wireBuildCall)
  | stmt :: rest =>
      match stmt with
      | StmtExpr x =>
          let numStatements := Datatypes.S numStatements in
          let invalid := if decide (1 < numStatements) then true else invalid in
          let wireBuildCall :=
            match x with
            | CallExpr fn args =>
                let call :=
                  if isUniversePanic (qualifiedIdentObject info (Some fn)) then
                    match args with
                    | [CallExpr fn' args'] => Some {| Fun := fn'; Call_Args := args' |}
                    | _ => None
                    end
                  else Some {| Fun := fn; Call_Args := args |} in
                match call with
                | Some call =>
                    match qualifiedIdentObject info (Some (Fun call)) with
                    | Some buildObj =>
                        match Object_Pkg buildObj with
                        | Some buildPkg =>
                            if negb (isWireImport (Package_Path buildPkg)) ||
                               negb (bool_decide (Object_Name buildObj = "Build"))
                            then wireBuildCall
                            else Some call
                        | None => wireBuildCall
                        end
                    | None => wireBuildCall
                    end
                | None => wireBuildCall
                end
            | _ => wireBuildCall
            end in
          findInjectorBuild_stmts info rest numStatements invalid wireBuildCall
      | StmtEmpty _ =>
          (* Do nothing. *)
          findInjectorBuild_stmts info rest numStatements invalid wireBuildCall
      | StmtReturn _ _ =>
          (* Allow the function to end in a return. *)
          if decide (numStatements = 0) then inl (None, None)
          else findInjectorBuild_stmts info rest numStatements invalid wireBuildCall
      | StmtOther _ =>
          findInjectorBuild_stmts info rest numStatements true wireBuildCall
      end
  end.

(** [findInjectorBuild] returns the [wire.Build] call if [fn] is an injector
    template.  It returns nil if the function is not an injector template. *)
Definition findInjectorBuild (info : Info) (fn : FuncDecl)
    : option CallExprT * option error :=
  match FuncDecl_Body fn with
  | None => (None, None)
  | Some stmts =>
      match findInjectorBuild_stmts info stmts 0 false None with
      | inl ret => ret
      | inr (invalid, wireBuildCall) =>
          match wireBuildCall with
          | None => (None, None)
          | Some call =>
              if invalid then
                (None, Some (errors_New "a call to wire.Build indicates that this function is an injector, but injectors must consist of only the wire.Build call and an optional return"))
              else (Some call, None)
          end
      end
  end.

(** A [*packages.Package] of a load together with the packages it imports.
    [parse.go] ranges over the map [p.Imports]; the list gives its entries in
    the order of that iteration. *)
#[warnings="-register-all"]
Inductive LoadedPackage := {
  LP_Package : PackageT;
  LP_Fset : FileSet;
  LP_Imports : list LoadedPackage
}.

(** The loop [for len(stk) > 0] of [newObjectCache], a depth-first search of
    the imports with an explicit stack; [pkgs] is [oc.packages].  The loop is
    run with a bound on the number of iterations. *)
Fixpoint newObjectCache_loop (fuel : nat) (stk : list LoadedPackage)
    (pkgs : gmap string PackageT) : result (gmap string PackageT) :=
  match fuel with
  | O => OutOfFuel
  | Datatypes.S fuel' =>
      match last stk with
      | None => Ok pkgs
      | Some p =>
          let stk := take (length stk - 1) stk in
          if is_Some_bool (pkgs !! Pkg_PkgPath (LP_Package p)) then
            newObjectCache_loop fuel' stk pkgs
          else
            let pkgs := <[Pkg_PkgPath (LP_Package p) := LP_Package p]> pkgs in
            let stk := fold_left (fun stk imp => stk ++ [imp])%list (LP_Imports p) stk in
            newObjectCache_loop fuel' stk pkgs
      end
  end.

(** [newObjectCache]; [MakeHasher] is the value of [typeutil.MakeHasher()]. *)
Definition newObjectCache (MakeHasher : Hasher) (fuel : nat) (pkgs : list LoadedPackage)
    : result objectCache :=
  match pkgs with
  | [] => Panic "object cache must have packages to draw from"
  | p0 :: _ =>
      let* pkgMap := newObjectCache_loop fuel pkgs ∅ in
      Ok {| oc_fset := LP_Fset p0;
            packages := pkgMap;
            objects := ∅;
            hasher := MakeHasher |}
  end.

End InjectorTemplates.

(* ------------------------------------------------------------------ *)
(** *** Vocabulary of the properties of injector templates and loads *)

Section InjectorVocabulary.
Context {GT : GoTypes}.

Definition isEmptyStmt (s : Stmt) : bool :=
  match s with StmtEmpty _ => true | _ => false end.

Definition isReturnStmt (s : Stmt) : bool :=
  match s with StmtReturn _ _ => true | _ => false end.

Definition isExprStmt (s : Stmt) : bool :=
  match s with StmtExpr _ => true | _ => false end.

Definition isOtherStmt (s : Stmt) : bool :=
  match s with StmtOther _ => true | _ => false end.

(** Among the expression statements and the return statements of a list,
    the first is a return statement. *)
Fixpoint returnsBeforeExpr (stmts : list Stmt) : bool :=
  match stmts with
  | [] => false
  | StmtReturn _ _ :: _ => true
  | StmtExpr _ :: _ => false
  | _ :: rest => returnsBeforeExpr rest
  end.

(** The expression denotes the function [Build] of package [wire]. *)
Definition isWireBuild (info : Info) (fn : Node) : bool :=
  match qualifiedIdentObject info (Some fn) with
  | Some obj =>
      match Object_Pkg obj with
      | Some pkg => isWireImport (Package_Path pkg) && bool_decide (Object_Name obj = "Build")
      | None => false
      end
  | None => false
  end.

(** The expression [x] is the call [call] of [wire.Build], or the call
    [panic(call)] of the built-in function [panic] with that call as its
    only argument. *)
Definition buildStmt (info : Info) (x : Node) (call : CallExprT) : Prop :=
  isWireBuild info (Fun call) = true /\
  (x = CallExpr (Fun call) (Call_Args call) \/
   exists p, isUniversePanic (qualifiedIdentObject info (Some p)) = true /\
             x = CallExpr p [CallExpr (Fun call) (Call_Args call)]).

(** The [wire.Build] call of an expression statement, if it is one. *)
Definition stmtBuild (info : Info) (x : Node) : option CallExprT :=
  match x with
  | CallExpr fn args =>
      if isUniversePanic (qualifiedIdentObject info (Some fn)) then
        match args with
        | [CallExpr fn' args'] =>
            if isWireBuild info fn' then Some {| Fun := fn'; Call_Args := args' |}
            else None
        | _ => None
        end
      else if isWireBuild info fn then Some {| Fun := fn; Call_Args := args |}
      else None
  | _ => None
  end.

(** The [wire.Build] call of the last expression statement that has one. *)
Definition lastBuild (info : Info) (stmts : list Stmt) (w : option CallExprT)
    : option CallExprT :=
  fold_left (fun w s =>
    match s with
    | StmtExpr x => match stmtBuild info x with Some c => Some c | None => w end
    | _ => w
    end) stmts w.

(** The package [q] is [p] or one of the packages that [p] imports, directly
    or not. *)
Inductive reaches : LoadedPackage -> LoadedPackage -> Prop :=
| reaches_self p : reaches p p
| reaches_import p q r : In q (LP_Imports p) -> reaches q r -> reaches p r.

(** The number of packages of a tree of imports, and of a list of them. *)
Fixpoint LP_size (p : LoadedPackage) : nat :=
  match p with
  | Build_LoadedPackage _ _ imports =>
      Datatypes.S ((fix sizes (l : list LoadedPackage) : nat :=
                      match l with
                      | [] => 0
                      | q :: l' => LP_size q + sizes l'
                      end) imports)
  end.

Definition forest_size (l : list LoadedPackage) : nat :=
  list_sum (map LP_size l).

(** [go/packages] guarantees that a load holds one package for an import
    path: two packages that the given ones reach and that have the same path
    are the same package. *)
Definition uniquePaths (pkgs : list LoadedPackage) : Prop :=
  forall r1 r2 p1 p2, In r1 pkgs -> In r2 pkgs -> reaches r1 p1 -> reaches r2 p2 ->
    Pkg_PkgPath (LP_Package p1) = Pkg_PkgPath (LP_Package p2) -> p1 = p2.

(** What the depth-first search of [newObjectCache] has established when the
    stack is [stk] and the packages found are [m]; [visited] lists the
    packages that were taken from the stack and stored. *)
Definition search_inv (pkgs stk visited : list LoadedPackage)
    (m : gmap string PackageT) : Prop :=
  (forall lp, In lp stk -> exists r, In r pkgs /\ reaches r lp) /\
  (forall r, In r pkgs -> In r stk \/ is_Some (m !! Pkg_PkgPath (LP_Package r))) /\
  (forall lp, In lp visited ->
     m !! Pkg_PkgPath (LP_Package lp) = Some (LP_Package lp) /\
     (exists r, In r pkgs /\ reaches r lp) /\
     forall imp, In imp (LP_Imports lp) ->
       In imp stk \/ is_Some (m !! Pkg_PkgPath (LP_Package imp))) /\
  (forall path q, m !! path = Some q ->
     exists lp, In lp visited /\ q = LP_Package lp /\ Pkg_PkgPath q = path).

End InjectorVocabulary.

Section CacheVocabulary.
Context {GT : GoTypes}.

(** The object cache [oc'] extends [oc]: it has the same file set, packages
    and hasher, and an entry for every object that has one in [oc]. *)
Definition cache_extends (oc oc' : objectCache) : Prop :=
  oc_fset oc' = oc_fset oc /\
  packages oc' = packages oc /\
  hasher oc' = hasher oc /\
  forall ref, is_Some (objects oc !! ref) -> is_Some (objects oc' !! ref).

(** A function that, like [oc.processExpr], only extends the object
    cache. *)
Definition rec_extends
    (rec : objectCache -> Info -> string -> Node -> string ->
           result (objectCache * (option Item * list error))) : Prop :=
  forall oc info pkgPath expr varName oc' r,
    rec oc info pkgPath expr varName = Ok (oc', r) -> cache_extends oc oc'.

(** A result of [oc.get] or [oc.processExpr] that holds errors holds no
    provider, provider set, binding or value: its item is [None], which
    stands for an [interface{}] that is nil or holds a nil pointer. *)
Definition entry_exclusive (item : option Item) (errs : list error) : Prop :=
  errs <> [] -> item = None.

Definition cache_exclusive (oc : objectCache) : Prop :=
  forall ref ent, objects oc !! ref = Some ent ->
    entry_exclusive (objCacheEntry_val ent) (objCacheEntry_errs ent).

(** A function that, like [oc.processExpr], returns no item together with
    errors and keeps the object cache so. *)
Definition rec_exclusive
    (rec : objectCache -> Info -> string -> Node -> string ->
           result (objectCache * (option Item * list error))) : Prop :=
  forall oc info pkgPath expr varName oc' item errs,
    cache_exclusive oc ->
    rec oc info pkgPath expr varName = Ok (oc', (item, errs)) ->
    cache_exclusive oc' /\ entry_exclusive item errs.

(** Two outcomes of [oc.processExpr] that differ at most in their errors, of
    which there are as many. *)
Definition same_but_errors
    (r1 r2 : result (objectCache * (option Item * list error))) : Prop :=
  match r1, r2 with
  | Ok (oc1, (i1, errs1)), Ok (oc2, (i2, errs2)) =>
      oc1 = oc2 /\ i1 = i2 /\ length errs1 = length errs2
  | Panic m1, Panic m2 => m1 = m2
  | OutOfFuel, OutOfFuel => True
  | _, _ => False
  end.

(** The provider, provider set, binding or value that an item holds. *)
Definition Item_Provider (i : Item) : option Provider :=
  match i with ItemProvider p => Some p | _ => None end.

Definition Item_ProviderSet (i : Item) : option ProviderSet :=
  match i with ItemProviderSet s => Some s | _ => None end.

Definition Item_IfaceBinding (i : Item) : option IfaceBinding :=
  match i with ItemIfaceBinding b => Some b | _ => None end.

Definition Item_Value (i : Item) : option Value :=
  match i with ItemValue v => Some v | _ => None end.

End CacheVocabulary.

(** The functions of a plan up to and including the first that can fail and
    does, or all of them when there is none. *)
Fixpoint calls_until_failure (fails : Guestbook.call -> bool)
    (plan : list Guestbook.step) : list Guestbook.call :=
  match plan with
  | [] => []
  | s :: rest =>
      Guestbook.step_fn s ::
        (if Guestbook.has_err s && fails (Guestbook.step_fn s) then []
         else calls_until_failure fails rest)
  end.

(** The functions that are called in a run of an injector of the guestbook
    sample, in the order of the calls. *)
Definition invoked (t : Guestbook.trace) : list Guestbook.call :=
  omap (fun e => match e with Guestbook.Invoke c => Some c | _ => None end) t.

(* ------------------------------------------------------------------ *)
(** *** More of the package [example.com/app] *)

Module ToyLoad.
Import Toy.

(** The identifiers of the package, and the built-in function [panic]. *)
Definition infoWithPanic : Info :=
  {| TypeOf := typeOf;
     ObjectOf := fun id =>
       match id with
       | Ident _ name =>
           if decide (name = "panic") then Some (ObjOther None "panic" 0)
           else objectOfName name
       | _ => None
       end |}.

(** [wire.Build(NewFile)] *)
Definition buildCall : CallExprT := wireCall 910 "Build" [Ident 921 "NewFile"].

(** [func initFile() File { panic(wire.Build(NewFile)) }] *)
Definition initFile : FuncDecl :=
  {| FuncDecl_Name := {| NamePos := 900; Ident_Name := "initFile" |};
     FuncDecl_Body := Some [StmtExpr (CallExpr (Ident 905 "panic") [callNode buildCall])] |}.

(** [func initFile2() File { wire.Build(NewFile); return File{} }] *)
Definition initFile2 : FuncDecl :=
  {| FuncDecl_Name := {| NamePos := 930; Ident_Name := "initFile2" |};
     FuncDecl_Body :=
       Some [StmtExpr (callNode buildCall);
             StmtReturn 940 [CompositeLit (Some (Ident 947 "File")) 951 []]] |}.

(** [func initFile3() File { f := NewFile(`a`, 1); wire.Build(NewFile); return f }] *)
Definition initFile3 : FuncDecl :=
  {| FuncDecl_Name := {| NamePos := 960; Ident_Name := "initFile3" |};
     FuncDecl_Body :=
       Some [StmtOther 965; StmtExpr (callNode buildCall);
             StmtReturn 990 [Ident 997 "f"]] |}.

(** [func plain() File { return NewFile(`a`, 1); wire.Build(NewFile) }] *)
Definition plain : FuncDecl :=
  {| FuncDecl_Name := {| NamePos := 1000; Ident_Name := "plain" |};
     FuncDecl_Body :=
       Some [StmtReturn 1010 [CallExpr (Ident 1017 "NewFile") [BasicLit 1025 "`a`"; BasicLit 1030 "1"]];
             StmtExpr (callNode buildCall)] |}.

(** [wire.NewSet(NewFile, wire.Bind(new(Reader), file), Buffer{}, wire.Value(`a`))] *)
Definition goodSetCall : CallExprT :=
  wireCall 1100 "NewSet"
    [Ident 1112 "NewFile";
     callNode bindCall;
     CompositeLit (Some (Ident 1140 "Buffer")) 1146 [];
     callNode (wireCall 1150 "Value" [BasicLit 1161 "`a`"])].

(** The variable [Set] of the package. *)
Definition setVar : Var ty :=
  {| Var_Pkg := Some appPkg; Var_Name := "Set"; Var_Pos := 500; Var_Type := Int |}.

(** A package [example.com/two] with the declaration [var a, b = f()]. *)
Definition twoPkg : Package :=
  {| Package_Path := "example.com/two"; Package_Name := "two" |}.

Definition two : PackageT :=
  {| Pkg_PkgPath := "example.com/two";
     Pkg_TypesInfo := Toy.info;
     Pkg_enclosingSpec := fun pos =>
       Some {| Names := [{| NamePos := 10; Ident_Name := "a" |};
                         {| NamePos := 13; Ident_Name := "b" |}];
               Spec_Values := [CallExpr (Ident 17 "f") []] |} |}.

Definition bVar : Var ty :=
  {| Var_Pkg := Some twoPkg; Var_Name := "b"; Var_Pos := 13; Var_Type := Int |}.

Definition ocTwo : objectCache :=
  {| oc_fset := fset;
     packages := {[ "example.com/two" := two ]};
     objects := ∅;
     hasher := () |}.

(** Package [wire], as far as the cache is concerned, and the load of
    [example.com/app], which imports it. *)
Definition wire : PackageT :=
  {| Pkg_PkgPath := "github.com/google/go-cloud/wire";
     Pkg_TypesInfo := Toy.info;
     Pkg_enclosingSpec := fun _ => None |}.

Definition wireLoaded : LoadedPackage :=
  {| LP_Package := wire; LP_Fset := fset; LP_Imports := [] |}.

Definition appLoaded : LoadedPackage :=
  {| LP_Package := app; LP_Fset := fset; LP_Imports := [wireLoaded] |}.

End ToyLoad.

(* ================================================================== *)
(** * Properties *)
(* ================================================================== *)

(* ------------------------------------------------------------------ *)
(** ** Loops and syntax trees *)

Unset Implicit Arguments.

Lemma for_range_inv {S R} (body : nat -> S -> result (R + S))
    (Inv : nat -> S -> Prop) (Post : R -> Prop) (count start : nat) (s : S) :
  Inv start s ->
  (forall i s, start <= i < start + count -> Inv i s ->
     match body i s with
     | Ok (inr s') => Inv (Datatypes.S i) s'
     | Ok (inl r) => Post r
     | _ => False
     end) ->
  match for_range body start count s with
  | Ok (inr s') => Inv (start + count) s'
  | Ok (inl r) => Post r
  | _ => False
  end.
Proof.
  revert start s. induction count as [|count IH]; intros start s Hinv Hstep; simpl.
  - replace (start + 0) with start by lia. exact Hinv.
  - pose proof (Hstep start s ltac:(lia) Hinv) as Hb.
    destruct (body start s) as [[r|s']|msg|]; simpl; try contradiction; auto.
    replace (start + Datatypes.S count) with (Datatypes.S start + count) by lia.
    apply IH; auto. intros i s0 Hi. apply Hstep. lia.
Qed.

(** Induction on syntax trees: a property holds of every node if it holds of
    a node whenever it holds of the node's children. *)
Lemma Node_children_ind (P : Node -> Prop) :
  (forall n, Forall P (children n) -> P n) -> forall n, P n.
Proof.
  intros step. fix IH 1. intros n. apply step.
  destruct n; simpl;
    repeat match goal with
           | |- context [option_list ?o] => destruct o; simpl
           end;
    repeat first
      [ apply List.Forall_nil
      | apply List.Forall_cons; [ apply IH | ]
      | match goal with
        | |- Forall P (?l ++ _) =>
            induction l; simpl; [ | apply List.Forall_cons; [ apply IH | assumption ] ]
        | |- Forall P ?l =>
            induction l; [ apply List.Forall_nil | apply List.Forall_cons; [ apply IH | assumption ] ]
        end ].
Qed.

Lemma Inspect_children {St} (f : option Node -> St -> bool * St) (n : Node) (s : St) :
  Inspect f n s =
    (if fst (f (Some n) s)
     then snd (f None (fold_left (fun s c => Inspect f c s) (children n)
                         (snd (f (Some n) s))))
     else snd (f (Some n) s)).
Proof.
  destruct n; simpl; destruct (f _ s) as [[] s1]; simpl; try reflexivity;
    repeat match goal with
           | |- context [option_list ?o] => destruct o; simpl
           end;
    rewrite ?fold_left_app; reflexivity.
Qed.

Lemma contains_children (n m : Node) :
  contains n m <-> m = n \/ exists c, In c (children n) /\ contains c m.
Proof.
  split.
  - intros Hc. destruct Hc; eauto.
  - intros [->|(c & Hin & Hc)]; [constructor|econstructor; eauto].
Qed.


(* ------------------------------------------------------------------ *)
(** ** The generated injectors *)

Module GuestbookFacts.
Import Guestbook.

(** Case analysis on the outcome of every call that can fail. *)
Ltac run_injector fails :=
  repeat match goal with
         | |- context [fails ?c] => destruct (fails c); cbn
         end;
  unfold mret; rewrite <- ?app_assoc; cbn;
  first
    [ reflexivity
    | eexists; eexists; split;
      [ reflexivity
      | intros t; unfold mbind, invoke, emit; cbn; rewrite <- ?app_assoc; reflexivity ] ].

Lemma setupAWS_discipline ctx flags :
  teardown_discipline plan_setupAWS (fun fails => setupAWS fails ctx flags).
Proof.
  intros fails t0. unfold setupAWS, call_v, call_ve, call_vc, call_vce. cbn.
  run_injector fails.
Qed.

Lemma setupGCP_discipline ctx flags :
  teardown_discipline plan_setupGCP (fun fails => setupGCP fails ctx flags).
Proof.
  intros fails t0. unfold setupGCP, call_v, call_ve, call_vc, call_vce. cbn.
  run_injector fails.
Qed.

Lemma setupLocal_discipline ctx flags :
  teardown_discipline plan_setupLocal (fun fails => setupLocal fails ctx flags).
Proof.
  intros fails t0. unfold setupLocal, call_v, call_ve, call_vc, call_vce. cbn.
  run_injector fails.
Qed.

Lemma NoDup_by_computation {A} `{EqDecision A} (l : list A) :
  bool_decide (NoDup l) = true -> NoDup l.
Proof. apply bool_decide_eq_true_1. Qed.

(** C1.  In each of the generated injectors [setupAWS], [setupGCP] and
    [setupLocal], whatever calls fail: when a step fails, the teardown
    callbacks registered by the steps completed before it, and no others, are
    called in the reverse order of acquisition before the error is returned
    (none when no teardown was registered); when no step fails, no teardown is
    called and the cleanup function that is returned calls all registered
    teardowns in the reverse order of construction.  No teardown is
    registered twice, so each is called once. *)
Theorem injectors_teardown_discipline (ctx flags : value) :
  teardown_discipline plan_setupAWS (fun fails => setupAWS fails ctx flags) /\
  teardown_discipline plan_setupGCP (fun fails => setupGCP fails ctx flags) /\
  teardown_discipline plan_setupLocal (fun fails => setupLocal fails ctx flags) /\
  NoDup (registered plan_setupAWS) /\
  NoDup (registered plan_setupGCP) /\
  NoDup (registered plan_setupLocal).
Proof.
  split; [apply setupAWS_discipline|].
  split; [apply setupGCP_discipline|].
  split; [apply setupLocal_discipline|].
  repeat split; apply NoDup_by_computation; reflexivity.
Qed.

(** [setupAWS] when [awsBucket] fails: three teardowns were registered and
    are called, last acquired first. *)
Example setupAWS_awsBucket_fails :
  setupAWS (fun c => bool_decide (c = awsBucket)) (param "ctx") (param "flags") [] =
    ([Invoke xrayserver_NewRequestLogger; Invoke awsSQLParams;
      Invoke rdsmysql_Open; Acquire rdsmysql_Open;
      Invoke appHealthChecks; Acquire appHealthChecks;
      Invoke session_NewSessionWithOptions; Invoke xrayserver_NewXRayClient;
      Invoke xrayserver_NewExporter; Acquire xrayserver_NewExporter;
      Invoke trace_AlwaysSample; Invoke server_New; Invoke awsBucket;
      Teardown xrayserver_NewExporter; Teardown appHealthChecks;
      Teardown rdsmysql_Open],
     Ok (nil_value, None, Some (errOf awsBucket))).
Proof. reflexivity. Qed.

(** [setupAWS] when no call fails: no teardown during construction, and the
    cleanup function that is returned runs the three teardowns, last acquired
    first. *)
Example setupAWS_succeeds :
  match setupAWS (fun _ => false) (param "ctx") (param "flags") [] with
  | (t, Ok (_, Some cleanup, None)) =>
      List.filter (fun e => match e with Teardown _ => true | _ => false end) t = [] /\
      cleanup [] =
        ([Teardown xrayserver_NewExporter; Teardown appHealthChecks;
          Teardown rdsmysql_Open], Ok ())
  | _ => False
  end.
Proof. split; reflexivity. Qed.

(** [setupAWS] when [rdsmysql.Open] fails: nothing to tear down. *)
Example setupAWS_Open_fails :
  setupAWS (fun c => bool_decide (c = rdsmysql_Open)) (param "ctx") (param "flags") [] =
    ([Invoke xrayserver_NewRequestLogger; Invoke awsSQLParams; Invoke rdsmysql_Open],
     Ok (nil_value, None, Some (errOf rdsmysql_Open))).
Proof. reflexivity. Qed.

End GuestbookFacts.

(* ------------------------------------------------------------------ *)
(** ** Provider construction *)

Section ParseFacts.
Context {GT : GoTypes} {WE : WireEnv}.

(** C2.  [funcOutput] returns an error exactly for the signatures with no
    result, with more than three results, with two results of which the
    second is neither [error] nor [func()], and with three results of which
    the second is not [func()] or the third is not [error].  For every other
    signature it returns the type of the first result as the output, the flag
    [err] tells whether one of the results after the first is [error], and
    the flag [cleanup] whether one of them is [func()].  The hypothesis is a
    fact of Go's type system: no type is identical to both [error] and
    [func()]. *)
Theorem funcOutput_spec (sig : Signature type) :
  (forall t, Identical t errorType = true -> Identical t cleanupType = false) ->
  (snd (funcOutput sig) <> None <->
     length (Results sig) = 0 \/
     3 < length (Results sig) \/
     (exists r0 r1, Results sig = [r0; r1] /\
        Identical (Var_Type r1) errorType = false /\
        Identical (Var_Type r1) cleanupType = false) \/
     (exists r0 r1 r2, Results sig = [r0; r1; r2] /\
        (Identical (Var_Type r1) cleanupType = false \/
         Identical (Var_Type r2) errorType = false)))
  /\
  (snd (funcOutput sig) = None ->
     exists r0 rest, Results sig = r0 :: rest /\
       out (fst (funcOutput sig)) = Some (Var_Type r0) /\
       err (fst (funcOutput sig)) =
         existsb (fun r => Identical (Var_Type r) errorType) rest /\
       cleanup (fst (funcOutput sig)) =
         existsb (fun r => Identical (Var_Type r) cleanupType) rest).
Proof.
  intros Hdistinct. unfold funcOutput.
  destruct (Results sig) as [|r0 [|r1 [|r2 [|r3 rest]]]]; simpl.
  - split; [|congruence]. split; [auto|congruence].
  - split.
    + split; [congruence|].
      intros [?|[?|[(?&?&?&_)|(?&?&?&?&_)]]]; try lia; congruence.
    + intros _. eauto 10.
  - destruct (Identical (Var_Type r1) errorType) eqn:He; simpl.
    + split.
      * split; [congruence|].
        intros [?|[?|[(?&?&E&?&?)|(?&?&?&?&_)]]]; try lia; try congruence.
      * intros _. exists r0, [r1]. simpl. rewrite He, (Hdistinct _ He). auto.
    + destruct (Identical (Var_Type r1) cleanupType) eqn:Hc; simpl.
      * split.
        -- split; [congruence|].
           intros [?|[?|[(?&?&E&?&?)|(?&?&?&?&_)]]]; try lia; try congruence.
        -- intros _. exists r0, [r1]. simpl. rewrite He, Hc. auto.
      * split; [|congruence]. split; [|congruence].
        intros _. right; right; left. eauto.
  - destruct (Identical (Var_Type r1) cleanupType) eqn:Hc; simpl.
    + destruct (Identical (Var_Type r2) errorType) eqn:He; simpl.
      * split.
        -- split; [congruence|].
           intros [?|[?|[(?&?&?&_)|(?&?&?&E&[?|?])]]]; try lia; try congruence.
        -- intros _. exists r0, [r1; r2]. simpl. rewrite He, Hc.
           repeat split; auto using orb_true_r.
      * split; [|congruence]. split; [|congruence].
        intros _. right; right; right. eauto 10.
    + split; [|congruence]. split; [|congruence].
      intros _. right; right; right. eauto 10.
  - split; [|congruence]. split; [|congruence].
    intros _. right; left. lia.
Qed.

Lemma findDuplicate_spec (provider : Provider) (i : nat) (mkerr : option type -> error)
    (ts : list type) :
  i < length ts ->
  (forall k t, k <= i -> ts !! k = Some t -> argType provider k = Some (Some t)) ->
  match findDuplicate provider i mkerr with
  | Ok (inr _) =>
      forall j a b, j < i -> ts !! i = Some a -> ts !! j = Some b -> Identical a b = false
  | Ok (inl errs) =>
      exists j a b, j < i /\ ts !! i = Some a /\ ts !! j = Some b /\
        Identical a b = true /\ errs = [mkerr (Some b)]
  | _ => False
  end.
Proof.
  intros Hi Hargs. unfold findDuplicate.
  destruct (lookup_lt_is_Some_2 ts i Hi) as [a Ha].
  pose proof (for_range_inv
    (fun j (_ : unit) =>
       let* ai := index (Args provider) i in
       let* aj := index (Args provider) j in
       if IdenticalN (ProviderInput_Type ai) (ProviderInput_Type aj)
       then Ok (inl [mkerr (ProviderInput_Type aj)]) else Ok (inr ()))
    (fun j _ => forall j' b, j' < j -> ts !! j' = Some b -> Identical a b = false)
    (fun errs => exists j b, j < i /\ ts !! j = Some b /\
        Identical a b = true /\ errs = [mkerr (Some b)])
    i 0 ()) as Hloop.
  simpl in Hloop.
  match type of Hloop with ?A -> ?B -> ?C => assert (HC : C) end.
  { apply Hloop; clear Hloop.
    - intros j' b Hj'. lia.
    - intros j [] Hj Hinv.
      destruct (lookup_lt_is_Some_2 ts j ltac:(lia)) as [b Hb].
      pose proof (Hargs i a ltac:(lia) Ha) as Hai.
      pose proof (Hargs j b ltac:(lia) Hb) as Haj.
      unfold argType in Hai, Haj. unfold index.
      destruct (Args provider !! i) as [ai|]; simpl in Hai; [|discriminate].
      destruct (Args provider !! j) as [aj|]; simpl in Haj; [|discriminate].
      simpl. injection Hai as Hai. injection Haj as Haj. rewrite Hai, Haj. simpl.
      destruct (Identical a b) eqn:Hid.
      + exists j, b. repeat split; auto. lia.
      + intros j' b' Hj' Hb'. destruct (decide (j' = j)) as [->|Hne].
        * congruence.
        * apply (Hinv j' b'); auto. lia. }
  clear Hloop.
  destruct (for_range _ 0 i ()) as [[errs|[]]|msg|]; try contradiction.
  - destruct HC as (j & b & Hj & Hb & Hid & ->). exists j, a, b. auto.
  - intros j a' b Hj Ha' Hb. assert (a' = a) by congruence. subst a'.
    apply (HC j b); auto.
Qed.

Lemma dup_loop (vars : list (Var type))
    (body : nat -> Provider -> result ((option Provider * list error) + Provider))
    (upd : nat -> Provider -> Provider) (mkerr : option type -> error)
    (J : nat -> Provider -> Prop) (provider0 : Provider) :
  let ts := map Var_Type vars in
  (forall i s, i < length ts -> J i s ->
     body i s =
       (let* dup := findDuplicate (upd i s) i mkerr in
        match dup with
        | inl errs => Ok (inl (None, errs))
        | inr _ => Ok (inr (upd i s))
        end)) ->
  (forall i s, i < length ts -> J i s -> J (Datatypes.S i) (upd i s)) ->
  (forall i s, J i s ->
     forall k t, k < i -> ts !! k = Some t -> argType s k = Some (Some t)) ->
  J 0 provider0 ->
  match for_range body 0 (length ts) provider0 with
  | Ok (inr p) => J (length ts) p /\ ~ hasDuplicate ts
  | Ok (inl r) =>
      exists i j a b, j < i /\ ts !! i = Some a /\ ts !! j = Some b /\
        Identical a b = true /\ r = (None, [mkerr (Some b)])
  | _ => False
  end.
Proof.
  intros ts Hbody Hupd Hargs Hinit.
  pose proof (for_range_inv body
    (fun i s => J i s /\
       forall i' j a b, i' < i -> j < i' -> ts !! i' = Some a -> ts !! j = Some b ->
         Identical a b = false)
    (fun r => exists i j a b, j < i /\ ts !! i = Some a /\ ts !! j = Some b /\
        Identical a b = true /\ r = (None, [mkerr (Some b)]))
    (length ts) 0 provider0) as Hloop.
  simpl in Hloop.
  match type of Hloop with ?A -> ?B -> ?C => assert (HC : C) end.
  { apply Hloop; clear Hloop.
    - split; [exact Hinit|]. intros; lia.
    - intros i s Hi [HJ Hnodup]. rewrite (Hbody i s ltac:(lia) HJ).
      pose proof (Hupd i s ltac:(lia) HJ) as HJ'.
      pose proof (findDuplicate_spec (upd i s) i mkerr ts ltac:(lia)) as Hfd.
      match type of Hfd with ?A -> ?C => assert (HF : C) end.
      { apply Hfd. intros k t Hk Hkt. apply (Hargs _ _ HJ'); auto. lia. }
      clear Hfd.
      destruct (findDuplicate (upd i s) i mkerr) as [[errs|[]]|msg|]; simpl;
        try contradiction.
      + destruct HF as (j & a & b & Hj & Ha & Hb & Hid & ->).
        exists i, j, a, b. auto.
      + split; [exact HJ'|].
        intros i' j a b Hi' Hj Ha Hb.
        destruct (decide (i' = i)) as [->|Hne].
        * apply (HF j a b); auto.
        * apply (Hnodup i' j a b); auto. lia. }
  clear Hloop.
  destruct (for_range body 0 (length ts) provider0) as [[r|p]|msg|];
    try contradiction; auto.
  destruct HC as [HJ Hnodup]. split; [exact HJ|].
  intros (i & j & Hj & a & b & Ha & Hb & Hid).
  assert (i < length ts) by (apply lookup_lt_is_Some_1; eauto).
  rewrite (Hnodup i j a b) in Hid; auto; discriminate.
Qed.


Lemma list_eq_pointwise {A} (l1 l2 : list A) :
  length l1 = length l2 ->
  (forall k x, l2 !! k = Some x -> l1 !! k = Some x) ->
  l1 = l2.
Proof.
  intros Hlen Hpt. apply list_eq. intros k.
  destruct (l2 !! k) as [x|] eqn:E.
  - auto.
  - apply lookup_ge_None. apply lookup_ge_None in E. lia.
Qed.

(** The outcomes of [processFuncProvider] for a function whose results have a
    legal shape. *)
Lemma processFuncProvider_cases (fset : FileSet) (fn : Func) :
  snd (funcOutput (Func_Type fn)) = None ->
  let ts := map Var_Type (Params (Func_Type fn)) in
  let providerSig := fst (funcOutput (Func_Type fn)) in
  (~ hasDuplicate ts /\
   processFuncProvider fset fn =
     Ok (Some {| Provider_Pkg := Func_Pkg fn;
                 Provider_Name := Func_Name fn;
                 Provider_Pos := Func_Pos fn;
                 Args := inputsOf (Params (Func_Type fn));
                 IsStruct := false;
                 Fields := [];
                 Out := [out providerSig];
                 HasCleanup := cleanup providerSig;
                 HasErr := err providerSig |}, []))
  \/
  (exists i j a b, j < i /\ ts !! i = Some a /\ ts !! j = Some b /\
     Identical a b = true /\
     processFuncProvider fset fn =
       Ok (None, [notePosition (FileSet_Position fset (Func_Pos fn))
                    (errorString ("provider has multiple parameters of type "
                                  +:+ TypeString b))])).
Proof.
  intros Hsig ts providerSig. unfold processFuncProvider.
  subst providerSig. destruct (funcOutput (Func_Type fn)) as [providerSig ferr].
  simpl in Hsig. subst ferr. simpl.
  set (params := Params (Func_Type fn)) in *.
  set (mkerr := fun t : option type =>
         notePosition (FileSet_Position fset (Func_Pos fn))
           (errorString ("provider has multiple parameters of type " +:+ TypeStringN t))).
  set (provider0 := {| Provider_Pkg := Func_Pkg fn; Provider_Name := Func_Name fn;
                       Provider_Pos := Func_Pos fn;
                       Args := replicate (length params) ProviderInput_zero;
                       IsStruct := false; Fields := []; Out := [out providerSig];
                       HasCleanup := cleanup providerSig; HasErr := err providerSig |}).
  set (body := fun (i : nat) (provider : Provider) => _).
  set (upd := fun (i : nat) (s : Provider) =>
         match params !! i with
         | Some p => Provider_set_Args s
                       (<[i := {| ProviderInput_Type := Some (Var_Type p) |}]> (Args s))
         | None => s
         end).
  set (J := fun (i : nat) (s : Provider) =>
         s = Provider_set_Args provider0 (Args s) /\
         length (Args s) = length params /\
         forall k v, k < i -> params !! k = Some v ->
           Args s !! k = Some {| ProviderInput_Type := Some (Var_Type v) |}).
  pose proof (dup_loop params body upd mkerr J provider0) as Hloop.
  simpl in Hloop. rewrite length_map in Hloop. fold ts in Hloop.
  match type of Hloop with ?A -> ?B -> ?C -> ?D -> ?E => assert (HE : E) end.
  { apply Hloop; clear Hloop.
    - intros i s Hi (Hs & Hlen & Hpt). subst body upd. simpl.
      unfold index, assign.
      destruct (params !! i) as [p|] eqn:Hp;
        [|apply lookup_ge_None in Hp; lia].
      simpl. destruct (decide (i < length (Args s))); [|lia]. simpl. reflexivity.
    - intros i s Hi (Hs & Hlen & Hpt). subst upd J. simpl.
      destruct (params !! i) as [p|] eqn:Hp;
        [|apply lookup_ge_None in Hp; lia].
      simpl.
      split; [|split].
      + rewrite Hs at 1. reflexivity.
      + rewrite length_insert. exact Hlen.
      + intros k v Hk Hv. destruct (decide (k = i)) as [->|Hne].
        * rewrite list_lookup_insert_eq by lia. congruence.
        * rewrite list_lookup_insert_ne by auto. apply Hpt; auto. lia.
    - intros i s (Hs & Hlen & Hpt) k t Hk Ht. subst ts.
      rewrite list_lookup_fmap in Ht.
      destruct (params !! k) as [v|] eqn:Hv; simpl in Ht; [|discriminate].
      injection Ht as <-. unfold argType. rewrite (Hpt k v Hk Hv). reflexivity.
    - subst J. simpl. split; [reflexivity|]. split.
      + apply length_replicate.
      + intros; lia. }
  clear Hloop.
  destruct (for_range body 0 (length params) provider0) as [[r|p]|msg|];
    simpl; try contradiction.
  - right. destruct HE as (i & j & a & b & Hj & Ha & Hb & Hid & ->).
    exists i, j, a, b. auto.
  - left. destruct HE as [(Hs & Hlen & Hpt) Hnodup]. split; [exact Hnodup|].
    do 3 f_equal. rewrite Hs. subst provider0. unfold Provider_set_Args. simpl.
    f_equal. apply list_eq_pointwise.
    + unfold inputsOf. rewrite length_map. exact Hlen.
    + intros k x Hk. unfold inputsOf in Hk. rewrite list_lookup_fmap in Hk.
      destruct (params !! k) as [v|] eqn:Hv; simpl in Hk; [|discriminate].
      injection Hk as <-. apply Hpt; auto. apply lookup_lt_is_Some_1; eauto.
Qed.

(** The outcomes of [processStructProvider] for a type whose underlying type
    is a struct. *)
Lemma processStructProvider_cases (fset : FileSet) (tn : TypeName) (st : list (Var type)) :
  kind (Underlying (TypeName_Type tn)) = KStruct st ->
  let ts := map Var_Type st in
  (~ hasDuplicate ts /\
   processStructProvider fset tn =
     Ok (Some {| Provider_Pkg := TypeName_Pkg tn;
                 Provider_Name := TypeName_Name tn;
                 Provider_Pos := TypeName_Pos tn;
                 Args := inputsOf st;
                 IsStruct := true;
                 Fields := map Var_Name st;
                 Out := [Some (TypeName_Type tn); Some (NewPointer (TypeName_Type tn))];
                 HasCleanup := false;
                 HasErr := false |}, []))
  \/
  (exists i j a b, j < i /\ ts !! i = Some a /\ ts !! j = Some b /\
     Identical a b = true /\
     processStructProvider fset tn =
       Ok (None, [notePosition (FileSet_Position fset (TypeName_Pos tn))
                    (errorString ("provider struct has multiple fields of type "
                                  +:+ TypeString b))])).
Proof.
  intros Hst ts. unfold processStructProvider. rewrite Hst.
  set (mkerr := fun t : option type =>
         notePosition (FileSet_Position fset (TypeName_Pos tn))
           (errorString ("provider struct has multiple fields of type "
                         +:+ TypeStringN t))).
  set (provider0 := {| Provider_Pkg := TypeName_Pkg tn; Provider_Name := TypeName_Name tn;
                       Provider_Pos := TypeName_Pos tn;
                       Args := replicate (length st) ProviderInput_zero;
                       IsStruct := true; Fields := replicate (length st) "";
                       Out := [Some (TypeName_Type tn); Some (NewPointer (TypeName_Type tn))];
                       HasCleanup := false; HasErr := false |}).
  set (body := fun (i : nat) (provider : Provider) => _).
  set (upd := fun (i : nat) (s : Provider) =>
         match st !! i with
         | Some f =>
             Provider_set_Fields
               (Provider_set_Args s
                  (<[i := {| ProviderInput_Type := Some (Var_Type f) |}]> (Args s)))
               (<[i := Var_Name f]> (Fields s))
         | None => s
         end).
  set (J := fun (i : nat) (s : Provider) =>
         s = Provider_set_Fields (Provider_set_Args provider0 (Args s)) (Fields s) /\
         length (Args s) = length st /\
         length (Fields s) = length st /\
         forall k v, k < i -> st !! k = Some v ->
           Args s !! k = Some {| ProviderInput_Type := Some (Var_Type v) |} /\
           Fields s !! k = Some (Var_Name v)).
  pose proof (dup_loop st body upd mkerr J provider0) as Hloop.
  simpl in Hloop. rewrite length_map in Hloop. fold ts in Hloop.
  match type of Hloop with ?A -> ?B -> ?C -> ?D -> ?E => assert (HE : E) end.
  { apply Hloop; clear Hloop.
    - intros i s Hi (Hs & Hlen & Hlenf & Hpt). subst body upd. simpl.
      unfold index, assign.
      destruct (st !! i) as [f|] eqn:Hf; [|apply lookup_ge_None in Hf; lia].
      simpl. destruct (decide (i < length (Args s))); [|lia]. simpl.
      destruct (decide (i < length (Fields s))); [|lia]. simpl. reflexivity.
    - intros i s Hi (Hs & Hlen & Hlenf & Hpt). subst upd J. simpl.
      destruct (st !! i) as [f|] eqn:Hf; [|apply lookup_ge_None in Hf; lia].
      simpl. split; [|split; [|split]].
      + rewrite Hs at 1. reflexivity.
      + rewrite length_insert. exact Hlen.
      + rewrite length_insert. exact Hlenf.
      + intros k v Hk Hv. destruct (decide (k = i)) as [->|Hne].
        * rewrite !list_lookup_insert_eq by lia. split; congruence.
        * rewrite !list_lookup_insert_ne by auto. apply Hpt; auto. lia.
    - intros i s (Hs & Hlen & Hlenf & Hpt) k t Hk Ht. subst ts.
      rewrite list_lookup_fmap in Ht.
      destruct (st !! k) as [v|] eqn:Hv; simpl in Ht; [|discriminate].
      injection Ht as <-. unfold argType.
      destruct (Hpt k v Hk Hv) as [-> _]. reflexivity.
    - subst J. simpl. split; [reflexivity|]. split; [|split].
      + apply length_replicate.
      + apply length_replicate.
      + intros; lia. }
  clear Hloop.
  destruct (for_range body 0 (length st) provider0) as [[r|p]|msg|];
    simpl; try contradiction.
  - right. destruct HE as (i & j & a & b & Hj & Ha & Hb & Hid & ->).
    exists i, j, a, b. auto.
  - left. destruct HE as [(Hs & Hlen & Hlenf & Hpt) Hnodup]. split; [exact Hnodup|].
    do 3 f_equal. rewrite Hs. subst provider0.
    unfold Provider_set_Args, Provider_set_Fields. simpl.
    f_equal.
    + apply list_eq_pointwise.
      * unfold inputsOf. rewrite length_map. exact Hlen.
      * intros k x Hk. unfold inputsOf in Hk. rewrite list_lookup_fmap in Hk.
        destruct (st !! k) as [v|] eqn:Hv; simpl in Hk; [|discriminate].
        injection Hk as <-. apply Hpt; auto. apply lookup_lt_is_Some_1; eauto.
    + apply list_eq_pointwise.
      * rewrite length_map. exact Hlenf.
      * intros k x Hk. rewrite list_lookup_fmap in Hk.
        destruct (st !! k) as [v|] eqn:Hv; simpl in Hk; [|discriminate].
        injection Hk as <-. apply Hpt; auto. apply lookup_lt_is_Some_1; eauto.
Qed.


(** C3 (amended).  A provider with two identical input types is rejected: no
    [Provider] is returned, and the single error is annotated with the
    position of the provider.  For a function provider whose results have a
    legal shape the error is "provider has multiple parameters of type T",
    and for a struct provider it is "provider struct has multiple fields of
    type T", where [T] is one of the repeated types; a function provider
    whose results have an illegal shape is rejected for that shape.  A
    provider whose input types are pairwise distinct is not rejected for its
    inputs. *)
Theorem duplicate_inputs_rejected (fset : FileSet) :
  (forall fn : Func,
     let ts := map Var_Type (Params (Func_Type fn)) in
     let pos := FileSet_Position fset (Func_Pos fn) in
     (hasDuplicate ts ->
        exists e, processFuncProvider fset fn = Ok (None, [notePosition pos e]) /\
          (snd (funcOutput (Func_Type fn)) = None ->
             exists i j a b, j < i /\ ts !! i = Some a /\ ts !! j = Some b /\
               Identical a b = true /\
               e = errorString ("provider has multiple parameters of type "
                                +:+ TypeString b))) /\
     (~ hasDuplicate ts -> snd (funcOutput (Func_Type fn)) = None ->
        exists p, processFuncProvider fset fn = Ok (Some p, []))) /\
  (forall (tn : TypeName) (st : list (Var type)),
     kind (Underlying (TypeName_Type tn)) = KStruct st ->
     let ts := map Var_Type st in
     let pos := FileSet_Position fset (TypeName_Pos tn) in
     (hasDuplicate ts ->
        exists i j a b, j < i /\ ts !! i = Some a /\ ts !! j = Some b /\
          Identical a b = true /\
          processStructProvider fset tn =
            Ok (None, [notePosition pos
                         (errorString ("provider struct has multiple fields of type "
                                       +:+ TypeString b))])) /\
     (~ hasDuplicate ts ->
        exists p, processStructProvider fset tn = Ok (Some p, []))).
Proof.
  split.
  - intros fn ts pos. split.
    + intros Hdup.
      destruct (snd (funcOutput (Func_Type fn))) as [ferr|] eqn:Hsig.
      * unfold processFuncProvider.
        destruct (funcOutput (Func_Type fn)) as [providerSig ferr']. simpl in Hsig.
        subst ferr'. eexists. split; [reflexivity|]. discriminate.
      * destruct (processFuncProvider_cases fset fn Hsig)
          as [[Hno _]|(i & j & a & b & Hj & Ha & Hb & Hid & Hres)].
        -- contradiction.
        -- eexists. split; [exact Hres|]. intros _. exists i, j, a, b. auto.
    + intros Hno Hsig.
      destruct (processFuncProvider_cases fset fn Hsig)
        as [[_ Hres]|(i & j & a & b & Hj & Ha & Hb & Hid & _)].
      * eauto.
      * exfalso. apply Hno. exists i, j. split; eauto.
  - intros tn st Hst ts pos. split.
    + intros Hdup.
      destruct (processStructProvider_cases fset tn st Hst)
        as [[Hno _]|(i & j & a & b & Hj & Ha & Hb & Hid & Hres)].
      * contradiction.
      * exists i, j, a, b. auto.
    + intros Hno.
      destruct (processStructProvider_cases fset tn st Hst)
        as [[_ Hres]|(i & j & a & b & Hj & Ha & Hb & Hid & _)].
      * eauto.
      * exfalso. apply Hno. exists i, j. split; eauto.
Qed.

(** C4.  The provider made for a named struct type has exactly two outputs,
    the struct type and the pointer to it, one input and one field name per
    field of the struct, in order, and neither the cleanup nor the error
    flag. *)
Theorem struct_provider_shape (fset : FileSet) (tn : TypeName) (p : Provider)
    (errs : list error) :
  processStructProvider fset tn = Ok (Some p, errs) ->
  exists st, kind (Underlying (TypeName_Type tn)) = KStruct st /\
    Out p = [Some (TypeName_Type tn); Some (NewPointer (TypeName_Type tn))] /\
    map ProviderInput_Type (Args p) = map (fun f => Some (Var_Type f)) st /\
    Fields p = map Var_Name st /\
    length (Args p) = length st /\
    length (Fields p) = length st /\
    HasCleanup p = false /\
    HasErr p = false /\
    errs = [].
Proof.
  intros Hres.
  destruct (kind (Underlying (TypeName_Type tn))) as [| |st| | |] eqn:Hk;
    try (unfold processStructProvider in Hres; rewrite Hk in Hres; discriminate).
  exists st. split; [reflexivity|].
  destruct (processStructProvider_cases fset tn st Hk)
    as [[_ Hok]|(i & j & a & b & _ & _ & _ & _ & Herr)].
  - rewrite Hok in Hres. injection Hres as <- <-. simpl.
    unfold inputsOf. rewrite map_map, !length_map. simpl. auto 10.
  - rewrite Herr in Hres. discriminate.
Qed.

(** C5.  For a [wire.Bind] call with two arguments of which the first is a
    pointer to an interface type: the call is rejected with a "does not
    implement" error when the type of the second argument does not implement
    the interface, with "cannot bind interface to itself" when that type is
    identical to the interface type, and otherwise yields a binding whose
    [Provided] type implements its [Iface] type.  The last hypothesis is a
    fact of Go's type system: an interface type implements itself. *)
Theorem processBind_spec (fset : FileSet) (info : Info) (call : CallExprT)
    (arg0 arg1 : Node) (ifaceType : type) (methodSet : iface) :
  Call_Args call = [arg0; arg1] ->
  kind (TypeOf info arg0) = KPointer ifaceType ->
  kind (Underlying ifaceType) = KInterface methodSet ->
  let provided := TypeOf info arg1 in
  let pos := FileSet_Position fset (Call_Pos call) in
  (Identical ifaceType provided = true -> Implements provided methodSet = true) ->
  (Implements provided methodSet = false ->
     processBind fset info call =
       (None, Some (notePosition pos
                      (errorString (TypeString provided +:+ " does not implement "
                                    +:+ TypeString ifaceType))))) /\
  (Identical ifaceType provided = true ->
     processBind fset info call =
       (None, Some (notePosition pos (errors_New "cannot bind interface to itself")))) /\
  (Implements provided methodSet = true -> Identical ifaceType provided = false ->
     exists b, processBind fset info call = (Some b, None) /\
       Iface b = ifaceType /\ Provided b = provided /\
       IfaceBinding_Pos b = Call_Pos call /\
       Implements (Provided b) methodSet = true).
Proof.
  intros Hargs Hptr Hiface provided pos Hself.
  unfold processBind. rewrite Hargs, Hptr, Hiface. fold provided. fold pos.
  repeat split.
  - intros Himpl. destruct (Identical ifaceType provided) eqn:Hid.
    + rewrite (Hself eq_refl) in Himpl. discriminate.
    + rewrite Himpl. reflexivity.
  - intros ->. reflexivity.
  - intros Himpl Hid. rewrite Hid, Himpl. simpl. eexists. repeat split. exact Himpl.
Qed.

(** C9.  For a type that is identical to no key of the merged index, [For]
    returns the zero [ProvidedType], for which [IsNil] is true and
    [IsProvider], [IsValue] and [IsArg] are false.  Each of the accessors
    [Provider], [Value] and [Arg] panics exactly when the corresponding
    predicate is false, and returns the pointer otherwise. *)
Theorem ProvidedType_accessors :
  (forall (set : ProviderSet) (t : type),
     (forall k, In k (Outputs set) -> Identical t k = false) ->
     For set t = ProvidedType_zero /\
     IsNil (For set t) = true /\
     IsProvider (For set t) = false /\
     IsValue (For set t) = false /\
     IsArg (For set t) = false) /\
  (forall pt : ProvidedType,
     ((exists msg, ProvidedType_Provider pt = Panic msg) <-> IsProvider pt = false) /\
     ((exists msg, ProvidedType_Value pt = Panic msg) <-> IsValue pt = false) /\
     ((exists msg, ProvidedType_Arg pt = Panic msg) <-> IsArg pt = false) /\
     (IsProvider pt = true -> exists p, ProvidedType_Provider pt = Ok p) /\
     (IsValue pt = true -> exists v, ProvidedType_Value pt = Ok v) /\
     (IsArg pt = true -> exists a, ProvidedType_Arg pt = Ok a)).
Proof.
  split.
  - intros set t Habsent.
    assert (Hzero : For set t = ProvidedType_zero).
    { unfold For, TypeMap_At. unfold Outputs, TypeMap_Keys in Habsent.
      destruct (providerMap set) as [table|]; [|reflexivity].
      destruct (find (fun e => Identical t (fst e)) table) as [e|] eqn:Hfind; [|reflexivity].
      apply find_some in Hfind as [Hin Hid].
      rewrite (Habsent (fst e)) in Hid; [discriminate|].
      apply in_map. exact Hin. }
    rewrite Hzero. repeat split.
  - intros [t p v a].
    unfold ProvidedType_Provider, ProvidedType_Value, ProvidedType_Arg,
      IsProvider, IsValue, IsArg; simpl.
    destruct p, v, a; simpl; repeat split;
      try (intros [msg Hmsg]; discriminate);
      try discriminate;
      try (intros _; eexists; reflexivity).
Qed.



(* ------------------------------------------------------------------ *)
(** ** Values *)

Lemma valueInspector_node (info : Info) (n : Node) (ok : bool) :
  valueInspector info (Some n) ok =
    if isRejected info n then (false, false) else (true, ok).
Proof.
  unfold isRejected, isFuncCall.
  destruct n; simpl; try reflexivity.
  - destruct (kind (TypeOf info n)); reflexivity.
  - destruct op; reflexivity.
Qed.

(** The traversal of [processValue] leaves [ok] true exactly when it was
    true before and the tree contains no rejected node. *)
Lemma Inspect_valueInspector (info : Info) (n : Node) :
  forall ok, Inspect (valueInspector info) n ok = true <->
    ok = true /\ forall m, contains n m -> isRejected info m = false.
Proof.
  induction n as [n IH] using Node_children_ind. intros ok.
  rewrite Inspect_children, valueInspector_node.
  destruct (isRejected info n) eqn:Hrej; simpl.
  - split; [discriminate|]. intros [_ Hall].
    rewrite (Hall n (contains_self n)) in Hrej. discriminate.
  - assert (Hfold : forall l ok0, Forall (fun c => forall ok,
                Inspect (valueInspector info) c ok = true <->
                ok = true /\ forall m, contains c m -> isRejected info m = false) l ->
              (fold_left (fun s c => Inspect (valueInspector info) c s) l ok0 = true <->
               ok0 = true /\ forall c m, In c l -> contains c m -> isRejected info m = false)).
    { induction l as [|c l IHl]; intros ok0 Hl; simpl.
      - split; [intros ->; split; [reflexivity|intros c m []]|intros [-> _]; reflexivity].
      - inversion Hl as [|? ? Hc Hl']; subst.
        rewrite (IHl _ Hl'), Hc. split.
        + intros [[-> Hcm] Hrest]. split; [reflexivity|].
          intros c' m [<-|Hin] Hcont; eauto.
        + intros [-> Hall]. split; [split; [reflexivity|]|]; eauto. }
    rewrite (Hfold _ _ IH). split.
    + intros [-> Hall]. split; [reflexivity|].
      intros m Hm. apply contains_children in Hm as [->|(c & Hin & Hc)]; eauto.
    + intros [-> Hall]. split; [reflexivity|].
      intros c m Hin Hc. apply Hall. econstructor; eauto.
Qed.

Lemma contains_leaf (n m : Node) : children n = [] -> contains n m -> m = n.
Proof.
  intros Hleaf Hc. apply contains_children in Hc as [->|(c & Hin & _)]; [reflexivity|].
  rewrite Hleaf in Hin. destruct Hin.
Qed.

Lemma isLiteralOrIdent_accepted (info : Info) (e : Node) :
  isLiteralOrIdent e = true -> forall m, contains e m -> isRejected info m = false.
Proof.
  intros He m Hm. destruct e; try discriminate.
  - apply contains_leaf in Hm as ->; reflexivity.
  - apply contains_leaf in Hm as ->; reflexivity.
  - destruct e1; try discriminate. destruct e2; try discriminate.
    apply contains_children in Hm as [->|(c & [<-|[<-|[]]] & Hc)]; [reflexivity| |];
      apply contains_leaf in Hc as ->; reflexivity.
Qed.

Lemma isSimpleStructLit_accepted (info : Info) (n : Node) :
  isSimpleStructLit n = true -> forall m, contains n m -> isRejected info m = false.
Proof.
  intros Hn m Hm. destruct n as [| | | | |[t|] lb elts| | | | | | | | | | | | | | | | | | | | |];
    try discriminate.
  simpl in Hn. apply andb_true_iff in Hn as [Ht Helts].
  apply contains_children in Hm as [->|(c & Hin & Hc)]; [reflexivity|].
  simpl in Hin. destruct Hin as [<-|Hin].
  - apply (isLiteralOrIdent_accepted info t); auto.
    destruct t; try discriminate; auto.
  - rewrite forallb_forall in Helts. specialize (Helts c Hin).
    destruct c; try (apply (isLiteralOrIdent_accepted info _ Helts); exact Hc).
    destruct c1; try (apply (isLiteralOrIdent_accepted info _ Helts); exact Hc).
    apply contains_children in Hc as [->|(c & [<-|[<-|[]]] & Hc)]; [reflexivity| |].
    + apply contains_leaf in Hc as ->; reflexivity.
    + apply (isLiteralOrIdent_accepted info _ Helts); exact Hc.
Qed.

Lemma processValue_rejected (fset : FileSet) (info : Info) (call : CallExprT) (arg0 : Node) :
  Call_Args call = [arg0] ->
  (exists m, contains arg0 m /\ isRejected info m = true) ->
  processValue fset info call =
    (None, Some (notePosition (FileSet_Position fset (Call_Pos call))
                   (errors_New "argument to Value is too complex"))).
Proof.
  intros Hargs (m & Hm & Hrej). unfold processValue. rewrite Hargs.
  destruct (Inspect (valueInspector info) arg0 true) eqn:Hok; [|reflexivity].
  apply Inspect_valueInspector in Hok as [_ Hall].
  rewrite (Hall m Hm) in Hrej. discriminate.
Qed.

Lemma processValue_accepted (fset : FileSet) (info : Info) (call : CallExprT) (arg0 : Node) :
  Call_Args call = [arg0] ->
  (forall m, contains arg0 m -> isRejected info m = false) ->
  processValue fset info call = processValue_simple fset info call arg0.
Proof.
  intros Hargs Hall. unfold processValue. rewrite Hargs.
  assert (Hok : Inspect (valueInspector info) arg0 true = true).
  { apply Inspect_valueInspector. auto. }
  rewrite Hok. reflexivity.
Qed.

Lemma isFuncValueCall_isFuncCall (info : Info) (n : Node) :
  isFuncValueCall info n = true -> isFuncCall info n = true.
Proof.
  unfold isFuncValueCall, isFuncCall. destruct n; try discriminate.
  destruct (kind (TypeOf info n)); try discriminate. reflexivity.
Qed.

Lemma isFuncTypedCall_isFuncCall (info : Info) (n : Node) :
  isFuncTypedCall info n = false -> isFuncCall info n = false.
Proof.
  unfold isFuncTypedCall, isFuncCall. destruct n; try reflexivity.
  destruct (kind (TypeOf info n)); try discriminate; reflexivity.
Qed.


(** C10 (amended).  A [wire.Value] call with one argument whose type has an
    interface type as its underlying type is always rejected; when the
    argument passes the test of complexity, the error is the one that directs
    the user to [wire.InterfaceValue].  An argument of another type that
    passes the test of complexity is accepted. *)
Theorem processValue_interface (fset : FileSet) (info : Info) (call : CallExprT)
    (arg0 : Node) :
  Call_Args call = [arg0] ->
  let argType := TypeOf info arg0 in
  let pos := FileSet_Position fset (Call_Pos call) in
  (forall ms, kind (Underlying argType) = KInterface ms ->
     (exists e, processValue fset info call = (None, Some e)) /\
     ((forall m, contains arg0 m -> isRejected info m = false) ->
      processValue fset info call =
        (None, Some (notePosition pos
                       (errorString ("argument to Value may not be an interface value (found "
                                     +:+ TypeString argType +:+
                                     "); use InterfaceValue instead")))))) /\
  ((forall ms, kind (Underlying argType) <> KInterface ms) ->
   (forall m, contains arg0 m -> isRejected info m = false) ->
   exists v, processValue fset info call = (Some v, None) /\
     Value_Out v = argType /\ Value_expr v = arg0 /\ Value_Pos v = Node_Pos arg0).
Proof.
  intros Hargs argType pos. split.
  - intros ms Hms. split.
    + unfold processValue. rewrite Hargs.
      destruct (Inspect (valueInspector info) arg0 true); simpl; [|eauto].
      fold argType. rewrite Hms. eauto.
    + intros Hall. rewrite (processValue_accepted fset info call arg0 Hargs Hall).
      unfold processValue_simple. fold argType. rewrite Hms. reflexivity.
  - intros Hnot Hall. rewrite (processValue_accepted fset info call arg0 Hargs Hall).
    unfold processValue_simple. fold argType.
    destruct (kind (Underlying argType)) eqn:Hk; try (eexists; repeat split; reflexivity).
    exfalso. eapply Hnot; eauto.
Qed.


(* ------------------------------------------------------------------ *)
(** ** Provider sets *)

Ltac case_split_all :=
  repeat match goal with
         | |- context [match ?x with _ => _ end] => destruct x
         end.

Lemma processFuncProvider_entry_ok fset fn p errs :
  processFuncProvider fset fn = Ok (p, errs) -> errs = [] -> p <> None.
Proof.
  intros Hres ->.
  destruct (snd (funcOutput (Func_Type fn))) as [ferr|] eqn:Hsig.
  - unfold processFuncProvider in Hres.
    destruct (funcOutput (Func_Type fn)) as [providerSig ferr']. simpl in Hsig.
    subst ferr'. discriminate.
  - destruct (processFuncProvider_cases fset fn Hsig)
      as [[_ Hok]|(i & j & a & b & _ & _ & _ & _ & Herr)].
    + rewrite Hok in Hres. injection Hres as <-. discriminate.
    + rewrite Herr in Hres. discriminate.
Qed.

Lemma processStructProvider_entry_ok fset tn p errs :
  processStructProvider fset tn = Ok (p, errs) -> errs = [] -> p <> None.
Proof.
  intros Hres ->.
  destruct (kind (Underlying (TypeName_Type tn))) as [| |st| | |] eqn:Hk;
    try (unfold processStructProvider in Hres; rewrite Hk in Hres; discriminate).
  destruct (processStructProvider_cases fset tn st Hk)
    as [[_ Hok]|(i & j & a & b & _ & _ & _ & _ & Herr)].
  - rewrite Hok in Hres. injection Hres as <-. discriminate.
  - rewrite Herr in Hres. discriminate.
Qed.

Lemma processBind_result fset info call :
  (exists b, processBind fset info call = (Some b, None)) \/
  (exists e, processBind fset info call = (None, Some e)).
Proof. unfold processBind. case_split_all; eauto. Qed.

Lemma processValue_result fset info call :
  (exists v, processValue fset info call = (Some v, None)) \/
  (exists e, processValue fset info call = (None, Some e)).
Proof. unfold processValue. case_split_all; eauto. Qed.

Lemma processInterfaceValue_result fset info call :
  (exists v, processInterfaceValue fset info call = (Some v, None)) \/
  (exists e, processInterfaceValue fset info call = (None, Some e)).
Proof. unfold processInterfaceValue. case_split_all; eauto. Qed.

Lemma cache_ok_store oc ref item errs :
  cache_ok oc -> entry_ok item errs ->
  cache_ok (objectCache_store oc ref
              {| objCacheEntry_val := item; objCacheEntry_errs := errs |}).
Proof.
  intros Hoc Hent ref' ent'. unfold objectCache_store. simpl.
  destruct (decide (ref = ref')) as [<-|Hne].
  - rewrite lookup_insert_eq. intros [= <-]. exact Hent.
  - rewrite lookup_insert_ne by exact Hne. apply Hoc.
Qed.

Section MethodFacts.
Variable rec : objectCache -> Info -> string -> Node -> string ->
               result (objectCache * (option Item * list error)).
Hypothesis Hrec : rec_ok rec.

Lemma processNewSet_args_cache_ok info pkgPath args :
  forall oc pset ec oc' pset' ec',
    cache_ok oc ->
    processNewSet_args rec info pkgPath args oc pset ec = Ok (oc', pset', ec') ->
    cache_ok oc'.
Proof.
  induction args as [|arg rest IH]; intros oc pset ec oc' pset' ec' Hoc; simpl.
  - intros [= <- <- <-]. exact Hoc.
  - destruct (rec oc info pkgPath arg EmptyString) as [[oc1 [item errs]]|msg|] eqn:Hr;
      simpl; try discriminate.
    destruct (Hrec _ _ _ _ _ _ _ _ Hoc Hr) as [Hoc1 _].
    case_bool_decide.
    + apply IH. exact Hoc1.
    + destruct item as [item|]; [|discriminate]. apply IH. exact Hoc1.
Qed.

Lemma processNewSet_entry_ok oc info pkgPath call injectorArgs varName oc' pset errs :
  cache_ok oc ->
  processNewSet rec oc info pkgPath call injectorArgs varName = Ok (oc', (pset, errs)) ->
  cache_ok oc' /\ (errs = [] -> pset <> None).
Proof.
  intros Hoc. unfold processNewSet.
  destruct (processNewSet_args _ _ _ _ _ _ _) as [[[oc1 pset1] ec1]|msg|] eqn:Hargs;
    simpl; try discriminate.
  pose proof (processNewSet_args_cache_ok _ _ _ _ _ _ _ _ _ Hoc Hargs) as Hoc1.
  case_bool_decide as Hec.
  { intros [= <- <- <-]. split; [exact Hoc1|].
    intros Hnil. rewrite Hnil in Hec. simpl in Hec. lia. }
  destruct (buildProviderMap _ _ _) as [[[pm sm] errs1]|msg|]; simpl; try discriminate.
  case_bool_decide as Hbuild.
  { intros [= <- <- <-]. split; [exact Hoc1|].
    intros Hnil. rewrite Hnil in Hbuild. simpl in Hbuild. lia. }
  destruct (verifyAcyclic _ _) as [errs2|msg|]; simpl; try discriminate.
  case_bool_decide as Hcyc.
  { intros [= <- <- <-]. split; [exact Hoc1|].
    intros Hnil. rewrite Hnil in Hcyc. simpl in Hcyc. lia. }
  intros [= <- <- <-]. split; [exact Hoc1|]. discriminate.
Qed.

Lemma get_entry_ok oc obj oc' item errs :
  cache_ok oc ->
  get rec oc obj = Ok (oc', (item, errs)) ->
  cache_ok oc' /\ entry_ok item errs.
Proof.
  intros Hoc. unfold get.
  destruct (Object_Pkg obj) as [objPkg|]; simpl; [|discriminate].
  destruct (objects oc !! (Package_Path objPkg, Object_Name obj)) as [ent|] eqn:Hcache.
  { intros [= <- <- <-]. split; [exact Hoc|]. exact (Hoc _ _ Hcache). }
  match goal with
  | |- rbind ?m _ = _ -> _ => destruct m as [[oc1 [item1 errs1]]|msg|] eqn:Hm
  end; simpl; try discriminate.
  intros [= <- <- <-].
  assert (Hinner : cache_ok oc1 /\ entry_ok item1 errs1).
  { destruct obj as [v|fn|tn|pkg name pos|pkg name pos].
    - destruct (varDecl oc v) as [[spec|]|msg|]; simpl in Hm; try discriminate.
      + case_bool_decide.
        * injection Hm as <- <- <-. split; [exact Hoc|]. discriminate.
        * destruct (packages oc !! Package_Path objPkg) as [pkg|]; simpl in Hm;
            [|discriminate].
          destruct (index (Spec_Values spec) _) as [value|msg|]; simpl in Hm;
            try discriminate.
          exact (Hrec _ _ _ _ _ _ _ _ Hoc Hm).
      + injection Hm as <- <- <-. split; [exact Hoc|]. discriminate.
    - destruct (processFuncProvider (oc_fset oc) fn) as [[p errs]|msg|] eqn:Hp;
        simpl in Hm; try discriminate.
      injection Hm as <- <- <-. split; [exact Hoc|].
      intros Hnil. pose proof (processFuncProvider_entry_ok _ _ _ _ Hp Hnil).
      destruct p; [discriminate|contradiction].
    - injection Hm as <- <- <-. split; [exact Hoc|]. discriminate.
    - injection Hm as <- <- <-. split; [exact Hoc|]. discriminate.
    - injection Hm as <- <- <-. split; [exact Hoc|]. discriminate. }
  destruct Hinner as [Hoc1 Hent]. split; [|exact Hent].
  apply cache_ok_store; assumption.
Qed.

Lemma processExpr_body_entry_ok : rec_ok (processExpr_body rec).
Proof.
  intros oc info pkgPath expr varName oc' item errs Hoc. unfold processExpr_body.
  destruct (qualifiedIdentObject info (Some (Unparen expr))) as [obj|].
  { destruct (get rec oc obj) as [[oc1 [item1 errs1]]|msg|] eqn:Hget; simpl;
      try discriminate.
    intros [= <- <- <-]. destruct (get_entry_ok _ _ _ _ _ Hoc Hget) as [Hoc1 Hent].
    split; [exact Hoc1|]. intros Hnil. apply Hent.
    unfold mapErrors in Hnil. destruct errs1; [reflexivity|discriminate]. }
  assert (Hstruct :
    match structArgType info (Unparen expr) with
    | Some tn =>
        let* '(p, errs0) := processStructProvider (oc_fset oc) tn in
        if bool_decide (0 < length errs0)
        then Ok (oc, (None, notePositionAll
                              (FileSet_Position (oc_fset oc) (Node_Pos expr)) errs0))
        else Ok (oc, (ItemProvider <$> p, []))
    | None =>
        Ok (oc, (None, [notePosition (FileSet_Position (oc_fset oc) (Node_Pos expr))
                          (errors_New "unknown pattern")]))
    end = Ok (oc', (item, errs)) -> cache_ok oc' /\ entry_ok item errs).
  { destruct (structArgType info (Unparen expr)) as [tn|].
    - destruct (processStructProvider (oc_fset oc) tn) as [[p errs0]|msg|] eqn:Hp;
        simpl; try discriminate.
      case_bool_decide as Hlen.
      + intros [= <- <- <-]. split; [exact Hoc|].
        intros Hnil. unfold notePositionAll, mapErrors in Hnil.
        destruct errs0; [simpl in Hlen; lia|discriminate].
      + intros [= <- <- <-]. split; [exact Hoc|]. intros _.
        assert (errs0 = []) as -> by (destruct errs0; simpl in Hlen; [reflexivity|lia]).
        pose proof (processStructProvider_entry_ok _ _ _ _ Hp eq_refl).
        destruct p; [discriminate|contradiction].
    - intros [= <- <- <-]. split; [exact Hoc|]. discriminate. }
  destruct (Unparen expr); try exact Hstruct.
  clear Hstruct.
  match goal with
  | |- context [qualifiedIdentObject info (Some ?fn)] =>
      destruct (qualifiedIdentObject info (Some fn)) as [fnObj|]
  end.
  2:{ intros [= <- <- <-]. split; [exact Hoc|]. discriminate. }
  destruct (Object_Pkg fnObj) as [fnPkg|]; simpl; [|discriminate].
  destruct (isWireImport (Package_Path fnPkg)); simpl.
  2:{ intros [= <- <- <-]. split; [exact Hoc|]. discriminate. }
  repeat case_decide.
  - destruct (processNewSet rec oc info pkgPath _ None varName)
      as [[oc1 [pset errs1]]|msg|] eqn:Hns; simpl; try discriminate.
    intros [= <- <- <-].
    destruct (processNewSet_entry_ok _ _ _ _ _ _ _ _ _ Hoc Hns) as [Hoc1 Hent].
    split; [exact Hoc1|]. intros Hnil.
    unfold notePositionAll, mapErrors in Hnil.
    assert (errs1 = []) as -> by (destruct errs1; [reflexivity|discriminate]).
    specialize (Hent eq_refl). destruct pset; [discriminate|contradiction].
  - destruct (processBind_result (oc_fset oc) info {| Fun := n; Call_Args := args |})
      as [[b ->]|[e ->]]; intros [= <- <- <-]; (split; [exact Hoc|]);
      [intros _|]; discriminate.
  - destruct (processValue_result (oc_fset oc) info {| Fun := n; Call_Args := args |})
      as [[v ->]|[e ->]]; intros [= <- <- <-]; (split; [exact Hoc|]);
      [intros _|]; discriminate.
  - destruct (processInterfaceValue_result (oc_fset oc) info
                {| Fun := n; Call_Args := args |})
      as [[v ->]|[e ->]]; intros [= <- <- <-]; (split; [exact Hoc|]);
      [intros _|]; discriminate.
  - intros [= <- <- <-]. split; [exact Hoc|]. discriminate.
Qed.

End MethodFacts.

(** Whatever the fuel, [oc.processExpr] returns errors or an item, and it
    keeps the entries of the object cache well formed. *)
Lemma processExpr_entry_ok (fuel : nat) : rec_ok (processExpr fuel).
Proof.
  induction fuel as [|fuel IH].
  - intros oc info pkgPath expr varName oc' item errs _. discriminate.
  - simpl. apply processExpr_body_entry_ok. exact IH.
Qed.

Section NewSet.
Variable rec : objectCache -> Info -> string -> Node -> string ->
               result (objectCache * (option Item * list error)).

Lemma argResults_length info pkgPath args : forall oc oc' rs,
  argResults rec info pkgPath args oc = Ok (oc', rs) -> length rs = length args.
Proof.
  induction args as [|arg rest IH]; intros oc oc' rs; simpl.
  - intros [= <- <-]. reflexivity.
  - destruct (rec oc info pkgPath arg EmptyString) as [[oc1 r]|msg|]; simpl; try discriminate.
    destruct (argResults rec info pkgPath rest oc1) as [[oc2 rs']|msg|] eqn:Hrest;
      simpl; try discriminate.
    intros [= <- <-]. simpl. f_equal. eapply IH; eauto.
Qed.

Lemma processNewSet_args_spec info pkgPath args : forall oc pset ec oc' rs,
  argResults rec info pkgPath args oc = Ok (oc', rs) ->
  Forall (fun r => snd r = [] -> fst r <> None) rs ->
  exists pset',
    processNewSet_args rec info pkgPath args oc pset ec =
      Ok (oc', pset', {| errors := errors ec ++ concat (map snd rs) |}).
Proof.
  induction args as [|arg rest IH]; intros oc pset ec oc' rs; simpl.
  - intros [= <- <-] _. exists pset. simpl. rewrite app_nil_r. destruct ec; reflexivity.
  - destruct (rec oc info pkgPath arg EmptyString) as [[oc1 [item errs]]|msg|]; simpl;
      try discriminate.
    destruct (argResults rec info pkgPath rest oc1) as [[oc2 rs']|msg|] eqn:Hrest;
      simpl; try discriminate.
    intros [= <- <-] Hall. inversion Hall as [|? ? Hr Hall']; subst. simpl in *.
    case_bool_decide as Hlen.
    + destruct (IH oc1 pset (errorCollector_add ec errs) oc2 rs' Hrest Hall')
        as [pset' Hres].
      exists pset'. rewrite Hres. simpl. rewrite <- app_assoc. reflexivity.
    + assert (errs = []) as -> by (destruct errs; simpl in Hlen; [reflexivity|lia]).
      destruct item as [item|]; [|exfalso; apply Hr; reflexivity].
      destruct (IH oc1 (ProviderSet_append pset item) ec oc2 rs' Hrest Hall')
        as [pset' Hres].
      exists pset'. rewrite Hres. reflexivity.
Qed.

(** The loop of [processNewSet], for any function in the place of
    [oc.processExpr] that returns errors or an item. *)
Lemma processNewSet_args_collect (oc : objectCache) (info : Info)
    (pkgPath : string) (call : CallExprT) (injectorArgs : option InjectorArgs)
    (varName : string) (oc' : objectCache) (rs : list (option Item * list error)) :
  argResults rec info pkgPath (Call_Args call) oc = Ok (oc', rs) ->
  Forall (fun r => snd r = [] -> fst r <> None) rs ->
  Exists (fun r => failed r = true) rs ->
  processNewSet rec oc info pkgPath call injectorArgs varName =
    Ok (oc', (None, concat (map snd rs))) /\
  length rs = length (Call_Args call) /\
  length (List.filter failed rs) <= length (concat (map snd rs)).
Proof.
  intros Hrs Hall Hex. split; [|split].
  - unfold processNewSet.
    edestruct (processNewSet_args_spec info pkgPath (Call_Args call) oc) as [pset' ->];
      [exact Hrs|exact Hall|].
    simpl. case_bool_decide as Hlen; [reflexivity|].
    exfalso. apply Hlen. clear Hlen Hrs Hall.
    induction Hex as [r rs Hr|r rs _ IH]; simpl; rewrite length_app.
    + unfold failed in Hr. apply bool_decide_eq_true in Hr. lia.
    + lia.
  - eapply argResults_length; eauto.
  - clear. induction rs as [|r rs IH]; simpl; [lia|].
    rewrite length_app. unfold failed at 1.
    case_bool_decide; simpl; lia.
Qed.

(** C8.  Whenever [processNewSet] returns a non-empty list of errors, be it
    from the arguments of the call, from [buildProviderMap] or from
    [verifyAcyclic], the provider set it returns is nil; it returns a set
    only with an empty list of errors. *)
Theorem processNewSet_no_partial_set (oc : objectCache) (info : Info)
    (pkgPath : string) (call : CallExprT) (injectorArgs : option InjectorArgs)
    (varName : string) (oc' : objectCache) (pset : option ProviderSet)
    (errs : list error) :
  processNewSet rec oc info pkgPath call injectorArgs varName = Ok (oc', (pset, errs)) ->
  (errs <> [] -> pset = None) /\
  (errs = [] -> exists set, pset = Some set).
Proof.
  unfold processNewSet.
  destruct (processNewSet_args _ _ _ _ _ _ _) as [[[oc1 pset1] ec1]|msg|]; simpl;
    try discriminate.
  case_bool_decide as Hec.
  { intros [= <- <- <-]. split; [reflexivity|].
    intros Hnil. rewrite Hnil in Hec. simpl in Hec. lia. }
  destruct (buildProviderMap _ _ _) as [[[pm sm] errs1]|msg|]; simpl; try discriminate.
  case_bool_decide as Hbuild.
  { intros [= <- <- <-]. split; [reflexivity|].
    intros Hnil. rewrite Hnil in Hbuild. simpl in Hbuild. lia. }
  destruct (verifyAcyclic _ _) as [errs2|msg|]; simpl; try discriminate.
  case_bool_decide as Hcyc.
  { intros [= <- <- <-]. split; [reflexivity|].
    intros Hnil. rewrite Hnil in Hcyc. simpl in Hcyc. lia. }
  intros [= <- <- <-]. split; [congruence|eauto].
Qed.

End NewSet.

Lemma argResults_entry_ok rec info pkgPath args :
  rec_ok rec ->
  forall oc oc' rs,
    cache_ok oc ->
    argResults rec info pkgPath args oc = Ok (oc', rs) ->
    Forall (fun r => snd r = [] -> fst r <> None) rs.
Proof.
  intros Hrec. induction args as [|arg rest IH]; intros oc oc' rs Hoc; simpl.
  - intros [= <- <-]. apply List.Forall_nil.
  - destruct (rec oc info pkgPath arg EmptyString) as [[oc1 [item errs]]|msg|] eqn:Hr;
      simpl; try discriminate.
    destruct (argResults rec info pkgPath rest oc1) as [[oc2 rs']|msg|] eqn:Hrest;
      simpl; try discriminate.
    intros [= <- <-].
    destruct (Hrec _ _ _ _ _ _ _ _ Hoc Hr) as [Hoc1 Hent].
    apply List.Forall_cons; [exact Hent|]. eapply IH; eauto.
Qed.

(** C7.  When the arguments of a [wire.NewSet] or [wire.Build] call are
    processed, starting from a well-formed object cache, and at least one of
    them fails, every argument has been processed, and the errors returned
    are the errors of all the failing arguments together, in the order of the
    arguments: at least one entry for each failing argument.  No provider set
    is returned. *)
Theorem processNewSet_collects_errors (fuel : nat) (oc : objectCache) (info : Info)
    (pkgPath : string) (call : CallExprT) (injectorArgs : option InjectorArgs)
    (varName : string) (oc' : objectCache) (rs : list (option Item * list error)) :
  cache_ok oc ->
  argResults (processExpr fuel) info pkgPath (Call_Args call) oc = Ok (oc', rs) ->
  Exists (fun r => failed r = true) rs ->
  processNewSet (processExpr fuel) oc info pkgPath call injectorArgs varName =
    Ok (oc', (None, concat (map snd rs))) /\
  length rs = length (Call_Args call) /\
  length (List.filter failed rs) <= length (concat (map snd rs)).
Proof.
  intros Hoc Hrs Hex.
  apply processNewSet_args_collect; [exact Hrs| |exact Hex].
  eapply argResults_entry_ok; [apply processExpr_entry_ok|exact Hoc|exact Hrs].
Qed.


End ParseFacts.

(* ------------------------------------------------------------------ *)
(** ** The properties at work on a concrete package *)

Module Examples.
Import Toy.

(** Case analysis on the nodes of a concrete syntax tree. *)
Ltac contains_cases :=
  repeat match goal with
         | H : False |- _ => destruct H
         | H : _ = _ \/ _ |- _ => destruct H as [<-|H]
         | H : In _ (children _) |- _ => progress simpl in H
         | H : contains ?n _ |- _ =>
             tryif is_var n then fail
             else apply contains_children in H as [->|(?c & ?Hin & ?Hc)]
         end.

(** [funcOutput] accepts the signature of [OpenFile], whose results are
    [(File, func(), error)], and sets both flags. *)
Lemma funcOutput_spec_witness :
  (forall t : ty, Identical t errorType = true -> Identical t cleanupType = false) /\
  snd (funcOutput (Func_Type OpenFile)) = None /\
  exists r0 rest, Results (Func_Type OpenFile) = r0 :: rest /\
    out (fst (funcOutput (Func_Type OpenFile))) = Some (Var_Type r0) /\
    err (fst (funcOutput (Func_Type OpenFile))) =
      existsb (fun r => Identical (Var_Type r) errorType) rest /\
    cleanup (fst (funcOutput (Func_Type OpenFile))) =
      existsb (fun r => Identical (Var_Type r) cleanupType) rest.
Proof.
  assert (Hdistinct : forall t : ty,
            Identical t errorType = true -> Identical t cleanupType = false).
  { intros t. destruct t; simpl; try discriminate; reflexivity. }
  split; [exact Hdistinct|]. split; [reflexivity|].
  apply (proj2 (funcOutput_spec (Func_Type OpenFile) Hdistinct)). reflexivity.
Defined.

Example funcOutput_OpenFile :
  funcOutput (Func_Type OpenFile) =
    ({| out := Some File; cleanup := true; err := true |}, None).
Proof. reflexivity. Qed.

Example funcOutput_NewNothing :
  funcOutput (Func_Type NewNothing) =
    (outputSignature_zero, Some (errorString "no return values")).
Proof. reflexivity. Qed.

(** [NewPair(a int, b int) Pair] has two parameters of type [int]. *)
Lemma duplicate_inputs_rejected_witness :
  hasDuplicate (map Var_Type (Params (Func_Type NewPair))) /\
  exists e,
    processFuncProvider fset NewPair =
      Ok (None, [notePosition (FileSet_Position fset (Func_Pos NewPair)) e]) /\
    (snd (funcOutput (Func_Type NewPair)) = None ->
     exists i j a b, j < i /\
       map Var_Type (Params (Func_Type NewPair)) !! i = Some a /\
       map Var_Type (Params (Func_Type NewPair)) !! j = Some b /\
       Identical a b = true /\
       e = errorString ("provider has multiple parameters of type " +:+ TypeString b)).
Proof.
  assert (Hdup : hasDuplicate (map Var_Type (Params (Func_Type NewPair)))).
  { exists 1, 0. split; [lia|]. exists Int, Int. repeat split. }
  split; [exact Hdup|].
  apply (proj1 (proj1 (duplicate_inputs_rejected fset) NewPair)). exact Hdup.
Defined.

(** C3 as stated fails for [NewNothing(a int, b int)]: the function has two
    parameters of type [int], but it is rejected for its missing results and
    not with "provider has multiple parameters of type T". *)
Lemma duplicate_inputs_counterexample :
  hasDuplicate (map Var_Type (Params (Func_Type NewNothing))) /\
  processFuncProvider fset NewNothing =
    Ok (None, [notePosition (FileSet_Position fset (Func_Pos NewNothing))
                 (errorString "wrong signature for provider NewNothing: no return values")]) /\
  forall t : ty,
    processFuncProvider fset NewNothing <>
      Ok (None, [notePosition (FileSet_Position fset (Func_Pos NewNothing))
                   (errorString ("provider has multiple parameters of type "
                                 +:+ TypeString t))]).
Proof.
  split; [|split].
  - exists 1, 0. split; [lia|]. exists Int, Int. repeat split.
  - reflexivity.
  - intros t Heq. simpl in Heq. discriminate Heq.
Defined.

(** The struct provider for [File]. *)
Lemma struct_provider_shape_witness :
  exists p,
    processStructProvider fset (typeName "File" 30 File) = Ok (Some p, []) /\
    exists st, kind (Underlying File) = KStruct st /\
      Out p = [Some File; Some (NewPointer File)] /\
      map ProviderInput_Type (Args p) = map (fun f => Some (Var_Type f)) st /\
      Fields p = map Var_Name st /\
      length (Args p) = length st /\
      length (Fields p) = length st /\
      HasCleanup p = false /\
      HasErr p = false /\
      @nil error = [].
Proof.
  eexists. split; [reflexivity|].
  apply (struct_provider_shape fset (typeName "File" 30 File)). reflexivity.
Defined.

Example processStructProvider_File :
  processStructProvider fset (typeName "File" 30 File) =
    Ok (Some {| Provider_Pkg := Some appPkg; Provider_Name := "File"; Provider_Pos := 30;
                Args := [{| ProviderInput_Type := Some Str |};
                         {| ProviderInput_Type := Some Int |}];
                IsStruct := true; Fields := ["Name"; "Size"];
                Out := [Some File; Some (Ptr File)];
                HasCleanup := false; HasErr := false |}, []).
Proof. reflexivity. Qed.

(** [wire.Bind(new(Reader), file)]: [File] implements [Reader]. *)
Lemma processBind_spec_witness :
  Call_Args bindCall = [CallExpr (Ident 810 "new") [Ident 814 "Reader"]; Ident 823 "file"] /\
  kind (TypeOf info (CallExpr (Ident 810 "new") [Ident 814 "Reader"])) = KPointer Reader /\
  kind (Underlying Reader) = KInterface ["Read"] /\
  (Identical Reader File = true -> Implements File ["Read"] = true) /\
  Implements File ["Read"] = true /\
  Identical Reader File = false /\
  exists b, processBind fset info bindCall = (Some b, None) /\
    Iface b = Reader /\ Provided b = File /\
    IfaceBinding_Pos b = Call_Pos bindCall /\
    Implements (Provided b) ["Read"] = true.
Proof.
  repeat (split; [reflexivity|]).
  apply (processBind_spec fset info bindCall
           (CallExpr (Ident 810 "new") [Ident 814 "Reader"]) (Ident 823 "file")
           Reader ["Read"]); reflexivity.
Defined.


Example processValue_fileLit :
  processValue fset info (wireCall 610 "Value" [fileLit]) =
    (Some {| Value_Pos := 640; Value_Out := File; Value_expr := fileLit; Value_info := info |},
     None).
Proof. reflexivity. Qed.


(** [wire.Value(rd)], where [rd] has the interface type [Reader]. *)
Lemma processValue_interface_witness :
  Call_Args (wireCall 610 "Value" [Ident 620 "rd"]) = [Ident 620 "rd"] /\
  kind (Underlying (TypeOf info (Ident 620 "rd"))) = KInterface ["Read"] /\
  (forall m, contains (Ident 620 "rd") m -> isRejected info m = false) /\
  processValue fset info (wireCall 610 "Value" [Ident 620 "rd"]) =
    (None, Some (notePosition (FileSet_Position fset 610)
                   (errorString ("argument to Value may not be an interface value (found "
                                 +:+ TypeString Reader +:+
                                 "); use InterfaceValue instead")))).
Proof.
  assert (Hsimple : forall m, contains (Ident 620 "rd") m -> isRejected info m = false).
  { intros m Hm. contains_cases. reflexivity. }
  split; [reflexivity|]. split; [reflexivity|]. split; [exact Hsimple|].
  apply (proj1 (processValue_interface fset info
                  (wireCall 610 "Value" [Ident 620 "rd"]) (Ident 620 "rd") eq_refl)
           ["Read"] eq_refl).
  exact Hsimple.
Defined.

(** C10 as stated fails for [wire.Value(<-ch)], where [ch] is a channel of
    [Reader]: the argument has an interface type, but the call is rejected as
    too complex and not with the error about [wire.InterfaceValue]. *)
Lemma processValue_interface_counterexample :
  Call_Args (wireCall 610 "Value" [receive]) = [receive] /\
  kind (Underlying (TypeOf info receive)) = KInterface ["Read"] /\
  processValue fset info (wireCall 610 "Value" [receive]) =
    (None, Some (notePosition (FileSet_Position fset 610)
                   (errors_New "argument to Value is too complex"))) /\
  processValue fset info (wireCall 610 "Value" [receive]) <>
    (None, Some (notePosition (FileSet_Position fset 610)
                   (errorString ("argument to Value may not be an interface value (found "
                                 +:+ TypeString Reader +:+
                                 "); use InterfaceValue instead")))).
Proof.
  repeat (split; [reflexivity|]).
  intros Heq. simpl in Heq. discriminate Heq.
Defined.

(** [Int] is not a key of the merged index of [fileSet]. *)
Lemma ProvidedType_accessors_witness :
  (forall k, In k (Outputs fileSet) -> Identical Int k = false) /\
  For fileSet Int = ProvidedType_zero /\
  IsNil (For fileSet Int) = true /\
  IsProvider (For fileSet Int) = false /\
  IsValue (For fileSet Int) = false /\
  IsArg (For fileSet Int) = false.
Proof.
  assert (Habsent : forall k, In k (Outputs fileSet) -> Identical Int k = false).
  { intros k [<-|[]]. reflexivity. }
  split; [exact Habsent|].
  apply (proj1 ProvidedType_accessors fileSet Int Habsent).
Defined.

Example For_fileSet_File :
  IsArg (For fileSet File) = true /\
  ProvidedType_Arg (For fileSet File) = Ok {| InjectorArg_Args := None; Index := 0 |} /\
  ProvidedType_Provider (For fileSet File) = Panic "ProvidedType does not hold a Provider".
Proof. repeat split. Qed.

(** [wire.NewSet(NewFile, wire.Value(<-ch), NewPair, File{...})]: the second
    and the third argument fail, and both errors are returned. *)
Lemma processNewSet_collects_errors_witness :
  exists oc' rs,
    cache_ok oc /\
    argResults (processExpr 1) info "example.com/app" (Call_Args newSetCall) oc =
      Ok (oc', rs) /\
    Exists (fun r => failed r = true) rs /\
    processNewSet (processExpr 1) oc info "example.com/app" newSetCall None "Set" =
      Ok (oc', (None, concat (map snd rs))) /\
    length rs = length (Call_Args newSetCall) /\
    length (List.filter failed rs) <= length (concat (map snd rs)).
Proof.
  eexists. eexists.
  assert (Hoc : cache_ok oc).
  { intros ref ent Hent. unfold oc in Hent. simpl in Hent.
    rewrite lookup_empty in Hent. discriminate. }
  match goal with
  | |- _ /\ ?A /\ ?C /\ _ =>
      assert (Hrs : A) by reflexivity;
      assert (Hex : C)
        by (apply List.Exists_cons_tl; apply List.Exists_cons_hd; reflexivity)
  end.
  split; [exact Hoc|]. split; [exact Hrs|]. split; [exact Hex|].
  apply (processNewSet_collects_errors 1 oc info "example.com/app"
           newSetCall None "Set" _ _ Hoc Hrs Hex).
Defined.

Example processNewSet_newSetCall_errors :
  match processNewSet (processExpr 1) oc info "example.com/app" newSetCall None "Set" with
  | Ok (_, r) =>
      r = (None,
           [wireErr (errorString "argument to Value is too complex")
              (FileSet_Position fset 610);
            wireErr (errorString "provider has multiple parameters of type int")
              (FileSet_Position fset 200)])
  | _ => False
  end.
Proof. reflexivity. Qed.

(** The variable [Set] is processed through [oc.get], which leaves the result
    in the object cache. *)
Example processExpr_Set_cached :
  match processExpr 3 oc info "example.com/app" (Ident 900 "Set") EmptyString with
  | Ok (oc', (item, errs)) =>
      item = None /\ length errs = 2 /\
      match objects oc' !! ("example.com/app", "Set") with
      | Some ent => objCacheEntry_val ent = None /\ length (objCacheEntry_errs ent) = 2
      | None => False
      end
  | _ => False
  end.
Proof. vm_compute. repeat split. Qed.

(** With too little fuel for the declaration of [Set] the run is cut off. *)
Example processExpr_Set_fuel :
  processExpr 2 oc info "example.com/app" (Ident 900 "Set") EmptyString = OutOfFuel.
Proof. reflexivity. Qed.

(** The same call: errors and no provider set. *)
Lemma processNewSet_no_partial_set_witness :
  exists oc' pset errs,
    processNewSet (processExpr 1) oc info "example.com/app" newSetCall None "Set" =
      Ok (oc', (pset, errs)) /\
    errs <> [] /\
    pset = None.
Proof.
  eexists. eexists. eexists.
  match goal with
  | |- ?A /\ ?B /\ _ =>
      assert (Hres : A) by reflexivity;
      assert (Herrs : B) by (simpl; discriminate)
  end.
  split; [exact Hres|]. split; [exact Herrs|].
  apply (proj1 (processNewSet_no_partial_set (processExpr 1) oc info "example.com/app"
                  newSetCall None "Set" _ _ _ Hres) Herrs).
Defined.

End Examples.

(* ================================================================== *)
(** * Further properties *)
(* ================================================================== *)

(* ------------------------------------------------------------------ *)
(** ** Function and struct providers *)

Section ProviderFacts.
Context {GT : GoTypes} {WE : WireEnv}.

(** The provider made for a function carries the function's package, name
    and position, one input per parameter, in order, the type of the first
    result as its only output, and the flags that [funcOutput] computed; it
    is made only for a function whose results have a legal shape and whose
    parameter types are pairwise distinct. *)
Theorem processFuncProvider_shape (fset : FileSet) (fn : Func) (p : Provider)
    (errs : list error) :
  processFuncProvider fset fn = Ok (Some p, errs) ->
  let sig := Func_Type fn in
  snd (funcOutput sig) = None /\
  ~ hasDuplicate (map Var_Type (Params sig)) /\
  Provider_Pkg p = Func_Pkg fn /\
  Provider_Name p = Func_Name fn /\
  Provider_Pos p = Func_Pos fn /\
  map ProviderInput_Type (Args p) = map (fun v => Some (Var_Type v)) (Params sig) /\
  Out p = [out (fst (funcOutput sig))] /\
  HasCleanup p = cleanup (fst (funcOutput sig)) /\
  HasErr p = err (fst (funcOutput sig)) /\
  IsStruct p = false /\
  Fields p = [] /\
  errs = [].
Proof.
  intros Hres sig. subst sig.
  destruct (snd (funcOutput (Func_Type fn))) as [ferr|] eqn:Hsig.
  { unfold processFuncProvider in Hres.
    destruct (funcOutput (Func_Type fn)) as [providerSig ferr']. simpl in Hsig.
    subst ferr'. discriminate. }
  split; [reflexivity|].
  destruct (processFuncProvider_cases fset fn Hsig)
    as [[Hno Hok]|(i & j & a & b & _ & _ & _ & _ & Herr)].
  - rewrite Hok in Hres. injection Hres as <- <-. simpl.
    unfold inputsOf. rewrite map_map. simpl. auto 12.
  - rewrite Herr in Hres. discriminate.
Qed.

(** [processFuncProvider] and [processStructProvider] never panic: the
    indices of their loops stay within range.  Each of them returns either a
    provider and no error, or no provider and exactly one error: the first
    problem found ends the function. *)
Theorem providers_first_error_only (fset : FileSet) :
  (forall fn : Func,
     (exists p, processFuncProvider fset fn = Ok (Some p, [])) \/
     (exists e, processFuncProvider fset fn = Ok (None, [e]))) /\
  (forall tn : TypeName,
     (exists p, processStructProvider fset tn = Ok (Some p, [])) \/
     (exists e, processStructProvider fset tn = Ok (None, [e]))).
Proof.
  split.
  - intros fn.
    destruct (snd (funcOutput (Func_Type fn))) as [ferr|] eqn:Hsig.
    + right. unfold processFuncProvider.
      destruct (funcOutput (Func_Type fn)) as [providerSig ferr']. simpl in Hsig.
      subst ferr'. eauto.
    + destruct (processFuncProvider_cases fset fn Hsig)
        as [[_ Hok]|(i & j & a & b & _ & _ & _ & _ & Herr)]; eauto.
  - intros tn.
    destruct (kind (Underlying (TypeName_Type tn))) as [| |st| | |] eqn:Hk;
      try (right; unfold processStructProvider; rewrite Hk; eauto; fail).
    destruct (processStructProvider_cases fset tn st Hk)
      as [[_ Hok]|(i & j & a & b & _ & _ & _ & _ & Herr)]; eauto.
Qed.

End ProviderFacts.

(* ------------------------------------------------------------------ *)
(** ** Import paths *)

Section StringFacts.

(** The part of a string from index [k] on, [s[k:]]. *)
Local Abbreviation suffixFrom k s := (String.substring k (String.length s - k) s).

Lemma string_app_cons (c : ascii) (a b : string) :
  String c a +:+ b = String c (a +:+ b).
Proof. reflexivity. Qed.

Lemma string_app_nil_l (b : string) : EmptyString +:+ b = b.
Proof. reflexivity. Qed.

Lemma string_length_app (a b : string) :
  String.length (a +:+ b) = String.length a + String.length b.
Proof. induction a as [|c a IH]; [reflexivity|]. rewrite !string_app_cons. simpl. f_equal. exact IH. Qed.

Lemma string_app_nil_r (a : string) : a +:+ EmptyString = a.
Proof. induction a as [|c a IH]; [reflexivity|]. rewrite !string_app_cons. simpl. f_equal. exact IH. Qed.

Lemma string_app_assoc (a b c : string) : (a +:+ b) +:+ c = a +:+ (b +:+ c).
Proof. induction a as [|x a IH]; [reflexivity|]. rewrite !string_app_cons. f_equal. exact IH. Qed.

Lemma substring_all (s : string) : String.substring 0 (String.length s) s = s.
Proof. induction s as [|c s IH]; simpl; [reflexivity|]. f_equal. exact IH. Qed.

Lemma substring_length (s : string) (n m : nat) :
  String.length (String.substring n m s) = Nat.min m (String.length s - n).
Proof.
  revert n m. induction s as [|c s IH]; intros [|n] [|m]; simpl; try reflexivity.
  - rewrite IH. rewrite Nat.sub_0_r. reflexivity.
  - rewrite IH. reflexivity.
  - rewrite IH. reflexivity.
Qed.

Lemma substring_zero (n : nat) (s : string) : String.substring n 0 s = EmptyString.
Proof.
  revert n. induction s as [|c s IH]; intros [|n]; simpl; auto.
Qed.

Lemma suffixFrom_app (a b : string) (j : nat) :
  suffixFrom (String.length a + j) (a +:+ b) = suffixFrom j b.
Proof.
  induction a as [|c a IH]; [reflexivity|]. rewrite string_app_cons. simpl. exact IH.
Qed.

Lemma substring_split (s : string) (k : nat) :
  k <= String.length s ->
  s = String.substring 0 k s +:+ suffixFrom k s.
Proof.
  revert k. induction s as [|c s IH]; intros [|k] Hk; simpl in *; try lia.
  - reflexivity.
  - rewrite string_app_nil_l, substring_all. reflexivity.
  - rewrite string_app_cons, <- (IH k) by lia. reflexivity.
Qed.

Lemma substring_prefix_length (s : string) (k : nat) :
  k <= String.length s -> String.length (String.substring 0 k s) = k.
Proof.
  revert k. induction s as [|c s IH]; intros [|k] Hk; simpl in *; try lia.
  rewrite IH by lia. reflexivity.
Qed.

Lemma prefix_app (a b : string) : String.prefix a (a +:+ b) = true.
Proof.
  induction a as [|c a IH]; [destruct b; reflexivity|].
  rewrite string_app_cons. simpl.
  destruct (ascii_dec c c); [exact IH|contradiction].
Qed.

Lemma prefix_split (a s : string) :
  String.prefix a s = true -> s = a +:+ suffixFrom (String.length a) s.
Proof.
  revert s. induction a as [|c a IH]; intros s Hp; simpl.
  - rewrite string_app_nil_l, Nat.sub_0_r, substring_all. reflexivity.
  - destruct s as [|d s]; simpl in *; [discriminate|].
    destruct (ascii_dec c d) as [->|]; [|discriminate].
    rewrite string_app_cons, <- (IH s Hp). reflexivity.
Qed.

Lemma prefix_length (a s : string) :
  String.prefix a s = true -> String.length a <= String.length s.
Proof.
  revert s. induction a as [|c a IH]; intros s Hp; simpl; [lia|].
  destruct s as [|d s]; simpl in *; [discriminate|].
  destruct (ascii_dec c d); [|discriminate]. specialize (IH s Hp). lia.
Qed.

Lemma suffixFrom_suffixFrom (s : string) (i j : nat) :
  i <= String.length s ->
  suffixFrom j (suffixFrom i s) = suffixFrom (i + j) s.
Proof.
  intros Hi.
  pose proof (substring_split s i Hi) as Hs.
  pose proof (substring_prefix_length s i Hi) as Hlen.
  remember (String.substring 0 i s) as a eqn:Ha.
  remember (suffixFrom i s) as b eqn:Hb.
  clear Ha Hb. subst s i. rewrite suffixFrom_app. reflexivity.
Qed.

Lemma substring_last (s : string) (k : nat) (c : ascii) :
  String.get k s = Some c ->
  String.substring 0 (Datatypes.S k) s = String.substring 0 k s +:+ String c EmptyString.
Proof.
  revert k. induction s as [|d s IH]; intros k Hget; simpl in *; [discriminate|].
  destruct k as [|k]; simpl.
  - injection Hget as ->. rewrite substring_zero. reflexivity.
  - rewrite string_app_cons, (IH k Hget). reflexivity.
Qed.

Lemma get_app_last (a b : string) (c : ascii) :
  String.get (String.length a) ((a +:+ String c EmptyString) +:+ b) = Some c.
Proof.
  induction a as [|d a IH]; [reflexivity|]. rewrite !string_app_cons. simpl. exact IH.
Qed.

Lemma LastIndex_from_Some (s sub : string) (i k : nat) :
  LastIndex_from s sub i = Some k ->
  k <= i /\ String.prefix sub (suffixFrom k s) = true /\
  forall j, k < j <= i -> String.prefix sub (suffixFrom j s) = false.
Proof.
  induction i as [|i IH]; simpl.
  - destruct (String.prefix sub _) eqn:Hp; [|discriminate].
    intros [= <-]. split; [lia|]. split; [exact Hp|]. intros j Hj. lia.
  - destruct (String.prefix sub (String.substring (Datatypes.S i) _ s)) eqn:Hp.
    + intros [= <-]. split; [lia|]. split; [exact Hp|]. intros j Hj. lia.
    + intros Hk. destruct (IH Hk) as (Hle & Hpk & Hlast).
      split; [lia|]. split; [exact Hpk|].
      intros j Hj. destruct (decide (j = Datatypes.S i)) as [->|]; [exact Hp|].
      apply Hlast. lia.
Qed.

Lemma LastIndex_from_None (s sub : string) (i : nat) :
  LastIndex_from s sub i = None ->
  forall j, j <= i -> String.prefix sub (suffixFrom j s) = false.
Proof.
  induction i as [|i IH]; simpl.
  - destruct (String.prefix sub _) eqn:Hp; [discriminate|].
    intros _ j Hj. replace j with 0 by lia. exact Hp.
  - destruct (String.prefix sub (String.substring (Datatypes.S i) _ s)) eqn:Hp;
      [discriminate|].
    intros Hk j Hj. destruct (decide (j = Datatypes.S i)) as [->|]; [exact Hp|].
    apply IH; [exact Hk|lia].
Qed.

(** [strings.LastIndex] finds an instance of the substring, and the last
    one. *)
Lemma LastIndex_Some (s sub : string) (k : nat) :
  LastIndex s sub = Some k ->
  k + String.length sub <= String.length s /\
  String.prefix sub (suffixFrom k s) = true /\
  s = String.substring 0 k s +:+ sub +:+ suffixFrom (k + String.length sub) s /\
  forall j, k < j <= String.length s -> String.prefix sub (suffixFrom j s) = false.
Proof.
  unfold LastIndex. case_decide as Hlen; [|discriminate].
  intros Hk. apply LastIndex_from_Some in Hk as (Hle & Hp & Hlast).
  split; [lia|]. split; [exact Hp|]. split.
  - rewrite (substring_split s k) at 1 by lia. f_equal.
    rewrite (prefix_split _ _ Hp) at 1. f_equal.
    rewrite suffixFrom_suffixFrom by lia. reflexivity.
  - intros j Hj.
    destruct (decide (j <= String.length s - String.length sub)) as [Hin|Hout].
    + apply Hlast. lia.
    + destruct (String.prefix sub (suffixFrom j s)) eqn:Hpj; [|reflexivity].
      apply prefix_length in Hpj. rewrite substring_length in Hpj. lia.
Qed.

Lemma LastIndex_None (s sub : string) :
  LastIndex s sub = None ->
  forall j, j <= String.length s -> String.prefix sub (suffixFrom j s) = false.
Proof.
  unfold LastIndex. intros Hk j Hj.
  destruct (String.prefix sub (suffixFrom j s)) eqn:Hpj; [|reflexivity].
  pose proof (prefix_length _ _ Hpj) as Hl. rewrite substring_length in Hl.
  case_decide as Hlen; [|lia].
  rewrite (LastIndex_from_None _ _ _ Hk j) in Hpj by lia. discriminate.
Qed.


(** [isWireImport] holds of the import path of package [wire] and of the
    paths under which a [vendor] directory holds a copy of it: the path
    itself, or the path preceded by [vendor/] at the start of the path or
    after a [/].  It holds of no other path. *)
Theorem isWireImport_spec (path : string) :
  isWireImport path = true <->
  path = "github.com/google/go-cloud/wire" \/
  exists dir, path = dir +:+ "vendor/github.com/google/go-cloud/wire" /\
    (dir = EmptyString \/ exists d, dir = d +:+ "/").
Proof.
  unfold isWireImport. split.
  - destruct (LastIndex path vendorPart) as [i|] eqn:HL.
    2:{ intros Hp. left. apply bool_decide_eq_true in Hp. exact Hp. }
    apply LastIndex_Some in HL as (Hlen & _ & Hsplit & _).
    destruct (bool_decide (i = 0) || bool_decide (String.get (i - 1) path = Some "/"%char))
      eqn:Hc.
    2:{ intros Hp. left. apply bool_decide_eq_true in Hp. exact Hp. }
    intros Hp. apply bool_decide_eq_true in Hp. right.
    exists (String.substring 0 i path). split.
    + rewrite Hsplit at 1. rewrite Hp. reflexivity.
    + apply orb_true_iff in Hc as [Hc|Hc]; apply bool_decide_eq_true in Hc.
      * left. subst i. apply substring_zero.
      * destruct i as [|k]; [left; apply substring_zero|]. right.
        exists (String.substring 0 k path). apply substring_last.
        simpl in Hc. rewrite Nat.sub_0_r in Hc. exact Hc.
  - intros [->|(dir & -> & Hdir)]; [reflexivity|].
    set (tail := "vendor/github.com/google/go-cloud/wire").
    assert (Hat : forall j, suffixFrom (String.length dir + j) (dir +:+ tail)
                            = suffixFrom j tail).
    { intros j. apply suffixFrom_app. }
    assert (Hhere : String.prefix vendorPart (suffixFrom (String.length dir) (dir +:+ tail))
                    = true).
    { rewrite <- (Nat.add_0_r (String.length dir)) at 1 2. rewrite Hat. reflexivity. }
    assert (Hlater : forall j, 1 <= j <= 31 ->
              String.prefix vendorPart (suffixFrom j tail) = false).
    { assert (Hall : forallb (fun j => negb (String.prefix vendorPart (suffixFrom j tail)))
                       (seq 1 31) = true) by (vm_compute; reflexivity).
      rewrite forallb_forall in Hall. intros j Hj.
      apply negb_true_iff. apply Hall. apply in_seq. lia. }
    assert (Hlenp : String.length (dir +:+ tail) = String.length dir + 38).
    { rewrite string_length_app. reflexivity. }
    destruct (LastIndex (dir +:+ tail) vendorPart) as [i|] eqn:HL.
    2:{ rewrite (LastIndex_None _ _ HL (String.length dir)) in Hhere by lia.
        discriminate. }
    apply LastIndex_Some in HL as (Hlen & Hpi & _ & Hlast).
    assert (i = String.length dir) as ->.
    { destruct (Nat.lt_trichotomy i (String.length dir)) as [Hlt|[Heq|Hgt]];
        [|exact Heq|].
      - rewrite (Hlast (String.length dir)) in Hhere by lia. discriminate.
      - replace i with (String.length dir + (i - String.length dir)) in Hpi by lia.
        rewrite Hat in Hpi. rewrite Hlater in Hpi; [discriminate|].
        simpl in Hlen. lia. }
    assert (Hcond : bool_decide (String.length dir = 0) ||
                    bool_decide (String.get (String.length dir - 1) (dir +:+ tail)
                                 = Some "/"%char) = true).
    { destruct Hdir as [->|[d ->]]; [reflexivity|].
      apply orb_true_iff. right. apply bool_decide_eq_true.
      rewrite string_length_app. simpl. rewrite Nat.add_sub.
      apply get_app_last. }
    rewrite Hcond. apply bool_decide_eq_true.
    rewrite Hat. reflexivity.
Qed.

End StringFacts.

(* ------------------------------------------------------------------ *)
(** ** Bindings and interface values *)

Ltac split_matches :=
  repeat match goal with
         | |- context [match ?x with _ => _ end] => destruct x
         end.

Section CallFacts.
Context {GT : GoTypes} {WE : WireEnv}.

(** [processBind] returns a binding exactly for a call with two arguments of
    which the first has a pointer type whose element has an interface type
    as its underlying type, and the type of the second is not identical to
    that element type and implements the interface; the binding then holds
    the two types and the position of the call.  For every other call it
    returns an error and no binding. *)
Theorem processBind_accepts_iff (fset : FileSet) (info : Info) (call : CallExprT) :
  (forall b, fst (processBind fset info call) = Some b <->
     exists arg0 arg1 ifaceType methodSet,
       Call_Args call = [arg0; arg1] /\
       kind (TypeOf info arg0) = KPointer ifaceType /\
       kind (Underlying ifaceType) = KInterface methodSet /\
       Identical ifaceType (TypeOf info arg1) = false /\
       Implements (TypeOf info arg1) methodSet = true /\
       b = {| Iface := ifaceType; Provided := TypeOf info arg1;
              IfaceBinding_Pos := Call_Pos call |}) /\
  (fst (processBind fset info call) = None <-> snd (processBind fset info call) <> None).
Proof.
  split.
  - intros b. split.
    + unfold processBind.
      destruct (Call_Args call) as [|arg0 [|arg1 [|arg2 rest]]]; simpl; try discriminate.
      destruct (kind (TypeOf info arg0)) as [ifaceType| | | | |] eqn:Hptr; simpl;
        try discriminate.
      destruct (kind (Underlying ifaceType)) as [|methodSet| | | |] eqn:Hiface; simpl;
        try discriminate.
      destruct (Identical ifaceType (TypeOf info arg1)) eqn:Hid; simpl; try discriminate.
      destruct (Implements (TypeOf info arg1) methodSet) eqn:Himpl; simpl;
        try discriminate.
      intros [= <-]. exists arg0, arg1, ifaceType, methodSet. auto 10.
    + intros (arg0 & arg1 & ifaceType & methodSet & Hargs & Hptr & Hiface & Hid & Himpl & ->).
      unfold processBind. rewrite Hargs, Hptr, Hiface, Hid, Himpl. reflexivity.
  - unfold processBind. split_matches; simpl; split; congruence.
Qed.

(** [processInterfaceValue] returns a value exactly for a call with two
    arguments of which the first has a pointer type whose element has an
    interface type as its underlying type, and the type of the second
    implements the interface.  The value has the interface type, not the
    type of the expression, and holds the second argument and its position.
    The expression itself is not inspected: an expression that [wire.Value]
    rejects as too complex is accepted. *)
Theorem processInterfaceValue_spec (fset : FileSet) (info : Info) (call : CallExprT) :
  (forall v, fst (processInterfaceValue fset info call) = Some v <->
     exists arg0 arg1 ifaceType methodSet,
       Call_Args call = [arg0; arg1] /\
       kind (TypeOf info arg0) = KPointer ifaceType /\
       kind (Underlying ifaceType) = KInterface methodSet /\
       Implements (TypeOf info arg1) methodSet = true /\
       v = {| Value_Pos := Node_Pos arg1; Value_Out := ifaceType;
              Value_expr := arg1; Value_info := info |}) /\
  (fst (processInterfaceValue fset info call) = None <->
   snd (processInterfaceValue fset info call) <> None).
Proof.
  split.
  - intros v. split.
    + unfold processInterfaceValue.
      destruct (Call_Args call) as [|arg0 [|arg1 [|arg2 rest]]]; simpl; try discriminate.
      destruct (kind (TypeOf info arg0)) as [ifaceType| | | | |] eqn:Hptr; simpl;
        try discriminate.
      destruct (kind (Underlying ifaceType)) as [|methodSet| | | |] eqn:Hiface; simpl;
        try discriminate.
      destruct (Implements (TypeOf info arg1) methodSet) eqn:Himpl; simpl;
        try discriminate.
      intros [= <-]. exists arg0, arg1, ifaceType, methodSet. auto 10.
    + intros (arg0 & arg1 & ifaceType & methodSet & Hargs & Hptr & Hiface & Himpl & ->).
      unfold processInterfaceValue. rewrite Hargs, Hptr, Hiface, Himpl. reflexivity.
  - unfold processInterfaceValue. split_matches; simpl; split; congruence.
Qed.

End CallFacts.

(* ------------------------------------------------------------------ *)
(** ** Injector templates *)

Section InjectorFacts.
Context {GT : GoTypes}.

Lemma isWireBuild_not_panic (info : Info) (fn : Node) :
  isWireBuild info fn = true ->
  isUniversePanic (qualifiedIdentObject info (Some fn)) = false.
Proof.
  unfold isWireBuild, isUniversePanic.
  destruct (qualifiedIdentObject info (Some fn)) as [[v|f|tn|pkg name pos|pkg name pos]|];
    try reflexivity.
  simpl. destruct pkg; [reflexivity|discriminate].
Qed.

Lemma stmtBuild_spec (info : Info) (x : Node) (call : CallExprT) :
  stmtBuild info x = Some call <-> buildStmt info x call.
Proof.
  unfold buildStmt. split.
  - unfold stmtBuild. destruct x; try discriminate.
    destruct (isUniversePanic (qualifiedIdentObject info (Some x))) eqn:Hpanic.
    + destruct args as [|[] [|]]; try discriminate.
      destruct (isWireBuild info _) eqn:Hb; [|discriminate].
      intros [= <-]. simpl. split; [exact Hb|]. right. eauto.
    + destruct (isWireBuild info x) eqn:Hb; [|discriminate].
      intros [= <-]. simpl. split; [exact Hb|]. left. reflexivity.
  - destruct call as [fn args]. cbn [Fun Call_Args].
    intros [Hb [->|(p & Hpanic & ->)]]; unfold stmtBuild.
    + rewrite (isWireBuild_not_panic _ _ Hb), Hb. reflexivity.
    + rewrite Hpanic, Hb. reflexivity.
Qed.

Lemma findInjectorBuild_stmts_expr (info : Info) (x : Node) (rest : list Stmt)
    (n : nat) (inv : bool) (w : option CallExprT) :
  findInjectorBuild_stmts info (StmtExpr x :: rest) n inv w =
    findInjectorBuild_stmts info rest (Datatypes.S n)
      (if decide (1 < Datatypes.S n) then true else inv)
      (match stmtBuild info x with Some c => Some c | None => w end).
Proof.
  cbn [findInjectorBuild_stmts]. f_equal. unfold stmtBuild, isWireBuild.
  destruct x; try reflexivity.
  match goal with
  | |- context [isUniversePanic ?o] => destruct (isUniversePanic o)
  end.
  - destruct args as [|[] [|]]; try reflexivity. cbn [Fun Call_Args].
    match goal with
    | |- context [qualifiedIdentObject info ?e] =>
        destruct (qualifiedIdentObject info e) as [obj|]; [|reflexivity]
    end.
    destruct (Object_Pkg obj) as [pkg|]; [|reflexivity].
    destruct (isWireImport _), (bool_decide _); reflexivity.
  - cbn [Fun Call_Args].
    match goal with
    | |- context [qualifiedIdentObject info ?e] =>
        destruct (qualifiedIdentObject info e) as [obj|]; [|reflexivity]
    end.
    destruct (Object_Pkg obj) as [pkg|]; [|reflexivity].
    destruct (isWireImport _), (bool_decide _); reflexivity.
Qed.

(** The loop of [findInjectorBuild] in closed form. *)
Lemma findInjectorBuild_stmts_spec (info : Info) (stmts : list Stmt) :
  forall n inv w,
    findInjectorBuild_stmts info stmts n inv w =
      if bool_decide (n = 0) && returnsBeforeExpr stmts then inl (None, None)
      else inr (inv || existsb isOtherStmt stmts ||
                  (bool_decide (1 <= length (List.filter isExprStmt stmts)) &&
                   bool_decide (1 < n + length (List.filter isExprStmt stmts))),
                lastBuild info stmts w).
Proof.
  induction stmts as [|s rest IH]; intros n inv w.
  - simpl. rewrite andb_false_r, !orb_false_r. reflexivity.
  - destruct s as [x|p|p r|p].
    + rewrite findInjectorBuild_stmts_expr, IH. simpl.
      rewrite andb_false_r. f_equal. f_equal.
      destruct inv, (existsb isOtherStmt rest); simpl;
        repeat case_decide; repeat case_bool_decide; simpl; try reflexivity; lia.
    + simpl. rewrite IH. reflexivity.
    + cbn [findInjectorBuild_stmts returnsBeforeExpr].
      destruct (decide (n = 0)) as [->|Hn]; [reflexivity|].
      rewrite IH. rewrite !bool_decide_eq_false_2 by exact Hn. reflexivity.
    + simpl. rewrite IH. destruct (bool_decide (n = 0) && returnsBeforeExpr rest);
        [reflexivity|]. f_equal. f_equal. rewrite !orb_true_r. reflexivity.
Qed.

Lemma lastBuild_None (info : Info) (stmts : list Stmt) :
  forall w, lastBuild info stmts w = None <->
    w = None /\ forall x, In (StmtExpr x) stmts -> stmtBuild info x = None.
Proof.
  unfold lastBuild.
  induction stmts as [|s rest IH]; intros w; simpl.
  - split; [intros ->; split; [reflexivity|intros x []]|intros [-> _]; reflexivity].
  - rewrite IH. destruct s as [x|p|p r|p].
    + destruct (stmtBuild info x) as [c|] eqn:Hx.
      * split; [intros [? _]; discriminate|].
        intros [_ Hall]. specialize (Hall x (or_introl eq_refl)). congruence.
      * split; intros [-> Hall]; (split; [reflexivity|]); intros y Hy.
        -- destruct Hy as [[= <-]|Hy]; auto.
        -- apply Hall. right. exact Hy.
    + split; intros [-> Hall]; (split; [reflexivity|]); intros y Hy;
        [destruct Hy as [|Hy]; [discriminate|auto]|apply Hall; right; exact Hy].
    + split; intros [-> Hall]; (split; [reflexivity|]); intros y Hy;
        [destruct Hy as [|Hy]; [discriminate|auto]|apply Hall; right; exact Hy].
    + split; intros [-> Hall]; (split; [reflexivity|]); intros y Hy;
        [destruct Hy as [|Hy]; [discriminate|auto]|apply Hall; right; exact Hy].
Qed.

(** A list of statements with no statement of another kind, at most one
    expression statement and no return statement before it. *)
Lemma template_shape (stmts : list Stmt) :
  existsb isOtherStmt stmts = false ->
  length (List.filter isExprStmt stmts) <= 1 ->
  returnsBeforeExpr stmts = false ->
  (forallb isEmptyStmt stmts = true) \/
  (exists pre x post, stmts = (pre ++ StmtExpr x :: post)%list /\
     forallb isEmptyStmt pre = true /\ forallb (fun s => isEmptyStmt s || isReturnStmt s) post = true).
Proof.
  induction stmts as [|s rest IH]; simpl.
  - left. reflexivity.
  - destruct s as [x|p|p r|p]; simpl; try discriminate.
    + intros Hother Hlen _. right. exists [], x, rest. simpl.
      split; [reflexivity|]. split; [reflexivity|].
      clear IH. induction rest as [|s rest IH]; simpl in *; [reflexivity|].
      destruct s; simpl in *; try discriminate; try lia; apply IH; auto; lia.
    + intros Hother Hlen Hret.
      destruct (IH Hother Hlen Hret) as [Hall|(pre & x & post & -> & Hpre & Hpost)].
      * left. exact Hall.
      * right. exists (StmtEmpty p :: pre), x, post. simpl. auto.
Qed.

Lemma lastBuild_single (info : Info) (pre post : list Stmt) (x : Node) (w : option CallExprT) :
  forallb isEmptyStmt pre = true ->
  forallb (fun s => isEmptyStmt s || isReturnStmt s) post = true ->
  lastBuild info (pre ++ StmtExpr x :: post) w =
    match stmtBuild info x with Some c => Some c | None => w end.
Proof.
  intros Hpre Hpost. unfold lastBuild. rewrite fold_left_app. simpl.
  assert (Hskip : forall l v, forallb (fun s => isEmptyStmt s || isReturnStmt s) l = true ->
            fold_left (fun w s =>
              match s with
              | StmtExpr x => match stmtBuild info x with Some c => Some c | None => w end
              | _ => w
              end) l v = v).
  { induction l as [|s l IH]; intros v Hl; simpl in *; [reflexivity|].
    apply andb_true_iff in Hl as [Hs Hl]. destruct s; try discriminate; auto. }
  rewrite (Hskip pre).
  - apply Hskip. exact Hpost.
  - clear -Hpre. induction pre as [|s pre IH]; simpl in *; [reflexivity|].
    apply andb_true_iff in Hpre as [Hs Hpre]. rewrite Hs, IH; auto.
Qed.

Lemma template_counts (pre post : list Stmt) (x : Node) :
  forallb isEmptyStmt pre = true ->
  forallb (fun s => isEmptyStmt s || isReturnStmt s) post = true ->
  existsb isOtherStmt (pre ++ StmtExpr x :: post) = false /\
  length (List.filter isExprStmt (pre ++ StmtExpr x :: post)) = 1 /\
  returnsBeforeExpr (pre ++ StmtExpr x :: post) = false.
Proof.
  intros Hpre Hpost.
  assert (Hp : forall l, forallb (fun s => isEmptyStmt s || isReturnStmt s) l = true ->
            existsb isOtherStmt l = false /\ List.filter isExprStmt l = []).
  { induction l as [|s l IH]; simpl; [auto|].
    intros Hl. apply andb_true_iff in Hl as [Hs Hl]. destruct (IH Hl) as [H1 H2].
    destruct s; try discriminate; simpl; auto. }
  destruct (Hp post Hpost) as [Ho Hf].
  induction pre as [|s pre IH]; simpl in *.
  - rewrite Ho, Hf. auto.
  - apply andb_true_iff in Hpre as [Hs Hpre]. destruct s; try discriminate. simpl.
    apply IH. exact Hpre.
Qed.

(** [findInjectorBuild] returns a call exactly for a function whose body
    consists of one expression statement, possibly preceded by empty
    statements and followed by empty statements and return statements, where
    the expression is a call of [wire.Build] or a call of the built-in
    [panic] on a call of [wire.Build]; it returns that call of [wire.Build],
    and no error. *)
Theorem findInjectorBuild_accepts_iff (info : Info) (fn : FuncDecl) (call : CallExprT) :
  fst (findInjectorBuild info fn) = Some call <->
  exists pre x post,
    FuncDecl_Body fn = Some (pre ++ StmtExpr x :: post)%list /\
    forallb isEmptyStmt pre = true /\
    forallb (fun s => isEmptyStmt s || isReturnStmt s) post = true /\
    buildStmt info x call.
Proof.
  unfold findInjectorBuild. split.
  - destruct (FuncDecl_Body fn) as [stmts|]; [|discriminate].
    rewrite findInjectorBuild_stmts_spec. simpl.
    destruct (returnsBeforeExpr stmts) eqn:Hret; [discriminate|].
    destruct (lastBuild info stmts None) as [c|] eqn:Hlast; [|discriminate].
    destruct (existsb isOtherStmt stmts) eqn:Hother; [discriminate|]. simpl.
    case_bool_decide as H1; simpl.
    + case_bool_decide as H2; simpl; [discriminate|].
      intros [= ->].
      destruct (template_shape stmts Hother ltac:(lia) Hret)
        as [Hall|(pre & x & post & -> & Hpre & Hpost)].
      * exfalso. clear -Hall H1. induction stmts as [|s l IH]; simpl in *; [lia|].
        apply andb_true_iff in Hall as [Hs Hall]. destruct s; try discriminate. auto.
      * exists pre, x, post. repeat split; auto.
        -- rewrite lastBuild_single in Hlast by assumption.
           destruct (stmtBuild info x) as [c|] eqn:Hx; [|discriminate].
           injection Hlast as ->. apply stmtBuild_spec in Hx. apply Hx.
        -- rewrite lastBuild_single in Hlast by assumption.
           destruct (stmtBuild info x) as [c|] eqn:Hx; [|discriminate].
           injection Hlast as ->. apply stmtBuild_spec in Hx. apply Hx.
    + exfalso. assert (Hnone : lastBuild info stmts None = None); [|congruence].
      apply lastBuild_None. split; [reflexivity|].
      intros x Hx. exfalso. apply H1. clear -Hx.
      induction stmts as [|s l IH]; simpl in *; [destruct Hx|].
      destruct Hx as [->|Hx]; simpl; [lia|].
      specialize (IH Hx). destruct (isExprStmt s); simpl; lia.
  - intros (pre & x & post & -> & Hpre & Hpost & Hbuild).
    rewrite findInjectorBuild_stmts_spec. simpl.
    destruct (template_counts pre post x Hpre Hpost) as (Hother & Hcount & Hret).
    rewrite Hret, Hother, Hcount, lastBuild_single by assumption. simpl.
    apply stmtBuild_spec in Hbuild. rewrite Hbuild. reflexivity.
Qed.


Lemma classic_build (info : Info) (stmts : list Stmt) :
  (exists x call, In (StmtExpr x) stmts /\ buildStmt info x call) \/
  (forall x, In (StmtExpr x) stmts -> stmtBuild info x = None).
Proof.
  induction stmts as [|s l [IH|IH]].
  - right. intros x [].
  - left. destruct IH as (x & call & Hin & Hb). exists x, call. split; [right|]; auto.
  - destruct s as [x|p|p r|p];
      try (right; intros y [Hy|Hy]; [discriminate|auto]; fail).
    destruct (stmtBuild info x) as [c|] eqn:Hx.
    + left. exists x, c. split; [left; reflexivity|]. apply stmtBuild_spec. exact Hx.
    + right. intros y [[= <-]|Hy]; auto.
Qed.

Lemma lastBuild_Some_iff (info : Info) (stmts : list Stmt) :
  (exists c, lastBuild info stmts None = Some c) <->
  exists x call, In (StmtExpr x) stmts /\ buildStmt info x call.
Proof.
  split.
  - intros [c Hc].
    destruct (classic_build info stmts) as [Hex|Hnone]; [exact Hex|].
    assert (lastBuild info stmts None = None) by (apply lastBuild_None; auto).
    congruence.
  - intros (x & call & Hin & Hb). apply stmtBuild_spec in Hb.
    destruct (lastBuild info stmts None) as [c|] eqn:Hlast; [eauto|].
    apply lastBuild_None in Hlast as [_ Hall]. rewrite (Hall x Hin) in Hb. discriminate.
Qed.

(** [findInjectorBuild] returns an error exactly for a function with a body
    in which no return statement comes before the first expression
    statement, an expression statement is a call of [wire.Build] (or [panic]
    on such a call), and there is a second expression statement or a
    statement that is neither an expression, empty nor a return.  The error
    is always the same, and no call is returned with it. *)
Theorem findInjectorBuild_error_iff (info : Info) (fn : FuncDecl) (e : error) :
  (snd (findInjectorBuild info fn) = Some e <->
   exists stmts, FuncDecl_Body fn = Some stmts /\
     returnsBeforeExpr stmts = false /\
     (exists x call, In (StmtExpr x) stmts /\ buildStmt info x call) /\
     (1 < length (List.filter isExprStmt stmts) \/ existsb isOtherStmt stmts = true) /\
     e = errors_New "a call to wire.Build indicates that this function is an injector, but injectors must consist of only the wire.Build call and an optional return") /\
  (snd (findInjectorBuild info fn) = Some e -> fst (findInjectorBuild info fn) = None).
Proof.
  unfold findInjectorBuild.
  destruct (FuncDecl_Body fn) as [stmts|].
  2:{ split; [split|]; [discriminate|intros (? & ? & _); discriminate|reflexivity]. }
  rewrite findInjectorBuild_stmts_spec. simpl.
  destruct (returnsBeforeExpr stmts) eqn:Hret.
  { split; [split|]; [discriminate| |reflexivity].
    intros (? & [= <-] & Hr & _). congruence. }
  pose proof (lastBuild_Some_iff info stmts) as Hsome.
  destruct (lastBuild info stmts None) as [c|] eqn:Hlast.
  2:{ split; [split|]; [discriminate| |reflexivity].
      intros (? & [= <-] & _ & Hex & _). apply Hsome in Hex as [c Hc]. discriminate. }
  assert (Hex : exists x call, In (StmtExpr x) stmts /\ buildStmt info x call)
    by (apply Hsome; eauto).
  assert (Hcount : 1 <= length (List.filter isExprStmt stmts)).
  { destruct Hex as (x & _ & Hin & _). clear -Hin.
    induction stmts as [|s l IH]; simpl in *; [destruct Hin|].
    destruct Hin as [->|Hin]; simpl; [lia|].
    specialize (IH Hin). destruct (isExprStmt s); simpl; lia. }
  destruct (existsb isOtherStmt stmts) eqn:Hother; simpl.
  { split; [split|]; [|intros (? & _ & _ & _ & _ & ->); reflexivity|reflexivity].
    intros [= <-]. exists stmts. auto 10. }
  rewrite (bool_decide_eq_true_2 _ Hcount). simpl.
  case_bool_decide as H2; simpl.
  - split; [split|]; [|intros (? & _ & _ & _ & _ & ->); reflexivity|reflexivity].
    intros [= <-]. exists stmts. auto 10.
  - split; [split|]; [discriminate| |discriminate].
    intros (? & [= <-] & _ & _ & [Hlen|Ho] & _); [lia|congruence].
Qed.

(** [findInjectorBuild] returns neither a call nor an error, meaning that
    the function is not an injector template, exactly for a function without
    a body, a function in which a return statement comes before the first
    expression statement, and a function none of whose expression statements
    is a call of [wire.Build] (or [panic] on such a call). *)
Theorem findInjectorBuild_not_template_iff (info : Info) (fn : FuncDecl) :
  findInjectorBuild info fn = (None, None) <->
  FuncDecl_Body fn = None \/
  exists stmts, FuncDecl_Body fn = Some stmts /\
    (returnsBeforeExpr stmts = true \/
     forall x call, In (StmtExpr x) stmts -> ~ buildStmt info x call).
Proof.
  unfold findInjectorBuild.
  destruct (FuncDecl_Body fn) as [stmts|]; [|split; auto].
  rewrite findInjectorBuild_stmts_spec. simpl.
  destruct (returnsBeforeExpr stmts) eqn:Hret.
  { split; [|reflexivity]. intros _. right. exists stmts. auto. }
  pose proof (lastBuild_Some_iff info stmts) as Hsome.
  destruct (lastBuild info stmts None) as [c|] eqn:Hlast.
  - split.
    + destruct (_ || _); discriminate.
    + intros [Hn|(s' & Hs & [Hr|Hno])];
        [discriminate|injection Hs as <-; congruence|injection Hs as <-].
      exfalso. destruct Hsome as [Hsome _].
      destruct (Hsome (ex_intro _ c eq_refl)) as (x & call & Hin & Hb).
      exact (Hno x call Hin Hb).
  - split; [|reflexivity]. intros _. right. exists stmts. split; [reflexivity|].
    right. intros x call Hin Hb.
    destruct Hsome as [_ Hsome]. destruct Hsome as [c Hc]; [eauto|discriminate].
Qed.

End InjectorFacts.

(* ------------------------------------------------------------------ *)
(** ** The object cache *)

Section CacheFacts.
Context {GT : GoTypes} {WE : WireEnv}.

(** [oc.get] remembers its result, errors included: after a call for an
    object, the cache holds the result under the object's import path and
    name, and a second call for the object returns the same result without
    evaluating anything (whatever function stands for [oc.processExpr]) and
    leaves the cache as it is. *)
Theorem get_memoized
    (rec rec' : objectCache -> Info -> string -> Node -> string ->
                result (objectCache * (option Item * list error)))
    (oc oc' : objectCache) (obj : Object) (item : option Item) (errs : list error) :
  get rec oc obj = Ok (oc', (item, errs)) ->
  get rec' oc' obj = Ok (oc', (item, errs)) /\
  exists pkg ent, Object_Pkg obj = Some pkg /\
    objects oc' !! (Package_Path pkg, Object_Name obj) = Some ent /\
    objCacheEntry_val ent = item /\ objCacheEntry_errs ent = errs.
Proof.
  unfold get.
  destruct (Object_Pkg obj) as [objPkg|]; simpl; [|discriminate].
  destruct (objects oc !! (Package_Path objPkg, Object_Name obj)) as [ent|] eqn:Hcache.
  { intros [= <- <- <-]. rewrite Hcache. split; [reflexivity|].
    exists objPkg, ent. auto. }
  match goal with
  | |- rbind ?m _ = _ -> _ => destruct m as [[oc1 [item1 errs1]]|msg|]
  end; simpl; try discriminate.
  intros [= <- <- <-]. unfold objectCache_store. cbn [objects].
  rewrite lookup_insert_eq. split; [reflexivity|].
  eexists objPkg, _. split; [reflexivity|]. split; [apply lookup_insert_eq|].
  split; reflexivity.
Qed.

Lemma cache_extends_refl (oc : objectCache) : cache_extends oc oc.
Proof. repeat split; auto. Qed.

Lemma cache_extends_trans (oc1 oc2 oc3 : objectCache) :
  cache_extends oc1 oc2 -> cache_extends oc2 oc3 -> cache_extends oc1 oc3.
Proof.
  intros (H1 & H2 & H3 & H4) (G1 & G2 & G3 & G4).
  repeat split; try congruence. auto.
Qed.

Lemma cache_extends_store (oc : objectCache) (ref : objRef) (ent : objCacheEntry) :
  cache_extends oc (objectCache_store oc ref ent).
Proof.
  repeat split; try reflexivity. intros ref' Href'. unfold objectCache_store. simpl.
  destruct (decide (ref = ref')) as [<-|Hne].
  - rewrite lookup_insert_eq. eauto.
  - rewrite lookup_insert_ne by exact Hne. exact Href'.
Qed.

Section MethodExtends.
Variable rec : objectCache -> Info -> string -> Node -> string ->
               result (objectCache * (option Item * list error)).
Hypothesis Hrec : rec_extends rec.

Lemma processNewSet_args_extends info pkgPath args :
  forall oc pset ec oc' pset' ec',
    processNewSet_args rec info pkgPath args oc pset ec = Ok (oc', pset', ec') ->
    cache_extends oc oc'.
Proof.
  induction args as [|arg rest IH]; intros oc pset ec oc' pset' ec'; simpl.
  - intros [= <- <- <-]. apply cache_extends_refl.
  - destruct (rec oc info pkgPath arg EmptyString) as [[oc1 [item errs]]|msg|] eqn:Hr;
      simpl; try discriminate.
    pose proof (Hrec _ _ _ _ _ _ _ Hr) as H1.
    case_bool_decide.
    + intros Hrest. eapply cache_extends_trans; [exact H1|]. eapply IH; eauto.
    + destruct item as [item|]; [|discriminate].
      intros Hrest. eapply cache_extends_trans; [exact H1|]. eapply IH; eauto.
Qed.

Lemma processNewSet_extends oc info pkgPath call injectorArgs varName oc' r :
  processNewSet rec oc info pkgPath call injectorArgs varName = Ok (oc', r) ->
  cache_extends oc oc'.
Proof.
  unfold processNewSet.
  destruct (processNewSet_args _ _ _ _ _ _ _) as [[[oc1 pset1] ec1]|msg|] eqn:Hargs;
    simpl; try discriminate.
  pose proof (processNewSet_args_extends _ _ _ _ _ _ _ _ _ Hargs) as H1.
  case_bool_decide; [intros [= <- <-]; exact H1|].
  destruct (buildProviderMap _ _ _) as [[[pm sm] errs1]|msg|]; simpl; try discriminate.
  case_bool_decide; [intros [= <- <-]; exact H1|].
  destruct (verifyAcyclic _ _) as [errs2|msg|]; simpl; try discriminate.
  case_bool_decide; intros [= <- <-]; exact H1.
Qed.

Lemma get_extends oc obj oc' r :
  get rec oc obj = Ok (oc', r) -> cache_extends oc oc'.
Proof.
  unfold get.
  destruct (Object_Pkg obj) as [objPkg|]; simpl; [|discriminate].
  destruct (objects oc !! (Package_Path objPkg, Object_Name obj)) as [ent|].
  { intros [= <- <-]. apply cache_extends_refl. }
  match goal with
  | |- rbind ?m _ = _ -> _ => destruct m as [[oc1 [item1 errs1]]|msg|] eqn:Hm
  end; simpl; try discriminate.
  intros [= <- <-].
  eapply cache_extends_trans; [|apply cache_extends_store].
  destruct obj as [v|fn|tn|pkg name pos|pkg name pos].
  - destruct (varDecl oc v) as [[spec|]|msg|]; simpl in Hm; try discriminate.
    + case_bool_decide.
      * injection Hm as <- <- <-. apply cache_extends_refl.
      * destruct (packages oc !! Package_Path objPkg) as [pkg|]; simpl in Hm;
          [|discriminate].
        destruct (index (Spec_Values spec) _) as [value|msg|]; simpl in Hm;
          try discriminate.
        exact (Hrec _ _ _ _ _ _ _ Hm).
    + injection Hm as <- <- <-. apply cache_extends_refl.
  - destruct (processFuncProvider (oc_fset oc) fn) as [[p errs]|msg|];
      simpl in Hm; try discriminate.
    injection Hm as <- <- <-. apply cache_extends_refl.
  - injection Hm as <- <- <-. apply cache_extends_refl.
  - injection Hm as <- <- <-. apply cache_extends_refl.
  - injection Hm as <- <- <-. apply cache_extends_refl.
Qed.

Lemma processExpr_body_extends : rec_extends (processExpr_body rec).
Proof.
  intros oc info pkgPath expr varName oc' r. unfold processExpr_body.
  destruct (qualifiedIdentObject info (Some (Unparen expr))) as [obj|].
  { destruct (get rec oc obj) as [[oc1 [item1 errs1]]|msg|] eqn:Hget; simpl;
      try discriminate.
    intros [= <- <-]. exact (get_extends _ _ _ _ Hget). }
  assert (Hstruct :
    match structArgType info (Unparen expr) with
    | Some tn =>
        let* '(p, errs0) := processStructProvider (oc_fset oc) tn in
        if bool_decide (0 < length errs0)
        then Ok (oc, (None, notePositionAll
                              (FileSet_Position (oc_fset oc) (Node_Pos expr)) errs0))
        else Ok (oc, (ItemProvider <$> p, []))
    | None =>
        Ok (oc, (None, [notePosition (FileSet_Position (oc_fset oc) (Node_Pos expr))
                          (errors_New "unknown pattern")]))
    end = Ok (oc', r) -> cache_extends oc oc').
  { destruct (structArgType info (Unparen expr)) as [tn|].
    - destruct (processStructProvider (oc_fset oc) tn) as [[p errs0]|msg|];
        simpl; try discriminate.
      case_bool_decide; intros [= <- <-]; apply cache_extends_refl.
    - intros [= <- <-]. apply cache_extends_refl. }
  destruct (Unparen expr); try exact Hstruct.
  clear Hstruct.
  match goal with
  | |- context [qualifiedIdentObject info (Some ?fn)] =>
      destruct (qualifiedIdentObject info (Some fn)) as [fnObj|]
  end.
  2:{ intros [= <- <-]. apply cache_extends_refl. }
  destruct (Object_Pkg fnObj) as [fnPkg|]; simpl; [|discriminate].
  destruct (isWireImport (Package_Path fnPkg)); simpl.
  2:{ intros [= <- <-]. apply cache_extends_refl. }
  repeat case_decide.
  - destruct (processNewSet rec oc info pkgPath _ None varName)
      as [[oc1 [pset errs1]]|msg|] eqn:Hns; simpl; try discriminate.
    intros [= <- <-]. exact (processNewSet_extends _ _ _ _ _ _ _ _ Hns).
  - destruct (processBind _ _ _) as [b [e|]]; intros [= <- <-]; apply cache_extends_refl.
  - destruct (processValue _ _ _) as [b [e|]]; intros [= <- <-]; apply cache_extends_refl.
  - destruct (processInterfaceValue _ _ _) as [b [e|]]; intros [= <- <-];
      apply cache_extends_refl.
  - intros [= <- <-]. apply cache_extends_refl.
Qed.

End MethodExtends.


End CacheFacts.

(* ------------------------------------------------------------------ *)
(** ** Provider sets and expressions *)

Section SetFacts.
Context {GT : GoTypes} {WE : WireEnv}.

Lemma ProviderSet_append_fold (items : list Item) :
  forall pset,
    let pset' := fold_left ProviderSet_append items pset in
    Providers pset' = (Providers pset ++ omap Item_Provider items)%list /\
    Imports pset' = (Imports pset ++ omap Item_ProviderSet items)%list /\
    Bindings pset' = (Bindings pset ++ omap Item_IfaceBinding items)%list /\
    Values pset' = (Values pset ++ omap Item_Value items)%list /\
    ProviderSet_Pos pset' = ProviderSet_Pos pset /\
    PkgPath pset' = PkgPath pset /\
    VarName pset' = VarName pset /\
    ProviderSet_InjectorArgs pset' = ProviderSet_InjectorArgs pset /\
    providerMap pset' = providerMap pset /\
    srcMap pset' = srcMap pset.
Proof.
  induction items as [|i items IH]; intros pset; simpl.
  - rewrite !app_nil_r. auto 12.
  - destruct (IH (ProviderSet_append pset i))
      as (H1 & H2 & H3 & H4 & H5 & H6 & H7 & H8 & H9 & H10).
    rewrite H1, H2, H3, H4, H5, H6, H7, H8, H9, H10.
    destruct i; simpl; rewrite <- ?app_assoc; simpl; auto 12.
Qed.

Section ContentsOfSets.
Variable rec : objectCache -> Info -> string -> Node -> string ->
               result (objectCache * (option Item * list error)).

Lemma processNewSet_args_errors info pkgPath args :
  forall oc pset ec oc' pset' ec',
    processNewSet_args rec info pkgPath args oc pset ec = Ok (oc', pset', ec') ->
    exists more, errors ec' = (errors ec ++ more)%list.
Proof.
  induction args as [|arg rest IH]; intros oc pset ec oc' pset' ec'; simpl.
  - intros [= <- <- <-]. exists []. rewrite app_nil_r. reflexivity.
  - destruct (rec oc info pkgPath arg EmptyString) as [[oc1 [item errs]]|msg|];
      simpl; try discriminate.
    case_bool_decide.
    + intros Hrest. apply IH in Hrest as [more Hmore]. simpl in Hmore.
      exists (errs ++ more)%list. rewrite Hmore, app_assoc. reflexivity.
    + destruct item as [item|]; [|discriminate]. apply IH.
Qed.

Lemma processNewSet_args_items info pkgPath args :
  forall oc pset ec oc' pset' ec',
    processNewSet_args rec info pkgPath args oc pset ec = Ok (oc', pset', ec') ->
    errors ec' = [] ->
    exists items,
      argResults rec info pkgPath args oc = Ok (oc', map (fun i => (Some i, [])) items) /\
      length items = length args /\
      pset' = fold_left ProviderSet_append items pset.
Proof.
  induction args as [|arg rest IH]; intros oc pset ec oc' pset' ec'; simpl.
  - intros [= <- <- <-] _. exists []. auto.
  - destruct (rec oc info pkgPath arg EmptyString) as [[oc1 [item errs]]|msg|];
      simpl; try discriminate.
    case_bool_decide as Hlen.
    + intros Hrest Hnil. exfalso.
      apply processNewSet_args_errors in Hrest as [more Hmore].
      rewrite Hnil in Hmore. simpl in Hmore.
      destruct errs; [simpl in Hlen; lia|].
      symmetry in Hmore. apply app_eq_nil in Hmore as [Hmore _].
      apply app_eq_nil in Hmore as [_ Hmore]. discriminate.
    + assert (errs = []) as -> by (destruct errs; simpl in Hlen; [reflexivity|lia]).
      destruct item as [item|]; [|discriminate].
      intros Hrest Hnil. destruct (IH _ _ _ _ _ _ Hrest Hnil) as (items & Hres & Hl & ->).
      exists (item :: items). rewrite Hres. simpl. auto.
Qed.

(** A provider set that [processNewSet] returns holds the items of the
    arguments of the call, each processed without error, sorted by kind and
    in the order of the arguments; the position of the call, the package path,
    the variable name and the injector arguments that were given; and the
    merged index and the source map that [buildProviderMap] computed from
    these, with which [verifyAcyclic] found no fault. *)
Theorem processNewSet_contents (oc : objectCache) (info : Info) (pkgPath : string)
    (call : CallExprT) (injectorArgs : option InjectorArgs) (varName : string)
    (oc' : objectCache) (pset : ProviderSet) (errs : list error) :
  processNewSet rec oc info pkgPath call injectorArgs varName = Ok (oc', (Some pset, errs)) ->
  exists items,
    argResults rec info pkgPath (Call_Args call) oc =
      Ok (oc', map (fun i => (Some i, [])) items) /\
    length items = length (Call_Args call) /\
    Providers pset = omap Item_Provider items /\
    Imports pset = omap Item_ProviderSet items /\
    Bindings pset = omap Item_IfaceBinding items /\
    Values pset = omap Item_Value items /\
    ProviderSet_Pos pset = Call_Pos call /\
    PkgPath pset = pkgPath /\
    VarName pset = varName /\
    ProviderSet_InjectorArgs pset = injectorArgs /\
    buildProviderMap (oc_fset oc') (hasher oc') (ProviderSet_set_maps pset None None) =
      Ok (providerMap pset, srcMap pset, []) /\
    verifyAcyclic (providerMap pset) (hasher oc') = Ok [] /\
    errs = [].
Proof.
  unfold processNewSet.
  destruct (processNewSet_args _ _ _ _ _ _ _) as [[[oc1 pset1] ec1]|msg|] eqn:Hargs;
    simpl; try discriminate.
  case_bool_decide as Hec; [discriminate|].
  assert (Hnil : errors ec1 = []) by (destruct (errors ec1); simpl in Hec; [reflexivity|lia]).
  destruct (processNewSet_args_items _ _ _ _ _ _ _ _ _ Hargs Hnil) as (items & Hres & Hl & Hset).
  destruct (buildProviderMap _ _ _) as [[[pm sm] errs1]|msg|] eqn:Hbuild; simpl;
    try discriminate.
  case_bool_decide as Hb; [discriminate|].
  assert (errs1 = []) as -> by (destruct errs1; simpl in Hb; [reflexivity|lia]).
  destruct (verifyAcyclic _ _) as [errs2|msg|] eqn:Hcyc; simpl; try discriminate.
  case_bool_decide as Hc; [discriminate|].
  assert (errs2 = []) as -> by (destruct errs2; simpl in Hc; [reflexivity|lia]).
  intros [= <- <- <-]. exists items.
  match type of Hset with
  | _ = fold_left _ _ ?p0 =>
      destruct (ProviderSet_append_fold items p0)
        as (H1 & H2 & H3 & H4 & H5 & H6 & H7 & H8 & H9 & H10)
  end.
  rewrite <- Hset in *. simpl in *.
  assert (Hsame : ProviderSet_set_maps (ProviderSet_set_maps pset1 pm sm) None None = pset1).
  { destruct pset1. simpl in *. subst. reflexivity. }
  rewrite Hsame. auto 15.
Qed.

Lemma processNewSet_fields (oc : objectCache) (info : Info) (pkgPath : string)
    (call : CallExprT) (injectorArgs : option InjectorArgs) (varName : string)
    (oc' : objectCache) (pset : ProviderSet) (errs : list error) :
  processNewSet rec oc info pkgPath call injectorArgs varName = Ok (oc', (Some pset, errs)) ->
  ProviderSet_Pos pset = Call_Pos call /\
  PkgPath pset = pkgPath /\
  VarName pset = varName /\
  ProviderSet_InjectorArgs pset = injectorArgs.
Proof.
  unfold processNewSet.
  destruct (processNewSet_args _ _ _ _ _ _ _) as [[[oc1 pset1] ec1]|msg|] eqn:Hargs;
    simpl; try discriminate.
  case_bool_decide as Hec; [discriminate|].
  assert (Hnil : errors ec1 = []) by (destruct (errors ec1); simpl in Hec; [reflexivity|lia]).
  destruct (processNewSet_args_items _ _ _ _ _ _ _ _ _ Hargs Hnil) as (items & _ & _ & Hset).
  destruct (buildProviderMap _ _ _) as [[[pm sm] errs1]|msg|]; simpl; try discriminate.
  case_bool_decide; [discriminate|].
  destruct (verifyAcyclic _ _) as [errs2|msg|]; simpl; try discriminate.
  case_bool_decide; [discriminate|].
  intros [= <- <- <-].
  match type of Hset with
  | _ = fold_left _ _ ?p0 =>
      destruct (ProviderSet_append_fold items p0)
        as (_ & _ & _ & _ & H5 & H6 & H7 & H8 & _)
  end.
  rewrite <- Hset in *. simpl in *. auto.
Qed.

End ContentsOfSets.

End SetFacts.

(* ------------------------------------------------------------------ *)
(** ** Expressions *)

Section ExprFacts.
Context {GT : GoTypes} {WE : WireEnv}.

Lemma processExpr_body_unparen
    (rec : objectCache -> Info -> string -> Node -> string ->
           result (objectCache * (option Item * list error)))
    (oc : objectCache) (info : Info) (pkgPath : string) (e1 e2 : Node) (varName : string) :
  Unparen e1 = Unparen e2 ->
  same_but_errors (processExpr_body rec oc info pkgPath e1 varName)
                  (processExpr_body rec oc info pkgPath e2 varName).
Proof.
  intros Hsame. unfold processExpr_body. rewrite Hsame.
  set (pos1 := FileSet_Position (oc_fset oc) (Node_Pos e1)).
  set (pos2 := FileSet_Position (oc_fset oc) (Node_Pos e2)).
  destruct (qualifiedIdentObject info (Some (Unparen e2))) as [obj|].
  { destruct (get _ oc obj) as [[oc1 [item1 errs1]]|msg|]; simpl; auto.
    unfold mapErrors. rewrite !length_map. auto. }
  assert (Hstruct : same_but_errors
    match structArgType info (Unparen e2) with
    | Some tn =>
        let* '(p, errs0) := processStructProvider (oc_fset oc) tn in
        if bool_decide (0 < length errs0)
        then Ok (oc, (None, notePositionAll pos1 errs0))
        else Ok (oc, (ItemProvider <$> p, []))
    | None => Ok (oc, (None, [notePosition pos1 (errors_New "unknown pattern")]))
    end
    match structArgType info (Unparen e2) with
    | Some tn =>
        let* '(p, errs0) := processStructProvider (oc_fset oc) tn in
        if bool_decide (0 < length errs0)
        then Ok (oc, (None, notePositionAll pos2 errs0))
        else Ok (oc, (ItemProvider <$> p, []))
    | None => Ok (oc, (None, [notePosition pos2 (errors_New "unknown pattern")]))
    end).
  { destruct (structArgType info (Unparen e2)) as [tn|]; [|simpl; auto].
    destruct (processStructProvider (oc_fset oc) tn) as [[p errs0]|msg|]; simpl; auto.
    case_bool_decide; simpl; auto.
    unfold notePositionAll, mapErrors. rewrite !length_map. auto. }
  destruct (Unparen e2); try exact Hstruct.
  clear Hstruct.
  match goal with
  | |- context [qualifiedIdentObject info (Some ?fn)] =>
      destruct (qualifiedIdentObject info (Some fn)) as [fnObj|]
  end; [|simpl; auto].
  destruct (Object_Pkg fnObj) as [fnPkg|]; simpl; [|auto].
  destruct (isWireImport (Package_Path fnPkg)); simpl; [|auto].
  repeat case_decide.
  - destruct (processNewSet _ oc info pkgPath _ None varName)
      as [[oc1 [pset errs1]]|msg|]; simpl; auto.
    unfold notePositionAll, mapErrors. rewrite !length_map. auto.
  - destruct (processBind _ _ _) as [b [e|]]; simpl; auto.
  - destruct (processValue _ _ _) as [b [e|]]; simpl; auto.
  - destruct (processInterfaceValue _ _ _) as [b [e|]]; simpl; auto.
  - simpl. auto.
Qed.


(** A provider set that [oc.processExpr] makes of a call expression comes
    from a call of [wire.NewSet]: it records the position of the call, the
    package path and the variable name under which the expression was
    processed, and it has no injector arguments. *)
Theorem processExpr_set_of_call (fuel : nat) (oc : objectCache) (info : Info)
    (pkgPath : string) (expr : Node) (varName : string) (fn : Node) (args : list Node)
    (oc' : objectCache) (set : ProviderSet) (errs : list error) :
  Unparen expr = CallExpr fn args ->
  processExpr fuel oc info pkgPath expr varName = Ok (oc', (Some (ItemProviderSet set), errs)) ->
  (exists fnObj fnPkg, qualifiedIdentObject info (Some fn) = Some fnObj /\
     Object_Pkg fnObj = Some fnPkg /\ isWireImport (Package_Path fnPkg) = true /\
     Object_Name fnObj = "NewSet") /\
  ProviderSet_Pos set = Node_Pos fn /\
  PkgPath set = pkgPath /\
  VarName set = varName /\
  ProviderSet_InjectorArgs set = None /\
  errs = [].
Proof.
  intros Hcall. destruct fuel as [|fuel]; [discriminate|]. simpl.
  unfold processExpr_body. rewrite Hcall.
  change (qualifiedIdentObject info (Some (CallExpr fn args))) with (@None Object).
  cbv beta iota.
  destruct (qualifiedIdentObject info (Some fn)) as [fnObj|] eqn:Hobj; [|discriminate].
  destruct (Object_Pkg fnObj) as [fnPkg|] eqn:Hpkg; simpl; [|discriminate].
  destruct (isWireImport (Package_Path fnPkg)) eqn:Hwire; simpl; [|discriminate].
  repeat case_decide.
  - destruct (processNewSet _ oc info pkgPath _ None varName)
      as [[oc1 [pset errs1]]|msg|] eqn:Hns; simpl; try discriminate.
    destruct pset as [pset|]; simpl; [|discriminate].
    intros [= <- <- <-].
    destruct (processNewSet_fields _ _ _ _ _ _ _ _ _ _ Hns) as (H1 & H2 & H3 & H4).
    assert (errs1 = []) as ->.
    { revert Hns. unfold processNewSet.
      destruct (processNewSet_args _ _ _ _ _ _ _) as [[[oc2 pset2] ec2]|msg|];
        simpl; try discriminate.
      case_bool_decide; [discriminate|].
      destruct (buildProviderMap _ _ _) as [[[pm sm] errs2]|msg|]; simpl; try discriminate.
      case_bool_decide; [discriminate|].
      destruct (verifyAcyclic _ _) as [errs3|msg|]; simpl; try discriminate.
      case_bool_decide; [discriminate|]. intros [= _ _ <-]. reflexivity. }
    split.
    { exists fnObj, fnPkg. split; [exact Hobj|]. split; [exact Hpkg|].
      split; [exact Hwire|assumption]. }
    split; [exact H1|]. auto.
  - destruct (processBind _ _ _) as [[b|] [e|]]; discriminate.
  - destruct (processValue _ _ _) as [[b|] [e|]]; discriminate.
  - destruct (processInterfaceValue _ _ _) as [[b|] [e|]]; discriminate.
  - discriminate.
Qed.

Section FuelFacts.
Variables rec1 rec2 : objectCache -> Info -> string -> Node -> string ->
                      result (objectCache * (option Item * list error)).
Hypothesis Hle : forall oc info pkgPath expr varName r,
  rec1 oc info pkgPath expr varName = r -> r <> OutOfFuel ->
  rec2 oc info pkgPath expr varName = r.

Lemma processNewSet_args_fuel info pkgPath args :
  forall oc pset ec r,
    processNewSet_args rec1 info pkgPath args oc pset ec = r -> r <> OutOfFuel ->
    processNewSet_args rec2 info pkgPath args oc pset ec = r.
Proof.
  induction args as [|arg rest IH]; intros oc pset ec r; simpl; [auto|].
  destruct (rec1 oc info pkgPath arg EmptyString) as [[oc1 [item errs]]|msg|] eqn:H1;
    simpl; intros <- Hr; try congruence.
  - rewrite (Hle _ _ _ _ _ _ H1) by discriminate. simpl.
    case_bool_decide; [apply IH; auto|].
    destruct item; [apply IH; auto|reflexivity].
  - rewrite (Hle _ _ _ _ _ _ H1) by discriminate. reflexivity.
Qed.

Lemma processNewSet_fuel oc info pkgPath call injectorArgs varName r :
  processNewSet rec1 oc info pkgPath call injectorArgs varName = r -> r <> OutOfFuel ->
  processNewSet rec2 oc info pkgPath call injectorArgs varName = r.
Proof.
  unfold processNewSet.
  destruct (processNewSet_args rec1 _ _ _ _ _ _) as [[[oc1 pset1] ec1]|msg|] eqn:H1;
    simpl; intros <- Hr; try congruence.
  - rewrite (processNewSet_args_fuel _ _ _ _ _ _ _ H1) by discriminate. reflexivity.
  - rewrite (processNewSet_args_fuel _ _ _ _ _ _ _ H1) by discriminate. reflexivity.
Qed.

Lemma get_fuel oc obj r :
  get rec1 oc obj = r -> r <> OutOfFuel -> get rec2 oc obj = r.
Proof.
  unfold get.
  destruct (Object_Pkg obj) as [objPkg|]; simpl; [|auto].
  destruct (objects oc !! (Package_Path objPkg, Object_Name obj)) as [ent|]; [auto|].
  destruct obj as [v|fn|tn|pkg name pos|pkg name pos]; auto.
  destruct (varDecl oc v) as [[spec|]|msg|]; simpl; auto.
  case_bool_decide; [auto|].
  destruct (packages oc !! Package_Path objPkg) as [pkg|]; simpl; [|auto].
  destruct (index (Spec_Values spec) _) as [value|msg|]; simpl; auto.
  destruct (rec1 oc (Pkg_TypesInfo pkg) _ value _) as [[oc1 [item errs]]|msg|] eqn:H1;
    simpl; intros <- Hr; try congruence.
  - rewrite (Hle _ _ _ _ _ _ H1) by discriminate. reflexivity.
  - rewrite (Hle _ _ _ _ _ _ H1) by discriminate. reflexivity.
Qed.

Lemma processExpr_body_fuel oc info pkgPath expr varName r :
  processExpr_body rec1 oc info pkgPath expr varName = r -> r <> OutOfFuel ->
  processExpr_body rec2 oc info pkgPath expr varName = r.
Proof.
  unfold processExpr_body.
  destruct (qualifiedIdentObject info (Some (Unparen expr))) as [obj|].
  { destruct (get rec1 oc obj) as [[oc1 [item1 errs1]]|msg|] eqn:H1; simpl;
      intros <- Hr; try congruence;
      rewrite (get_fuel _ _ _ H1) by discriminate; reflexivity. }
  destruct (Unparen expr); auto.
  match goal with
  | |- context [qualifiedIdentObject info (Some ?fn)] =>
      destruct (qualifiedIdentObject info (Some fn)) as [fnObj|]
  end; [|auto].
  destruct (Object_Pkg fnObj) as [fnPkg|]; simpl; [|auto].
  destruct (isWireImport (Package_Path fnPkg)); simpl; [|auto].
  repeat case_decide; auto.
  destruct (processNewSet rec1 oc info pkgPath _ None varName)
    as [[oc1 [pset errs1]]|msg|] eqn:H1; simpl; intros <- Hr; try congruence;
    rewrite (processNewSet_fuel _ _ _ _ _ _ _ H1) by discriminate; reflexivity.
Qed.

End FuelFacts.

(** The bound on the depth of the recursion of [oc.processExpr] does not
    bear on its outcome: once it returns or panics within a bound, it does
    the same within every larger bound. *)
Lemma processExpr_fuel_monotone (fuel fuel' : nat) (oc : objectCache) (info : Info)
    (pkgPath : string) (expr : Node) (varName : string)
    (r : result (objectCache * (option Item * list error))) :
  processExpr fuel oc info pkgPath expr varName = r ->
  r <> OutOfFuel ->
  fuel <= fuel' ->
  processExpr fuel' oc info pkgPath expr varName = r.
Proof.
  revert fuel' oc info pkgPath expr varName r.
  induction fuel as [|fuel IH]; intros fuel' oc info pkgPath expr varName r.
  - simpl. intros <- Hr. congruence.
  - intros Hres Hr Hle. destruct fuel' as [|fuel']; [lia|]. simpl in *.
    eapply processExpr_body_fuel; [|exact Hres|exact Hr].
    intros oc0 info0 pkgPath0 expr0 varName0 r0 H0 Hr0.
    apply IH; [exact H0|exact Hr0|lia].
Qed.

End ExprFacts.

(* ------------------------------------------------------------------ *)
(** ** Variables *)

Section VarFacts.
Context {GT : GoTypes} {WE : WireEnv}.

Lemma nameIndex_first (names : list IdentT) (name : string) :
  forall i k id,
    names !! i = Some id -> Ident_Name id = name ->
    (forall j id', j < i -> names !! j = Some id' -> Ident_Name id' <> name) ->
    nameIndex names name k = k + i.
Proof.
  induction names as [|id0 rest IH]; intros i k id Hi Hid Hfirst; [discriminate|].
  simpl. destruct i as [|i].
  - injection Hi as ->. rewrite decide_True by exact Hid. lia.
  - rewrite decide_False by (apply (Hfirst 0 id0); [lia|reflexivity]).
    simpl in Hi. destruct rest as [|id1 rest]; [discriminate|].
    rewrite (IH i (Datatypes.S k) id Hi Hid); [lia|].
    intros j id' Hj Hj'. apply (Hfirst (Datatypes.S j) id'); [lia|exact Hj'].
Qed.

(** For a package-level variable that has no entry in the cache yet,
    [oc.get] processes the initialiser found at the variable's index among
    the names of its declaration, under the variable's name, and stores the
    outcome in the cache.  When the declaration has fewer values than that,
    as in [var a, b = f()], indexing the values panics. *)
Theorem get_var_initialiser
    (rec : objectCache -> Info -> string -> Node -> string ->
           result (objectCache * (option Item * list error)))
    (oc : objectCache) (v : Var type) (pkg : Package) (p : PackageT)
    (spec : ValueSpec) (i : nat) (id : IdentT) :
  Var_Pkg v = Some pkg ->
  objects oc !! (Package_Path pkg, Var_Name v) = None ->
  packages oc !! Package_Path pkg = Some p ->
  Pkg_enclosingSpec p (Var_Pos v) = Some spec ->
  Spec_Values spec <> [] ->
  Names spec !! i = Some id ->
  Ident_Name id = Var_Name v ->
  (forall j id', j < i -> Names spec !! j = Some id' -> Ident_Name id' <> Var_Name v) ->
  get rec oc (ObjVar v) =
    match Spec_Values spec !! i with
    | Some value =>
        let* '(oc1, (val, errs)) :=
          rec oc (Pkg_TypesInfo p) (Package_Path pkg) value (Var_Name v) in
        Ok (objectCache_store oc1 (Package_Path pkg, Var_Name v)
              {| objCacheEntry_val := val; objCacheEntry_errs := errs |},
            (val, errs))
    | None => Panic "index out of range"
    end.
Proof.
  intros Hpkg Hcache Hp Hspec Hvalues Hi Hid Hfirst.
  unfold get, varDecl. simpl. rewrite Hpkg. simpl. rewrite Hcache, Hp. simpl.
  rewrite Hspec.
  rewrite bool_decide_eq_false_2
    by (destruct (Spec_Values spec); [contradiction|discriminate]).
  rewrite (nameIndex_first _ _ i 0 id Hi Hid Hfirst). simpl.
  unfold index. destruct (Spec_Values spec !! i) as [value|]; simpl; [|reflexivity].
  destruct (rec oc _ _ value _) as [[oc1 [val errs]]|msg|]; reflexivity.
Qed.

End VarFacts.

(** ** The packages of the object cache *)

Section LoadFacts.
Context {GT : GoTypes} {WE : WireEnv}.

Lemma LP_size_eq (p : LoadedPackage) :
  LP_size p = Datatypes.S (forest_size (LP_Imports p)).
Proof.
  destruct p as [pkg fs imports]. simpl. f_equal. unfold forest_size.
  induction imports as [|q l IH]; simpl; [reflexivity|]. rewrite IH. reflexivity.
Qed.

Lemma forest_size_app (l1 l2 : list LoadedPackage) :
  forest_size (l1 ++ l2) = forest_size l1 + forest_size l2.
Proof.
  unfold forest_size. rewrite map_app. induction (map LP_size l1); simpl; lia.
Qed.

Lemma push_imports (imports stk : list LoadedPackage) :
  fold_left (fun stk imp => stk ++ [imp])%list imports stk = (stk ++ imports)%list.
Proof.
  revert stk. induction imports as [|imp l IH]; intros stk; simpl.
  - rewrite app_nil_r. reflexivity.
  - rewrite IH, <- app_assoc. reflexivity.
Qed.

Lemma newObjectCache_loop_nil (fuel : nat) (m : gmap string PackageT) :
  newObjectCache_loop (Datatypes.S fuel) [] m = Ok m.
Proof. reflexivity. Qed.

Lemma newObjectCache_loop_snoc (fuel : nat) (stk : list LoadedPackage)
    (p : LoadedPackage) (m : gmap string PackageT) :
  newObjectCache_loop (Datatypes.S fuel) (stk ++ [p]) m =
    if is_Some_bool (m !! Pkg_PkgPath (LP_Package p))
    then newObjectCache_loop fuel stk m
    else newObjectCache_loop fuel (stk ++ LP_Imports p)
           (<[Pkg_PkgPath (LP_Package p) := LP_Package p]> m).
Proof.
  cbn [newObjectCache_loop]. rewrite last_snoc.
  rewrite length_app. simpl. rewrite Nat.add_sub, take_app_length.
  rewrite push_imports. reflexivity.
Qed.

Lemma reaches_step (r p q : LoadedPackage) :
  reaches r p -> In q (LP_Imports p) -> reaches r q.
Proof.
  intros Hr. induction Hr as [p|p p' r' Hin Hr IH]; intros Hq.
  - eapply reaches_import; [exact Hq|apply reaches_self].
  - eapply reaches_import; [exact Hin|]. apply IH. exact Hq.
Qed.

Lemma is_Some_insert (m : gmap string PackageT) (k k' : string) (q : PackageT) :
  is_Some (m !! k') -> is_Some (<[k := q]> m !! k').
Proof.
  intros Hk. destruct (decide (k = k')) as [->|Hne].
  - rewrite lookup_insert_eq. eauto.
  - rewrite lookup_insert_ne by exact Hne. exact Hk.
Qed.

Lemma search_inv_skip (pkgs stk visited : list LoadedPackage) (p : LoadedPackage)
    (m : gmap string PackageT) :
  is_Some (m !! Pkg_PkgPath (LP_Package p)) ->
  search_inv pkgs (stk ++ [p]) visited m ->
  search_inv pkgs stk visited m.
Proof.
  intros Hp (Hstk & Hroots & Hvis & Hmap).
  assert (Hin : forall lp, In lp (stk ++ [p]) ->
            In lp stk \/ is_Some (m !! Pkg_PkgPath (LP_Package lp))).
  { intros lp Hlp. apply in_app_or in Hlp as [Hlp|Hlp]; [auto|].
    destruct Hlp as [<-|Hlp]; [auto|destruct Hlp]. }
  split; [|split; [|split]].
  - intros lp Hlp. apply Hstk. apply in_or_app. auto.
  - intros r Hr. destruct (Hroots r Hr) as [Hin'|Hs]; auto.
  - intros lp Hlp. destruct (Hvis lp Hlp) as (H1 & H2 & H3).
    split; [exact H1|]. split; [exact H2|].
    intros imp Himp. destruct (H3 imp Himp) as [Hin'|Hs]; auto.
  - exact Hmap.
Qed.

Lemma search_inv_visit (pkgs stk visited : list LoadedPackage) (p : LoadedPackage)
    (m : gmap string PackageT) :
  m !! Pkg_PkgPath (LP_Package p) = None ->
  search_inv pkgs (stk ++ [p]) visited m ->
  search_inv pkgs (stk ++ LP_Imports p) (p :: visited)
    (<[Pkg_PkgPath (LP_Package p) := LP_Package p]> m).
Proof.
  intros Hp (Hstk & Hroots & Hvis & Hmap).
  assert (Hreach : exists r, In r pkgs /\ reaches r p).
  { apply Hstk. apply in_or_app. right. left. reflexivity. }
  assert (Hin : forall lp, In lp (stk ++ [p]) \/ is_Some (m !! Pkg_PkgPath (LP_Package lp)) ->
            In lp (stk ++ LP_Imports p) \/
            is_Some (<[Pkg_PkgPath (LP_Package p) := LP_Package p]> m
                       !! Pkg_PkgPath (LP_Package lp))).
  { intros lp [Hlp|Hs].
    - apply in_app_or in Hlp as [Hlp|Hlp]; [|destruct Hlp as [<-|Hlp]; [|destruct Hlp]].
      + left. apply in_or_app. auto.
      + right. rewrite lookup_insert_eq. eauto.
    - right. apply is_Some_insert. exact Hs. }
  split; [|split; [|split]].
  - intros lp Hlp. apply in_app_or in Hlp as [Hlp|Hlp].
    + apply Hstk. apply in_or_app. auto.
    + destruct Hreach as (r & Hr & Hrp). exists r. split; [exact Hr|].
      eapply reaches_step; eauto.
  - intros r Hr. apply Hin. apply Hroots. exact Hr.
  - intros lp [<-|Hlp].
    + split; [apply lookup_insert_eq|]. split; [exact Hreach|].
      intros imp Himp. left. apply in_or_app. auto.
    + destruct (Hvis lp Hlp) as (H1 & H2 & H3).
      split; [|split; [exact H2|]].
      * rewrite lookup_insert_ne; [exact H1|]. intros Heq. rewrite Heq in Hp. congruence.
      * intros imp Himp. apply Hin. apply H3. exact Himp.
  - intros path q Hq.
    destruct (decide (Pkg_PkgPath (LP_Package p) = path)) as [<-|Hne].
    + rewrite lookup_insert_eq in Hq. injection Hq as <-.
      exists p. split; [left; reflexivity|]. auto.
    + rewrite lookup_insert_ne in Hq by exact Hne.
      destruct (Hmap path q Hq) as (lp & Hlp & H1 & H2).
      exists lp. split; [right; exact Hlp|]. auto.
Qed.

(** With a bound larger than the number of packages in the trees on the
    stack, the search ends. *)
Lemma newObjectCache_loop_ends (fuel : nat) :
  forall stk m,
    forest_size stk < fuel ->
    exists m', newObjectCache_loop fuel stk m = Ok m'.
Proof.
  induction fuel as [|fuel IH]; intros stk m Hfuel; [lia|].
  destruct stk as [|p stk _] using rev_ind.
  - exists m. reflexivity.
  - rewrite newObjectCache_loop_snoc.
    rewrite forest_size_app in Hfuel. unfold forest_size at 2 in Hfuel.
    simpl in Hfuel. rewrite LP_size_eq in Hfuel.
    destruct (is_Some_bool _).
    + apply IH. lia.
    + apply IH. rewrite forest_size_app. lia.
Qed.

Lemma newObjectCache_loop_inv (pkgs : list LoadedPackage) (fuel : nat) :
  forall stk visited m m',
    newObjectCache_loop fuel stk m = Ok m' ->
    search_inv pkgs stk visited m ->
    exists visited', search_inv pkgs [] visited' m'.
Proof.
  induction fuel as [|fuel IH]; intros stk visited m m' Hres Hinv; [discriminate|].
  destruct stk as [|p stk _] using rev_ind.
  - injection Hres as <-. exists visited. exact Hinv.
  - rewrite newObjectCache_loop_snoc in Hres.
    destruct (m !! Pkg_PkgPath (LP_Package p)) as [q|] eqn:Hp; simpl in Hres.
    + apply (IH stk visited m m' Hres).
      eapply search_inv_skip; [|exact Hinv]. rewrite Hp. eauto.
    + apply (IH _ (p :: visited) _ m' Hres).
      apply search_inv_visit; assumption.
Qed.

Lemma search_inv_start (pkgs : list LoadedPackage) : search_inv pkgs pkgs [] ∅.
Proof.
  split; [|split; [|split]].
  - intros lp Hlp. exists lp. split; [exact Hlp|apply reaches_self].
  - auto.
  - intros lp [].
  - intros path q Hq. rewrite lookup_empty in Hq. discriminate.
Qed.

(** [newObjectCache] panics when it is given no package.  Given packages,
    and run with a bound larger than the number of packages in their trees of
    imports, it makes a cache without entries, with the file set of the first
    package, in which every given package is found under its import path, and
    in which whatever is found under a path is a package with that path, one
    of the given packages or of those they import, directly or not. *)
Theorem newObjectCache_packages (MakeHasher : Hasher) (fuel : nat)
    (p0 : LoadedPackage) (rest : list LoadedPackage) :
  forest_size (p0 :: rest) < fuel ->
  newObjectCache MakeHasher fuel [] =
    Panic "object cache must have packages to draw from" /\
  exists oc, newObjectCache MakeHasher fuel (p0 :: rest) = Ok oc /\
    oc_fset oc = LP_Fset p0 /\
    hasher oc = MakeHasher /\
    objects oc = ∅ /\
    cache_ok oc /\
    (forall r, In r (p0 :: rest) -> is_Some (packages oc !! Pkg_PkgPath (LP_Package r))) /\
    (forall path q, packages oc !! path = Some q ->
       Pkg_PkgPath q = path /\
       exists r lp, In r (p0 :: rest) /\ reaches r lp /\ q = LP_Package lp).
Proof.
  intros Hfuel. split; [reflexivity|].
  destruct (newObjectCache_loop_ends fuel (p0 :: rest) ∅ Hfuel) as [m Hloop].
  destruct (newObjectCache_loop_inv (p0 :: rest) fuel (p0 :: rest) [] ∅ m Hloop
              (search_inv_start _)) as (visited & _ & Hroots & Hvis & Hmap).
  unfold newObjectCache. rewrite Hloop. simpl. eexists. split; [reflexivity|]. simpl.
  repeat split.
  - intros ref ent Href. simpl in Href. rewrite lookup_empty in Href. discriminate.
  - intros r Hr. destruct (Hroots r Hr) as [[]|Hs]. exact Hs.
  - destruct (Hmap path q H) as (lp & Hlp & H1 & H2). exact H2.
  - destruct (Hmap path q H) as (lp & Hlp & H1 & H2).
    destruct (Hvis lp Hlp) as (_ & (r & Hr & Hrl) & _). eauto.
Qed.

(** When the given packages and their imports hold one package for an
    import path, as [go/packages] guarantees, the cache that
    [newObjectCache] makes has every one of them under its import path, so
    that [oc.varDecl] finds the package of every variable declared in
    them. *)
Theorem newObjectCache_complete (MakeHasher : Hasher) (fuel : nat)
    (pkgs : list LoadedPackage) (oc : objectCache) :
  uniquePaths pkgs ->
  newObjectCache MakeHasher fuel pkgs = Ok oc ->
  forall r lp, In r pkgs -> reaches r lp ->
    packages oc !! Pkg_PkgPath (LP_Package lp) = Some (LP_Package lp) /\
    forall (v : Var type) (pkg : Package),
      Var_Pkg v = Some pkg -> Package_Path pkg = Pkg_PkgPath (LP_Package lp) ->
      varDecl oc v = Ok (Pkg_enclosingSpec (LP_Package lp) (Var_Pos v)).
Proof.
  intros Huniq Hres.
  cut (forall r lp, In r pkgs -> reaches r lp ->
         packages oc !! Pkg_PkgPath (LP_Package lp) = Some (LP_Package lp)).
  { intros Hall r lp Hr Hreach. split; [exact (Hall r lp Hr Hreach)|].
    intros v pkg Hv Hpath. unfold varDecl. rewrite Hv. simpl.
    rewrite Hpath, (Hall r lp Hr Hreach). reflexivity. }
  destruct pkgs as [|p0 rest]; [discriminate|].
  unfold newObjectCache in Hres.
  destruct (newObjectCache_loop fuel (p0 :: rest) ∅) as [m|msg|] eqn:Hloop;
    simpl in Hres; try discriminate.
  injection Hres as <-. simpl.
  destruct (newObjectCache_loop_inv (p0 :: rest) fuel (p0 :: rest) [] ∅ m Hloop
              (search_inv_start _)) as (visited & _ & Hroots & Hvis & Hmap).
  assert (Hcovered : forall x, (exists r, In r (p0 :: rest) /\ reaches r x) ->
            is_Some (m !! Pkg_PkgPath (LP_Package x)) -> In x visited).
  { intros x (r & Hr & Hrx) [q Hq].
    destruct (Hmap _ _ Hq) as (lp' & Hlp' & -> & Hpath).
    destruct (Hvis lp' Hlp') as (_ & (r' & Hr' & Hrl') & _).
    rewrite <- (Huniq r' r lp' x Hr' Hr Hrl' Hrx Hpath). exact Hlp'. }
  assert (Hclosed : forall p lp, reaches p lp ->
            (exists r, In r (p0 :: rest) /\ reaches r p) -> In p visited -> In lp visited).
  { intros p lp Hreach. induction Hreach as [p|p q lp Hin Hreach IH]; [auto|].
    intros (r & Hr & Hrp) Hp.
    assert (Hq : exists r, In r (p0 :: rest) /\ reaches r q).
    { exists r. split; [exact Hr|]. eapply reaches_step; eauto. }
    apply IH; [exact Hq|]. apply Hcovered; [exact Hq|].
    destruct (Hvis p Hp) as (_ & _ & Himports).
    destruct (Himports q Hin) as [[]|Hs]. exact Hs. }
  intros r lp Hr Hreach.
  assert (Hroot : exists r', In r' (p0 :: rest) /\ reaches r' r).
  { exists r. split; [exact Hr|apply reaches_self]. }
  assert (Hlp : In lp visited).
  { apply (Hclosed r lp Hreach Hroot). apply Hcovered; [exact Hroot|].
    destruct (Hroots r Hr) as [[]|Hs]. exact Hs. }
  apply (Hvis lp Hlp).
Qed.

End LoadFacts.

(* ------------------------------------------------------------------ *)
(** ** The calls of the generated injectors *)

Module GuestbookCalls.
Import Guestbook.

Lemma invoked_app (t1 t2 : trace) : invoked (t1 ++ t2)%list = (invoked t1 ++ invoked t2)%list.
Proof. unfold invoked. apply omap_app. Qed.

Lemma invoked_steps (done : list step) :
  invoked (concat (map step_events done)) = map step_fn done.
Proof.
  induction done as [|s done IH]; [reflexivity|].
  simpl. rewrite invoked_app, IH. unfold step_events, invoked.
  destruct (has_cleanup s); reflexivity.
Qed.

Lemma invoked_teardowns (l : list call) : invoked (map Teardown l) = [].
Proof. induction l as [|c l IH]; [reflexivity|exact IH]. Qed.

Lemma completed_none (fails : call -> bool) (plan : list step) :
  forall done, completed fails plan = (done, None) -> done = plan.
Proof.
  induction plan as [|s plan IH]; simpl; intros done.
  - intros [= <-]. reflexivity.
  - destruct (has_err s && fails (step_fn s)); [discriminate|].
    destruct (completed fails plan) as [done' [s'|]]; [discriminate|].
    intros [= <-]. rewrite (IH done' eq_refl). reflexivity.
Qed.

Lemma calls_until_failure_completed (fails : call -> bool) (plan : list step) :
  calls_until_failure fails plan =
    match completed fails plan with
    | (done, Some s) => (map step_fn done ++ [step_fn s])%list
    | (done, None) => map step_fn done
    end.
Proof.
  induction plan as [|s plan IH]; simpl; [reflexivity|].
  destruct (has_err s && fails (step_fn s)); [reflexivity|].
  rewrite IH. destruct (completed fails plan) as [done [s'|]]; reflexivity.
Qed.

Lemma calls_until_failure_prefix (fails : call -> bool) (plan : list step) :
  calls_until_failure fails plan `prefix_of` map step_fn plan.
Proof.
  induction plan as [|s plan IH]; simpl; [reflexivity|].
  apply prefix_cons. destruct (has_err s && fails (step_fn s)); [apply prefix_nil|exact IH].
Qed.

(** An injector that keeps the resource discipline of a plan calls the
    functions of the plan in order, up to the first that fails. *)
Lemma discipline_calls (plan : list step)
    (injector : (call -> bool) -> M (value * func * option gerror)) :
  teardown_discipline plan injector ->
  forall fails t0, exists t,
    fst (injector fails t0) = (t0 ++ t)%list /\
    invoked t = calls_until_failure fails plan.
Proof.
  intros Hd fails t0. specialize (Hd fails t0).
  rewrite calls_until_failure_completed.
  pose proof (completed_none fails plan) as Hnone.
  destruct (completed fails plan) as [done [s|]].
  - rewrite Hd. cbn [fst]. eexists. split; [reflexivity|].
    rewrite !invoked_app, invoked_steps, invoked_teardowns, app_nil_r. reflexivity.
  - destruct Hd as (app & aggregate & -> & _). cbn [fst]. eexists. split; [reflexivity|].
    rewrite invoked_steps, (Hnone done eq_refl). reflexivity.
Qed.

Lemma NoDup_prefix {A} (l1 l2 : list A) : l1 `prefix_of` l2 -> NoDup l2 -> NoDup l1.
Proof. intros [k ->] Hnd. apply NoDup_app in Hnd. apply Hnd. Qed.

Lemma discipline_calls_once (plan : list step)
    (injector : (call -> bool) -> M (value * func * option gerror)) :
  teardown_discipline plan injector ->
  NoDup (map step_fn plan) ->
  forall fails t0, exists t,
    fst (injector fails t0) = (t0 ++ t)%list /\
    invoked t = calls_until_failure fails plan /\
    invoked t `prefix_of` map step_fn plan /\
    NoDup (invoked t).
Proof.
  intros Hd Hnd fails t0. destruct (discipline_calls plan injector Hd fails t0) as (t & Ht & Hc).
  exists t. split; [exact Ht|]. split; [exact Hc|].
  assert (Hp : invoked t `prefix_of` map step_fn plan)
    by (rewrite Hc; apply calls_until_failure_prefix).
  split; [exact Hp|]. exact (NoDup_prefix _ _ Hp Hnd).
Qed.

(** Whichever calls fail, a run of [setupAWS], [setupGCP] or [setupLocal]
    calls exactly the functions of the injector, in the order in which they
    are written, up to and including the first call that fails (all of them
    when none fails), and calls none of them twice: a value that several
    later calls need is made once. *)
Theorem injectors_call_once (fails : call -> bool) (ctx flags : value) (t0 : trace) :
  (exists t, fst (setupAWS fails ctx flags t0) = (t0 ++ t)%list /\
     invoked t = calls_until_failure fails plan_setupAWS /\
     invoked t `prefix_of` map step_fn plan_setupAWS /\ NoDup (invoked t)) /\
  (exists t, fst (setupGCP fails ctx flags t0) = (t0 ++ t)%list /\
     invoked t = calls_until_failure fails plan_setupGCP /\
     invoked t `prefix_of` map step_fn plan_setupGCP /\ NoDup (invoked t)) /\
  (exists t, fst (setupLocal fails ctx flags t0) = (t0 ++ t)%list /\
     invoked t = calls_until_failure fails plan_setupLocal /\
     invoked t `prefix_of` map step_fn plan_setupLocal /\ NoDup (invoked t)).
Proof.
  split; [|split].
  - apply (discipline_calls_once _ _ (GuestbookFacts.setupAWS_discipline ctx flags)).
    apply GuestbookFacts.NoDup_by_computation. reflexivity.
  - apply (discipline_calls_once _ _ (GuestbookFacts.setupGCP_discipline ctx flags)).
    apply GuestbookFacts.NoDup_by_computation. reflexivity.
  - apply (discipline_calls_once _ _ (GuestbookFacts.setupLocal_discipline ctx flags)).
    apply GuestbookFacts.NoDup_by_computation. reflexivity.
Qed.

End GuestbookCalls.

(* ------------------------------------------------------------------ *)
(** ** Items and errors *)

Section ExclusiveFacts.
Context {GT : GoTypes} {WE : WireEnv}.

Lemma cache_exclusive_store oc ref item errs :
  cache_exclusive oc -> entry_exclusive item errs ->
  cache_exclusive (objectCache_store oc ref
                     {| objCacheEntry_val := item; objCacheEntry_errs := errs |}).
Proof.
  intros Hoc Hent ref' ent'. unfold objectCache_store. simpl.
  destruct (decide (ref = ref')) as [<-|Hne].
  - rewrite lookup_insert_eq. intros [= <-]. exact Hent.
  - rewrite lookup_insert_ne by exact Hne. apply Hoc.
Qed.

Lemma processFuncProvider_exclusive fset fn p errs :
  processFuncProvider fset fn = Ok (p, errs) -> errs <> [] -> p = None.
Proof.
  intros Hres Herrs.
  destruct (snd (funcOutput (Func_Type fn))) as [ferr|] eqn:Hsig.
  - unfold processFuncProvider in Hres.
    destruct (funcOutput (Func_Type fn)) as [providerSig ferr']. simpl in Hsig.
    subst ferr'. congruence.
  - destruct (processFuncProvider_cases fset fn Hsig)
      as [[_ Hok]|(i & j & a & b & _ & _ & _ & _ & Herr)]; congruence.
Qed.

Section MethodExclusive.
Variable rec : objectCache -> Info -> string -> Node -> string ->
               result (objectCache * (option Item * list error)).
Hypothesis Hrec : rec_exclusive rec.

Lemma processNewSet_args_exclusive info pkgPath args :
  forall oc pset ec oc' pset' ec',
    cache_exclusive oc ->
    processNewSet_args rec info pkgPath args oc pset ec = Ok (oc', pset', ec') ->
    cache_exclusive oc'.
Proof.
  induction args as [|arg rest IH]; intros oc pset ec oc' pset' ec' Hoc; simpl.
  - intros [= <- <- <-]. exact Hoc.
  - destruct (rec oc info pkgPath arg EmptyString) as [[oc1 [item errs]]|msg|] eqn:Hr;
      simpl; try discriminate.
    destruct (Hrec _ _ _ _ _ _ _ _ Hoc Hr) as [Hoc1 _].
    case_bool_decide.
    + apply IH. exact Hoc1.
    + destruct item as [item|]; [|discriminate]. apply IH. exact Hoc1.
Qed.

Lemma processNewSet_exclusive oc info pkgPath call injectorArgs varName oc' pset errs :
  cache_exclusive oc ->
  processNewSet rec oc info pkgPath call injectorArgs varName = Ok (oc', (pset, errs)) ->
  cache_exclusive oc' /\ (errs <> [] -> pset = None).
Proof.
  intros Hoc. unfold processNewSet.
  destruct (processNewSet_args _ _ _ _ _ _ _) as [[[oc1 pset1] ec1]|msg|] eqn:Hargs;
    simpl; try discriminate.
  pose proof (processNewSet_args_exclusive _ _ _ _ _ _ _ _ _ Hoc Hargs) as Hoc1.
  case_bool_decide; [intros [= <- <- <-]; auto|].
  destruct (buildProviderMap _ _ _) as [[[pm sm] errs1]|msg|]; simpl; try discriminate.
  case_bool_decide; [intros [= <- <- <-]; auto|].
  destruct (verifyAcyclic _ _) as [errs2|msg|]; simpl; try discriminate.
  case_bool_decide; intros [= <- <- <-]; [auto|].
  split; [exact Hoc1|]. congruence.
Qed.

Lemma get_exclusive oc obj oc' item errs :
  cache_exclusive oc ->
  get rec oc obj = Ok (oc', (item, errs)) ->
  cache_exclusive oc' /\ entry_exclusive item errs.
Proof.
  intros Hoc. unfold get.
  destruct (Object_Pkg obj) as [objPkg|]; simpl; [|discriminate].
  destruct (objects oc !! (Package_Path objPkg, Object_Name obj)) as [ent|] eqn:Hcache.
  { intros [= <- <- <-]. split; [exact Hoc|]. exact (Hoc _ _ Hcache). }
  match goal with
  | |- rbind ?m _ = _ -> _ => destruct m as [[oc1 [item1 errs1]]|msg|] eqn:Hm
  end; simpl; try discriminate.
  intros [= <- <- <-].
  assert (Hinner : cache_exclusive oc1 /\ entry_exclusive item1 errs1).
  { destruct obj as [v|fn|tn|pkg name pos|pkg name pos].
    - destruct (varDecl oc v) as [[spec|]|msg|]; simpl in Hm; try discriminate.
      + case_bool_decide.
        * injection Hm as <- <- <-. split; [exact Hoc|]. intros _. reflexivity.
        * destruct (packages oc !! Package_Path objPkg) as [pkg|]; simpl in Hm;
            [|discriminate].
          destruct (index (Spec_Values spec) _) as [value|msg|]; simpl in Hm;
            try discriminate.
          exact (Hrec _ _ _ _ _ _ _ _ Hoc Hm).
      + injection Hm as <- <- <-. split; [exact Hoc|]. intros _. reflexivity.
    - destruct (processFuncProvider (oc_fset oc) fn) as [[p errs]|msg|] eqn:Hp;
        simpl in Hm; try discriminate.
      injection Hm as <- <- <-. split; [exact Hoc|].
      intros Herrs. rewrite (processFuncProvider_exclusive _ _ _ _ Hp Herrs). reflexivity.
    - injection Hm as <- <- <-. split; [exact Hoc|]. intros _. reflexivity.
    - injection Hm as <- <- <-. split; [exact Hoc|]. intros _. reflexivity.
    - injection Hm as <- <- <-. split; [exact Hoc|]. intros _. reflexivity. }
  destruct Hinner as [Hoc1 Hent]. split; [|exact Hent].
  apply cache_exclusive_store; assumption.
Qed.

Lemma processExpr_body_exclusive : rec_exclusive (processExpr_body rec).
Proof.
  intros oc info pkgPath expr varName oc' item errs Hoc. unfold processExpr_body.
  destruct (qualifiedIdentObject info (Some (Unparen expr))) as [obj|].
  { destruct (get rec oc obj) as [[oc1 [item1 errs1]]|msg|] eqn:Hget; simpl;
      try discriminate.
    intros [= <- <- <-]. destruct (get_exclusive _ _ _ _ _ Hoc Hget) as [Hoc1 Hent].
    split; [exact Hoc1|]. intros Herrs. apply Hent.
    intros ->. apply Herrs. reflexivity. }
  assert (Hstruct :
    match structArgType info (Unparen expr) with
    | Some tn =>
        let* '(p, errs0) := processStructProvider (oc_fset oc) tn in
        if bool_decide (0 < length errs0)
        then Ok (oc, (None, notePositionAll
                              (FileSet_Position (oc_fset oc) (Node_Pos expr)) errs0))
        else Ok (oc, (ItemProvider <$> p, []))
    | None =>
        Ok (oc, (None, [notePosition (FileSet_Position (oc_fset oc) (Node_Pos expr))
                          (errors_New "unknown pattern")]))
    end = Ok (oc', (item, errs)) -> cache_exclusive oc' /\ entry_exclusive item errs).
  { destruct (structArgType info (Unparen expr)) as [tn|].
    - destruct (processStructProvider (oc_fset oc) tn) as [[p errs0]|msg|];
        simpl; try discriminate.
      case_bool_decide; intros [= <- <- <-]; (split; [exact Hoc|]);
        [intros _; reflexivity|intros Herrs; contradiction].
    - intros [= <- <- <-]. split; [exact Hoc|]. intros _. reflexivity. }
  destruct (Unparen expr); try exact Hstruct.
  clear Hstruct.
  match goal with
  | |- context [qualifiedIdentObject info (Some ?fn)] =>
      destruct (qualifiedIdentObject info (Some fn)) as [fnObj|]
  end.
  2:{ intros [= <- <- <-]. split; [exact Hoc|]. intros _. reflexivity. }
  destruct (Object_Pkg fnObj) as [fnPkg|]; simpl; [|discriminate].
  destruct (isWireImport (Package_Path fnPkg)); simpl.
  2:{ intros [= <- <- <-]. split; [exact Hoc|]. intros _. reflexivity. }
  repeat case_decide.
  - destruct (processNewSet rec oc info pkgPath _ None varName)
      as [[oc1 [pset errs1]]|msg|] eqn:Hns; simpl; try discriminate.
    intros [= <- <- <-].
    destruct (processNewSet_exclusive _ _ _ _ _ _ _ _ _ Hoc Hns) as [Hoc1 Hent].
    split; [exact Hoc1|]. intros Herrs. rewrite Hent; [reflexivity|].
    intros ->. apply Herrs. reflexivity.
  - destruct (processBind _ _ _) as [b [e|]]; intros [= <- <- <-];
      (split; [exact Hoc|]); [intros _; reflexivity|intros Herrs; contradiction].
  - destruct (processValue _ _ _) as [b [e|]]; intros [= <- <- <-];
      (split; [exact Hoc|]); [intros _; reflexivity|intros Herrs; contradiction].
  - destruct (processInterfaceValue _ _ _) as [b [e|]]; intros [= <- <- <-];
      (split; [exact Hoc|]); [intros _; reflexivity|intros Herrs; contradiction].
  - intros [= <- <- <-]. split; [exact Hoc|]. intros _. reflexivity.
Qed.

End MethodExclusive.

Lemma processExpr_exclusive (fuel : nat) : rec_exclusive (processExpr fuel).
Proof.
  induction fuel as [|fuel IH].
  - intros oc info pkgPath expr varName oc' item errs _. discriminate.
  - simpl. apply processExpr_body_exclusive. exact IH.
Qed.

(** Started from an object cache of which this holds, [oc.processExpr]
    returns either an item that holds a provider, a provider set, a binding
    or a value, and no error, or at least one error and an item that holds
    none of these (in Go, an [interface{}] that is nil or that holds a nil
    pointer), and the entries that it adds to the cache are of these two
    kinds.  It holds of the empty cache. *)
Theorem processExpr_item_or_errors (fuel : nat) (oc : objectCache) (info : Info)
    (pkgPath : string) (expr : Node) (varName : string) (oc' : objectCache)
    (item : option Item) (errs : list error) :
  cache_ok oc -> cache_exclusive oc ->
  processExpr fuel oc info pkgPath expr varName = Ok (oc', (item, errs)) ->
  cache_ok oc' /\ cache_exclusive oc' /\
  ((exists i, item = Some i /\ errs = []) \/ (item = None /\ errs <> [])).
Proof.
  intros Hok Hex Hres.
  destruct (processExpr_entry_ok fuel _ _ _ _ _ _ _ _ Hok Hres) as [Hok' Hent].
  destruct (processExpr_exclusive fuel _ _ _ _ _ _ _ _ Hex Hres) as [Hex' Hent'].
  split; [exact Hok'|]. split; [exact Hex'|].
  destruct errs as [|e errs].
  - left. destruct item as [i|]; [eauto|]. exfalso. apply Hent; reflexivity.
  - right. split; [apply Hent'|]; discriminate.
Qed.

(** The objects of the universe, such as [nil], [true] and the built-in
    functions, belong to no package.  On an identifier that denotes such an
    object, and on a call of such a function, [oc.processExpr] panics with a
    nil pointer dereference, where it asks for the path of the object's
    package. *)
Theorem processExpr_universe_object_panics (fuel : nat) (oc : objectCache) (info : Info)
    (pkgPath : string) (expr : Node) (varName : string) (obj : Object) :
  Object_Pkg obj = None ->
  (qualifiedIdentObject info (Some (Unparen expr)) = Some obj ->
   processExpr (Datatypes.S fuel) oc info pkgPath expr varName =
     Panic "nil pointer dereference") /\
  (forall fn args, Unparen expr = CallExpr fn args ->
   qualifiedIdentObject info (Some fn) = Some obj ->
   processExpr (Datatypes.S fuel) oc info pkgPath expr varName =
     Panic "nil pointer dereference").
Proof.
  intros Hpkg. split.
  - intros Hobj. simpl. unfold processExpr_body. rewrite Hobj.
    unfold get. rewrite Hpkg. reflexivity.
  - intros fn args Hcall Hobj. simpl. unfold processExpr_body. rewrite Hcall.
    change (qualifiedIdentObject info (Some (CallExpr fn args))) with (@None Object).
    cbv beta iota. rewrite Hobj, Hpkg. reflexivity.
Qed.

End ExclusiveFacts.

(* ------------------------------------------------------------------ *)
(** ** More of the properties at work *)

Module MoreExamples.
Import Toy.

(** The provider for [NewFile(name string, size int) File]. *)
Lemma processFuncProvider_shape_witness :
  exists p,
    processFuncProvider fset NewFile = Ok (Some p, []) /\
    snd (funcOutput (Func_Type NewFile)) = None /\
    ~ hasDuplicate (map Var_Type (Params (Func_Type NewFile))) /\
    Provider_Pkg p = Func_Pkg NewFile /\
    Provider_Name p = Func_Name NewFile /\
    Provider_Pos p = Func_Pos NewFile /\
    map ProviderInput_Type (Args p) =
      map (fun v => Some (Var_Type v)) (Params (Func_Type NewFile)) /\
    Out p = [out (fst (funcOutput (Func_Type NewFile)))] /\
    HasCleanup p = cleanup (fst (funcOutput (Func_Type NewFile))) /\
    HasErr p = err (fst (funcOutput (Func_Type NewFile))) /\
    IsStruct p = false /\
    Fields p = [] /\
    @nil error = [].
Proof.
  eexists. split; [reflexivity|].
  apply (processFuncProvider_shape fset NewFile). reflexivity.
Defined.

Example processFuncProvider_OpenFile :
  processFuncProvider fset OpenFile =
    Ok (Some {| Provider_Pkg := Some appPkg; Provider_Name := "OpenFile"; Provider_Pos := 400;
                Args := [{| ProviderInput_Type := Some Str |}];
                IsStruct := false; Fields := [];
                Out := [Some File];
                HasCleanup := true; HasErr := true |}, []).
Proof. reflexivity. Qed.

(** [wire.Bind(new(Reader), file)] is accepted; [wire.Bind(file, file)] and
    [wire.Bind(new(Reader))] are not. *)
Example processBind_bindCall :
  processBind fset info bindCall =
    (Some {| Iface := Reader; Provided := File; IfaceBinding_Pos := 800 |}, None).
Proof. reflexivity. Qed.

Example processBind_not_pointer :
  processBind fset info (wireCall 800 "Bind" [Ident 810 "file"; Ident 823 "file"]) =
    (None, Some (wireErr (errorString "first argument to Bind must be a pointer to an interface type; found File")
                   (FileSet_Position fset 800))).
Proof. reflexivity. Qed.

Example processBind_one_argument :
  processBind fset info (wireCall 800 "Bind" [CallExpr (Ident 810 "new") [Ident 814 "Reader"]]) =
    (None, Some (wireErr (errorString "call to Bind takes exactly two arguments")
                   (FileSet_Position fset 800))).
Proof. reflexivity. Qed.

(** [wire.InterfaceValue(new(Reader), <-ch)] is accepted although its second
    argument holds a channel receive, which [wire.Value(<-ch)] rejects; the
    value has the type [Reader]. *)
Example processInterfaceValue_receive :
  processInterfaceValue fset info
    (wireCall 1200 "InterfaceValue" [CallExpr (Ident 1220 "new") [Ident 1224 "Reader"]; receive]) =
    (Some {| Value_Pos := 620; Value_Out := Reader; Value_expr := receive;
             Value_info := info |}, None) /\
  processValue fset info (wireCall 1200 "Value" [receive]) =
    (None, Some (wireErr (errorString "argument to Value is too complex")
                   (FileSet_Position fset 1200))).
Proof. split; reflexivity. Qed.

(** [wire.Value(NewFile(`a`, 1))] holds a call of a function and is
    rejected. *)
Example processValue_call_rejected :
  isFuncValueCall info (CallExpr (Ident 1400 "NewFile") [BasicLit 1408 "`a`"; BasicLit 1413 "1"])
    = true /\
  processValue fset info
    (wireCall 1390 "Value"
       [CallExpr (Ident 1400 "NewFile") [BasicLit 1408 "`a`"; BasicLit 1413 "1"]]) =
    (None, Some (wireErr (errorString "argument to Value is too complex")
                   (FileSet_Position fset 1390))).
Proof. split; reflexivity. Qed.

(** A copy of package [wire] in a [vendor] directory is recognised; a
    directory whose name only ends in [vendor] is not. *)
Example isWireImport_vendored :
  isWireImport "example.com/app/vendor/github.com/google/go-cloud/wire" = true /\
  isWireImport "vendor/github.com/google/go-cloud/wire" = true /\
  isWireImport "example.com/myvendor/github.com/google/go-cloud/wire" = false /\
  isWireImport "github.com/google/go-cloud/wire/internal" = false.
Proof. repeat split. Qed.

(** The injector templates of [ToyLoad]: [initFile] and [initFile2] are
    templates, [initFile3] is refused for its first statement, and [plain]
    is not a template. *)
Example findInjectorBuild_templates :
  findInjectorBuild ToyLoad.infoWithPanic ToyLoad.initFile = (Some ToyLoad.buildCall, None) /\
  findInjectorBuild ToyLoad.infoWithPanic ToyLoad.initFile2 = (Some ToyLoad.buildCall, None) /\
  fst (findInjectorBuild ToyLoad.infoWithPanic ToyLoad.initFile3) = None /\
  snd (findInjectorBuild ToyLoad.infoWithPanic ToyLoad.initFile3) <> None /\
  findInjectorBuild ToyLoad.infoWithPanic ToyLoad.plain = (None, None).
Proof. repeat split. discriminate. Qed.

(** The second [get] for the variable [Set] needs no evaluation. *)
Lemma get_memoized_witness :
  exists oc' item errs,
    get (processExpr 2) oc (ObjVar ToyLoad.setVar) = Ok (oc', (item, errs)) /\
    get (processExpr 0) oc' (ObjVar ToyLoad.setVar) = Ok (oc', (item, errs)) /\
    exists pkg ent, Object_Pkg (ObjVar ToyLoad.setVar) = Some pkg /\
      objects oc' !! (Package_Path pkg, Object_Name (ObjVar ToyLoad.setVar)) = Some ent /\
      objCacheEntry_val ent = item /\ objCacheEntry_errs ent = errs.
Proof.
  eexists. eexists. eexists.
  match goal with
  | |- ?A /\ _ => assert (Hres : A) by reflexivity
  end.
  split; [exact Hres|].
  apply (get_memoized (processExpr 2) (processExpr 0) _ _ _ _ _ Hres).
Defined.


(** [wire.NewSet(NewFile, wire.Bind(new(Reader), file), Buffer{}, wire.Value(`a`))]
    yields a set with two providers, a binding and a value. *)
Lemma processNewSet_contents_witness :
  exists oc' pset items,
    processNewSet (processExpr 2) oc info "example.com/app" ToyLoad.goodSetCall None "Good" =
      Ok (oc', (Some pset, [])) /\
    argResults (processExpr 2) info "example.com/app" (Call_Args ToyLoad.goodSetCall) oc =
      Ok (oc', map (fun i => (Some i, [])) items) /\
    length items = length (Call_Args ToyLoad.goodSetCall) /\
    Providers pset = omap Item_Provider items /\
    Imports pset = omap Item_ProviderSet items /\
    Bindings pset = omap Item_IfaceBinding items /\
    Values pset = omap Item_Value items /\
    ProviderSet_Pos pset = Call_Pos ToyLoad.goodSetCall /\
    PkgPath pset = "example.com/app" /\
    VarName pset = "Good" /\
    ProviderSet_InjectorArgs pset = None /\
    buildProviderMap (oc_fset oc') (hasher oc') (ProviderSet_set_maps pset None None) =
      Ok (providerMap pset, srcMap pset, []) /\
    verifyAcyclic (providerMap pset) (hasher oc') = Ok [] /\
    @nil error = [].
Proof.
  eexists. eexists.
  assert (Hres : processNewSet (processExpr 2) oc info "example.com/app"
                   ToyLoad.goodSetCall None "Good" = Ok (_, (Some _, []))) by reflexivity.
  destruct (processNewSet_contents (processExpr 2) oc info "example.com/app"
              ToyLoad.goodSetCall None "Good" _ _ _ Hres) as [items Hitems].
  exists items. split; [exact Hres|exact Hitems].
Defined.

Example processNewSet_goodSetCall :
  match processNewSet (processExpr 2) oc info "example.com/app" ToyLoad.goodSetCall None "Good" with
  | Ok (_, (Some pset, [])) =>
      map Provider_Name (Providers pset) = ["NewFile"; "Buffer"] /\
      map Iface (Bindings pset) = [Reader] /\
      map Value_Out (Values pset) = [Str] /\
      Imports pset = [] /\
      Outputs pset = [File; Buffer; Ptr Buffer; Str]
  | _ => False
  end.
Proof. vm_compute. repeat split. Qed.

(** The set made of the call records the name [Good] under which it was
    processed. *)
Lemma processExpr_set_of_call_witness :
  exists oc' set,
    Unparen (ParenExpr 1099 (callNode ToyLoad.goodSetCall)) =
      CallExpr (Fun ToyLoad.goodSetCall) (Call_Args ToyLoad.goodSetCall) /\
    processExpr 3 oc info "example.com/app"
      (ParenExpr 1099 (callNode ToyLoad.goodSetCall)) "Good" =
      Ok (oc', (Some (ItemProviderSet set), [])) /\
    (exists fnObj fnPkg,
       qualifiedIdentObject info (Some (Fun ToyLoad.goodSetCall)) = Some fnObj /\
       Object_Pkg fnObj = Some fnPkg /\ isWireImport (Package_Path fnPkg) = true /\
       Object_Name fnObj = "NewSet") /\
    ProviderSet_Pos set = Node_Pos (Fun ToyLoad.goodSetCall) /\
    PkgPath set = "example.com/app" /\
    VarName set = "Good" /\
    ProviderSet_InjectorArgs set = None /\
    @nil error = [].
Proof.
  eexists. eexists.
  match goal with
  | |- ?A /\ ?B /\ _ =>
      assert (Hcall : A) by reflexivity;
      assert (Hres : B) by reflexivity
  end.
  split; [exact Hcall|]. split; [exact Hres|].
  apply (processExpr_set_of_call 3 _ _ _ _ _ _ _ _ _ _ Hcall Hres).
Defined.

(** The variable [Set] is the first name of its declaration. *)
Lemma get_var_initialiser_witness :
  Var_Pkg ToyLoad.setVar = Some appPkg /\
  objects oc !! (Package_Path appPkg, Var_Name ToyLoad.setVar) = None /\
  packages oc !! Package_Path appPkg = Some app /\
  get (processExpr 2) oc (ObjVar ToyLoad.setVar) =
    match [callNode newSetCall] !! 0 with
    | Some value =>
        let* '(oc1, (val, errs)) :=
          processExpr 2 oc (Pkg_TypesInfo app) (Package_Path appPkg) value
            (Var_Name ToyLoad.setVar) in
        Ok (objectCache_store oc1 (Package_Path appPkg, Var_Name ToyLoad.setVar)
              {| objCacheEntry_val := val; objCacheEntry_errs := errs |},
            (val, errs))
    | None => Panic "index out of range"
    end.
Proof.
  assert (H1 : Var_Pkg ToyLoad.setVar = Some appPkg) by reflexivity.
  assert (H2 : objects oc !! (Package_Path appPkg, Var_Name ToyLoad.setVar) = None)
    by reflexivity.
  assert (H3 : packages oc !! Package_Path appPkg = Some app) by reflexivity.
  split; [exact H1|]. split; [exact H2|]. split; [exact H3|].
  apply (get_var_initialiser (processExpr 2) oc ToyLoad.setVar appPkg app
           {| Names := [{| NamePos := 500; Ident_Name := "Set" |}];
              Spec_Values := [callNode newSetCall] |}
           0 {| NamePos := 500; Ident_Name := "Set" |} H1 H2 H3).
  - reflexivity.
  - discriminate.
  - reflexivity.
  - reflexivity.
  - intros j id' Hj. lia.
Defined.

(** [var a, b = f()]: the declaration has one value, and [get] for [b]
    panics. *)
Example get_var_second_name :
  get (processExpr 2) ToyLoad.ocTwo (ObjVar ToyLoad.bVar) = Panic "index out of range".
Proof. reflexivity. Qed.

(** The cache for the load of [example.com/app], which imports [wire]. *)
Lemma newObjectCache_packages_witness :
  forest_size [ToyLoad.appLoaded] < 3 /\
  newObjectCache () 3 [] = Panic "object cache must have packages to draw from" /\
  exists oc', newObjectCache () 3 [ToyLoad.appLoaded] = Ok oc' /\
    oc_fset oc' = LP_Fset ToyLoad.appLoaded /\
    hasher oc' = () /\
    objects oc' = ∅ /\
    cache_ok oc' /\
    (forall r, In r [ToyLoad.appLoaded] ->
       is_Some (packages oc' !! Pkg_PkgPath (LP_Package r))) /\
    (forall path q, packages oc' !! path = Some q ->
       Pkg_PkgPath q = path /\
       exists r lp, In r [ToyLoad.appLoaded] /\ reaches r lp /\ q = LP_Package lp).
Proof.
  assert (Hfuel : forest_size [ToyLoad.appLoaded] < 3) by (vm_compute; lia).
  split; [exact Hfuel|].
  apply (newObjectCache_packages (GT := toy_types) tt 3 ToyLoad.appLoaded [] Hfuel).
Defined.

Example newObjectCache_appLoaded :
  match newObjectCache () 3 [ToyLoad.appLoaded] with
  | Ok oc' =>
      Pkg_PkgPath <$> packages oc' !! "example.com/app" = Some "example.com/app" /\
      Pkg_PkgPath <$> packages oc' !! "github.com/google/go-cloud/wire" =
        Some "github.com/google/go-cloud/wire" /\
      size (packages oc') = 2
  | _ => False
  end.
Proof. vm_compute. repeat split. Qed.

Lemma newObjectCache_complete_witness :
  uniquePaths [ToyLoad.appLoaded] /\
  exists oc', newObjectCache () 3 [ToyLoad.appLoaded] = Ok oc' /\
    forall r lp, In r [ToyLoad.appLoaded] -> reaches r lp ->
      packages oc' !! Pkg_PkgPath (LP_Package lp) = Some (LP_Package lp) /\
      forall (v : Var type) (pkg : Package),
        Var_Pkg v = Some pkg -> Package_Path pkg = Pkg_PkgPath (LP_Package lp) ->
        varDecl oc' v = Ok (Pkg_enclosingSpec (LP_Package lp) (Var_Pos v)).
Proof.
  assert (Hreach : forall lp, reaches ToyLoad.appLoaded lp ->
            lp = ToyLoad.appLoaded \/ lp = ToyLoad.wireLoaded).
  { intros lp Hlp. inversion Hlp as [|p q r Hin Hq]; subst; [left; reflexivity|].
    simpl in Hin. destruct Hin as [<-|[]].
    inversion Hq as [|p q' r' Hin' Hq']; subst; [right; reflexivity|].
    simpl in Hin'. destruct Hin'. }
  assert (Huniq : uniquePaths [ToyLoad.appLoaded]).
  { intros r1 r2 p1 p2 [<-|[]] [<-|[]] H1 H2 Hpath.
    destruct (Hreach _ H1) as [->| ->], (Hreach _ H2) as [->| ->];
      try reflexivity; simpl in Hpath; discriminate. }
  split; [exact Huniq|].
  eexists.
  match goal with
  | |- ?A /\ _ => assert (Hres : A) by reflexivity
  end.
  split; [exact Hres|].
  apply (newObjectCache_complete (GT := toy_types) tt 3 [ToyLoad.appLoaded] _ Huniq Hres).
Defined.

(** A run of [setupAWS] in which [awsBucket] fails calls ten functions, each
    once. *)
Example setupAWS_awsBucket_fails_calls :
  invoked (fst (Guestbook.setupAWS (fun c => bool_decide (c = Guestbook.awsBucket))
                  (Guestbook.param "ctx") (Guestbook.param "flags") [])) =
    [Guestbook.xrayserver_NewRequestLogger; Guestbook.awsSQLParams;
     Guestbook.rdsmysql_Open; Guestbook.appHealthChecks;
     Guestbook.session_NewSessionWithOptions; Guestbook.xrayserver_NewXRayClient;
     Guestbook.xrayserver_NewExporter; Guestbook.trace_AlwaysSample;
     Guestbook.server_New; Guestbook.awsBucket].
Proof. reflexivity. Qed.


(** Processing the identifier [Set] from the empty cache yields errors and no
    item. *)
Lemma processExpr_item_or_errors_witness :
  exists oc' item errs,
    cache_ok oc /\ cache_exclusive oc /\
    processExpr 3 oc info "example.com/app" (Ident 900 "Set") EmptyString =
      Ok (oc', (item, errs)) /\
    cache_ok oc' /\ cache_exclusive oc' /\
    ((exists i, item = Some i /\ errs = []) \/ (item = None /\ errs <> [])).
Proof.
  eexists. eexists. eexists.
  assert (Hok : cache_ok oc).
  { intros ref ent Hent. unfold oc in Hent. simpl in Hent.
    rewrite lookup_empty in Hent. discriminate. }
  assert (Hex : cache_exclusive oc).
  { intros ref ent Hent. unfold oc in Hent. simpl in Hent.
    rewrite lookup_empty in Hent. discriminate. }
  match goal with
  | |- _ /\ _ /\ ?A /\ _ => assert (Hres : A) by reflexivity
  end.
  split; [exact Hok|]. split; [exact Hex|]. split; [exact Hres|].
  apply (processExpr_item_or_errors 3 _ _ _ _ _ _ _ _ Hok Hex Hres).
Defined.

(** [wire.NewSet(len)] and [wire.NewSet(new(Reader))] make the argument
    panic. *)
Lemma processExpr_universe_object_panics_witness :
  Object_Pkg (ObjOther None "len" 0 : @Object toy_types) = None /\
  processExpr 1 oc info "example.com/app" (Ident 1300 "len") EmptyString =
    Panic "nil pointer dereference" /\
  Object_Pkg (ObjOther None "new" 0 : @Object toy_types) = None /\
  processExpr 1 oc info "example.com/app"
    (CallExpr (Ident 1310 "new") [Ident 1314 "Reader"]) EmptyString =
    Panic "nil pointer dereference".
Proof.
  assert (H1 : Object_Pkg (ObjOther None "len" 0 : @Object toy_types) = None)
    by reflexivity.
  assert (H2 : Object_Pkg (ObjOther None "new" 0 : @Object toy_types) = None)
    by reflexivity.
  split; [exact H1|]. split.
  - apply (proj1 (processExpr_universe_object_panics 0 oc info "example.com/app"
                    (Ident 1300 "len") EmptyString _ H1)).
    reflexivity.
  - split; [exact H2|].
    apply (proj2 (processExpr_universe_object_panics 0 oc info "example.com/app"
                    (CallExpr (Ident 1310 "new") [Ident 1314 "Reader"]) EmptyString _ H2)
             (Ident 1310 "new") [Ident 1314 "Reader"]); reflexivity.
Defined.

End MoreExamples.
